(** * RaeenOS agent dependency checker: a shallow embedding

    This development embeds [tools/agent-coordination/dependency-checker.py]
    and states its behaviour as theorems.

    Conventions of the embedding.
    - A Python [str] is a [string]; its characters are read as code points
      below 256.
    - A Python [list] is a [list]; a [dict] is an insertion-ordered
      association list ([dict]); a [set] that is only tested for membership
      is a [gset string]; a [set] that is iterated is a [gset string] read
      through [set_iter], an arbitrary enumeration of its elements (Python
      fixes no order for the iteration of a set of strings).
    - [self.issues] and the logger are threaded explicitly: a function that
      appends to them takes the old list and returns the new one.
    - The file tree, [git] and the temporary files are an [Env] of
      functions. Reading a file, running [git] and writing a temporary file
      may fail with the exception that the code catches; the tests
      [is_file], [is_dir] and [exists] and the listing [rglob] always
      answer.
    - The depth the interpreter leaves to the recursive search of the
      Validator is an [Interpreter]; a function that can raise
      [RecursionError] returns an [option], and [None] is that exception,
      which nothing in the program catches. *)

From Stdlib Require Import Ascii String.
From stdpp Require Import ssreflect base list strings gmap sets relations pretty.

(** ** Python [str] methods *)

Module Str.

(* [s.startswith(p)] *)
Fixpoint startswith (s p : string) : bool :=
  match p, s with
  | EmptyString, _ => true
  | String a p', String b s' => if decide (a = b) then startswith s' p' else false
  | String _ _, EmptyString => false
  end.

(* The rest of [s] after the prefix [p], when [s] starts with [p]. *)
Fixpoint strip_prefix (p s : string) : option string :=
  match p, s with
  | EmptyString, _ => Some s
  | String a p', String b s' => if decide (a = b) then strip_prefix p' s' else None
  | String _ _, EmptyString => None
  end.

(* [sub in s] *)
Fixpoint contains (sub s : string) : bool :=
  if startswith s sub then true
  else match s with
       | EmptyString => false
       | String _ s' => contains sub s'
       end.

Fixpoint rev_acc (s acc : string) : string :=
  match s with
  | EmptyString => acc
  | String c s' => rev_acc s' (String c acc)
  end.

Definition rev (s : string) : string := rev_acc s EmptyString.

(* [s.endswith(p)] *)
Definition endswith (s p : string) : bool := startswith (rev s) (rev p).

(* [sep.join(l)] *)
Fixpoint join (sep : string) (l : list string) : string :=
  match l with
  | [] => EmptyString
  | [x] => x
  | x :: l' => x +:+ sep +:+ join sep l'
  end.

(* [s.split(sep)] for a one-character separator: the pieces between the
   separators, empty pieces included. [cur] is the piece being read, in
   reverse. *)
Fixpoint split_go (sep : ascii) (s : string) (cur : string) : list string :=
  match s with
  | EmptyString => [rev cur]
  | String c s' =>
      if decide (c = sep) then rev cur :: split_go sep s' EmptyString
      else split_go sep s' (String c cur)
  end.

Definition split (sep : ascii) (s : string) : list string :=
  split_go sep s EmptyString.

(* [str.isspace] on one character: what [\s] matches in a [str] pattern.
   Below 256 these are the code points 9-13, 28-32, 133 and 160. *)
Definition isspace (c : ascii) : bool :=
  let n := nat_of_ascii c in
  (Nat.leb 9 n && Nat.leb n 13) || (Nat.leb 28 n && Nat.leb n 32)
  || Nat.eqb n 133 || Nat.eqb n 160.

Fixpoint lstrip (s : string) : string :=
  match s with
  | String c s' => if isspace c then lstrip s' else s
  | EmptyString => EmptyString
  end.

(* [s.strip()] *)
Definition strip (s : string) : string := rev (lstrip (rev (lstrip s))).

(* [s.rfind('.')]: the index of the last dot, when there is one. *)
Fixpoint rfind_dot (s : string) : option nat :=
  match s with
  | EmptyString => None
  | String c s' =>
      match rfind_dot s' with
      | Some i => Some (S i)
      | None => if decide (c = "."%char) then Some 0 else None
      end
  end.

Fixpoint take (n : nat) (s : string) : string :=
  match n, s with
  | S n', String c s' => String c (take n' s')
  | _, _ => EmptyString
  end.

Fixpoint drop (n : nat) (s : string) : string :=
  match n, s with
  | S n', String _ s' => drop n' s'
  | _, _ => s
  end.

End Str.

(** ** [pathlib] on POSIX paths

    [Path(s)] is read as [PurePosixPath] does: an optional root and the
    components between the slashes, the empty ones and [.] dropped. *)

Module PyPath.

Record t := mk { root : string; tail : list string }.

(* [posixpath.splitroot]: no root, [/], or exactly two slashes. *)
Definition splitroot (p : string) : string * string :=
  match p with
  | String "/" (String "/" (String "/" _)) => ("/", Str.drop 1 p)
  | String "/" (String "/" r) => ("//", r)
  | String "/" r => ("/", r)
  | _ => (EmptyString, p)
  end.

Definition parse (p : string) : t :=
  let '(r, rel) := splitroot p in
  mk r (filter (λ x, x ≠ EmptyString ∧ x ≠ ".") (Str.split "/" rel)).

(* [str(path)] *)
Definition to_str (p : t) : string :=
  match root p, tail p with
  | EmptyString, [] => "."
  | r, l => r +:+ Str.join "/" l
  end.

(* [posixpath.join(a, b)] *)
Definition os_join (a b : string) : string :=
  if Str.startswith b "/" then b
  else if decide (a = EmptyString) then b
  else if Str.endswith a "/" then a +:+ b
  else a +:+ "/" +:+ b.

(* [str(Path(a) / b)] *)
Definition join (a b : string) : string := to_str (parse (os_join a b)).

(* [path.name]: the last component, or the empty string. *)
Definition name_of (p : t) : string := List.last (tail p) EmptyString.

(* [path.stem]: the name without its last suffix; a name that starts or
   ends with its only dot has no suffix. *)
Definition stem_of (p : t) : string :=
  let n := name_of p in
  match Str.rfind_dot n with
  | Some i => if decide (0 < i ∧ i < String.length n - 1) then Str.take i n else n
  | None => n
  end.

(* [path.suffix] *)
Definition suffix_of (p : t) : string :=
  let n := name_of p in
  match Str.rfind_dot n with
  | Some i => if decide (0 < i ∧ i < String.length n - 1) then Str.drop i n else EmptyString
  | None => EmptyString
  end.

(* [path.parent]: the path without its last component. *)
Definition parent_of (p : t) : t := mk (root p) (removelast (tail p)).

(* [Path(s).name], [Path(s).stem], [Path(s).suffix], [Path(s).parent.name] *)
Definition name (s : string) : string := name_of (parse s).
Definition stem (s : string) : string := stem_of (parse s).
Definition suffix (s : string) : string := suffix_of (parse s).
Definition parent_name (s : string) : string := name_of (parent_of (parse s)).

End PyPath.

(** ** The regular expressions of the source

    The patterns of the source use literals, character classes, greedy
    [*] and [+] over one character class, concatenation and capturing
    groups that are not nested. [rmatch_k] is a backtracking matcher in
    continuation style: it tries the alternatives in the order Python's
    [re] does (a greedy repetition takes as many characters as it can and
    gives them back one at a time). *)

Module Re.

Inductive regex :=
| Lit (s : string)
| Cls (p : ascii → bool)
| Star (p : ascii → bool)
| Plus (p : ascii → bool)
| Seq (r1 r2 : regex)
| Group (r : regex).

Declare Scope regex_scope.
Delimit Scope regex_scope with re.
Bind Scope regex_scope with regex.
Infix "⋅" := Seq (at level 41, right associativity) : regex_scope.

Section matcher.
Context {R : Type}.

Fixpoint star_k (p : ascii → bool) (s : string) (k : string → option R) : option R :=
  match s with
  | String c s' =>
      if p c then
        match star_k p s' k with
        | Some r => Some r
        | None => k s
        end
      else k s
  | EmptyString => k s
  end.

(* The text read between [s] and its suffix [s']. *)
Definition consumed (s s' : string) : string :=
  Str.take (String.length s - String.length s') s.

Fixpoint rmatch_k (r : regex) (s : string) (caps : list string)
    (k : string → list string → option R) : option R :=
  match r with
  | Lit l =>
      match Str.strip_prefix l s with
      | Some s' => k s' caps
      | None => None
      end
  | Cls p =>
      match s with
      | String c s' => if p c then k s' caps else None
      | EmptyString => None
      end
  | Star p => star_k p s (λ s', k s' caps)
  | Plus p =>
      match s with
      | String c s' => if p c then star_k p s' (λ s', k s' caps) else None
      | EmptyString => None
      end
  | Seq r1 r2 => rmatch_k r1 s caps (λ s' caps', rmatch_k r2 s' caps' k)
  | Group r1 => rmatch_k r1 s caps (λ s' caps', k s' (caps' ++ [consumed s s']))
  end.

End matcher.

(* [pattern.match(s)]: the groups of the match at the start of [s] and
   the text after the match. *)
Definition rmatch (r : regex) (s : string) : option (list string * string) :=
  rmatch_k r s [] (λ s' caps, Some (caps, s')).

(* [pattern.finditer(s)]: the groups of the non-overlapping matches, left
   to right. [skip] counts the characters of the last match still to be
   stepped over. No pattern of the source matches the empty string. *)
Fixpoint finditer_go (r : regex) (skip : nat) (s : string) : list (list string) :=
  match s with
  | EmptyString => []
  | String _ s' =>
      match skip with
      | S n => finditer_go r n s'
      | O =>
          match rmatch r s with
          | Some (caps, rest) =>
              caps :: finditer_go r (String.length s - String.length rest - 1) s'
          | None => finditer_go r 0 s'
          end
      end
  end.

Definition finditer (r : regex) (s : string) : list (list string) :=
  finditer_go r 0 s.

(* [match.group(n)], for [n ≥ 1]. *)
Definition group (n : nat) (caps : list string) : string :=
  nth (n - 1) caps EmptyString.

(** Character classes. *)

Definition in_range (lo hi c : ascii) : bool :=
  Nat.leb (nat_of_ascii lo) (nat_of_ascii c) && Nat.leb (nat_of_ascii c) (nat_of_ascii hi).

Definition is_char (a c : ascii) : bool := bool_decide (a = c).

Definition dquote : ascii := "034"%char.

(* [\s] *)
Definition space : ascii → bool := Str.isspace.
(* [[a-zA-Z_]] *)
Definition ident_start (c : ascii) : bool :=
  in_range "a" "z" c || in_range "A" "Z" c || is_char "_" c.
(* [[a-zA-Z0-9_]] *)
Definition ident_char (c : ascii) : bool :=
  in_range "a" "z" c || in_range "A" "Z" c || in_range "0" "9" c || is_char "_" c.
(* [[A-Z_]] *)
Definition upper_start (c : ascii) : bool := in_range "A" "Z" c || is_char "_" c.
(* [[A-Z0-9_]] *)
Definition upper_char (c : ascii) : bool :=
  in_range "A" "Z" c || in_range "0" "9" c || is_char "_" c.
(* the class of the asterisk alone *)
Definition star_char (c : ascii) : bool := is_char "*" c.
(* any character but the closing parenthesis *)
Definition not_rparen (c : ascii) : bool := negb (is_char ")" c).
(* The classes of the opening delimiter (an angle bracket or a double
   quote, written \x22 below) and of the closing one. *)
Definition open_delim (c : ascii) : bool := is_char "<" c || is_char dquote c.
Definition close_delim (c : ascii) : bool := is_char ">" c || is_char dquote c.
(* [[^>\x22]] *)
Definition not_close (c : ascii) : bool := negb (close_delim c).

End Re.

Import Re.

(** ** [InterfaceParser.__init__]: the four patterns

    The comments give each pattern of the source with blanks between its
    pieces (the source has none) and \x22 for the double quote. *)

(* \s* ( [a-zA-Z_] [a-zA-Z0-9_]* \s+ [*]* ) \s* ( [a-zA-Z_] [a-zA-Z0-9_]* )
   \s* \( [^)]* \) \s* ; *)
Definition function_pattern : regex :=
  (Star space ⋅ Group (Cls ident_start ⋅ Star ident_char ⋅ Plus space ⋅ Star star_char)
   ⋅ Star space ⋅ Group (Cls ident_start ⋅ Star ident_char) ⋅ Star space
   ⋅ Lit "(" ⋅ Star not_rparen ⋅ Lit ")" ⋅ Star space ⋅ Lit ";")%re.

(* typedef \s+ struct \s+ ( [a-zA-Z_] [a-zA-Z0-9_]* ) \s* { *)
Definition struct_pattern : regex :=
  (Lit "typedef" ⋅ Plus space ⋅ Lit "struct" ⋅ Plus space
   ⋅ Group (Cls ident_start ⋅ Star ident_char) ⋅ Star space ⋅ Lit "{")%re.

(* #define \s+ ( [A-Z_] [A-Z0-9_]* ) \s+ *)
Definition define_pattern : regex :=
  (Lit "#define" ⋅ Plus space ⋅ Group (Cls upper_start ⋅ Star upper_char) ⋅ Plus space)%re.

(* #include \s+ [<\x22] ( [^>\x22]+ ) [>\x22] *)
Definition include_pattern : regex :=
  (Lit "#include" ⋅ Plus space ⋅ Cls open_delim ⋅ Group (Plus not_close)
   ⋅ Cls close_delim)%re.

(* The pattern of [analyze_component_interfaces]:
   #include \s+ [<\x22] ( [^>\x22]+ \.h ) [>\x22] *)
Definition header_include_pattern : regex :=
  (Lit "#include" ⋅ Plus space ⋅ Cls open_delim ⋅ Group (Plus not_close ⋅ Lit ".h")
   ⋅ Cls close_delim)%re.

Definition nl : string := String "010"%char EmptyString.
Definition dq : string := String dquote EmptyString.

(** ** Python containers *)

(* A [dict] with [str] keys: the pairs in insertion order, each key once. *)
Abbreviation dict V := (list (string * V)).

Module Dict.
Section dict.
Context {V : Type}.

(* [d.get(k)] *)
Fixpoint get (d : dict V) (k : string) : option V :=
  match d with
  | [] => None
  | (k', v) :: d' => if decide (k' = k) then Some v else get d' k
  end.

(* [d[k] = v]: a key already present keeps its place. *)
Fixpoint set (d : dict V) (k : string) (v : V) : dict V :=
  match d with
  | [] => [(k, v)]
  | (k', v') :: d' => if decide (k' = k) then (k', v) :: d' else (k', v') :: set d' k v
  end.

(* [k in d] *)
Definition mem (d : dict V) (k : string) : bool :=
  match get d k with
  | Some _ => true
  | None => false
  end.

(* The keys, as [for k in d] visits them. *)
Definition keys (d : dict V) : list string := map fst d.

End dict.
End Dict.

(* The order in which a [set] of strings is iterated: some enumeration of
   its elements, each once. Nothing else is known of it. *)
Class SetOrder := {
  set_iter : gset string → list string;
  set_iter_perm : ∀ s, set_iter s ≡ₚ elements s
}.

(* One such order, used to evaluate the functions on concrete inputs. *)
Definition elements_order : SetOrder :=
  {| set_iter := elements; set_iter_perm := λ s, reflexivity (elements s) |}.

(* [set(l)] *)
Definition py_set (l : list string) : gset string := list_to_set l.

(* [list(set(l))] *)
Definition dedup_list `{O : SetOrder} (l : list string) : list string :=
  set_iter (py_set l).

(** ** The data classes *)

Module InterfaceDefinition.
Record t := mk {
  name : string;
  file_path : string;
  functions : list string;
  structures : list string;
  constants : list string;
  version : string;
  dependencies : list string
}.
(* [InterfaceDefinition(name=n, file_path=p)] *)
Definition new (n p : string) : t := mk n p [] [] [] "1.0.0" [].
End InterfaceDefinition.

Module AgentComponent.
Record t := mk {
  name : string;
  agent_type : string;
  file_paths : list string;
  interfaces_provided : list string;
  interfaces_required : list string;
  dependencies : list string
}.
(* [AgentComponent(name=n, agent_type=a)] *)
Definition new (n a : string) : t := mk n a [] [] [] [].
End AgentComponent.

Module DependencyIssue.
Record t := mk {
  severity : string;
  component : string;
  interface : string;
  message : string;
  file_path : option string;
  line_number : option Z
}.
End DependencyIssue.

Abbreviation Interface := InterfaceDefinition.t.
Abbreviation Component := AgentComponent.t.
Abbreviation Issue := DependencyIssue.t.

(** ** The logger and the environment *)

Inductive log_level := DEBUG | INFO | WARNING | ERROR.

Record log_record := Log { level : log_level; text : string }.

(* What [git show] did: [subprocess.run] (or the temporary file after it)
   raised, or the command ended with a return code and an output. *)
Inductive show_result :=
| ShowRaises (e : string)
| ShowExit (returncode : Z) (stdout : string).

Record Env := {
  (* [open(path, 'r', encoding='utf-8').read()]: the text, or the text of
     the exception raised *)
  read_text : string → string + string;
  (* [Path.is_file], [Path.is_dir], [Path.exists] *)
  is_file : string → bool;
  is_dir : string → bool;
  path_exists : string → bool;
  (* [Path.rglob('*')], each path as [str] gives it *)
  rglob : string → list string;
  (* the output of [git diff --name-only base HEAD -- *.h], or the text of
     the exception [subprocess.run] raised *)
  git_diff : string → string + string;
  (* [git show base:file] *)
  git_show : string → string → show_result;
  (* the name of the temporary file that receives a text, or the text of
     the exception raised creating or writing it *)
  temp_file : string → string + string
}.

(* The environment after [text] was written to the file [path]. *)
Definition with_file (env : Env) (path text : string) : Env :=
  {| read_text := λ p, if decide (p = path) then inl text else read_text env p;
     is_file := is_file env; is_dir := is_dir env; path_exists := path_exists env;
     rglob := rglob env; git_diff := git_diff env; git_show := git_show env;
     temp_file := temp_file env |}.

(** ** [InterfaceParser.parse_header_file] *)

Definition not_system_include (include_file : string) : bool :=
  negb (Str.startswith include_file "std") && negb (Str.startswith include_file "sys/").

(* The body of the [try] once the file was read. *)
Definition parse_content (interface : Interface) (content : string) : Interface :=
  let functions :=
    fold_left (λ acc m, acc ++ [group 2 m]) (finditer function_pattern content)
      (InterfaceDefinition.functions interface) in
  let structures :=
    fold_left (λ acc m, acc ++ [group 1 m]) (finditer struct_pattern content)
      (InterfaceDefinition.structures interface) in
  let constants :=
    fold_left (λ acc m, acc ++ [group 1 m]) (finditer define_pattern content)
      (InterfaceDefinition.constants interface) in
  let dependencies :=
    fold_left (λ acc m, let include_file := group 1 m in
                        if not_system_include include_file then acc ++ [include_file] else acc)
      (finditer include_pattern content)
      (InterfaceDefinition.dependencies interface) in
  InterfaceDefinition.mk (InterfaceDefinition.name interface)
    (InterfaceDefinition.file_path interface)
    functions structures constants (InterfaceDefinition.version interface) dependencies.

Definition parsed_message (interface : Interface) : string :=
  "Parsed interface " +:+ InterfaceDefinition.name interface +:+ ": "
  +:+ pretty (length (InterfaceDefinition.functions interface)) +:+ " functions, "
  +:+ pretty (length (InterfaceDefinition.structures interface)) +:+ " structures, "
  +:+ pretty (length (InterfaceDefinition.constants interface)) +:+ " constants".

Definition parse_header_file (env : Env) (file_path : string)
    : Interface * list log_record :=
  let interface_name := PyPath.stem file_path in
  let interface := InterfaceDefinition.new interface_name file_path in
  match read_text env file_path with
  | inl content =>
      let interface := parse_content interface content in
      (interface, [Log DEBUG (parsed_message interface)])
  | inr e =>
      (interface, [Log ERROR ("Failed to parse " +:+ file_path +:+ ": " +:+ e)])
  end.

(** ** [ComponentAnalyzer] *)

Definition agent_components : dict (list string) :=
  [ ("kernel-architect", ["kernel/kernel.c"; "kernel/memory.c"; "kernel/process/"; "kernel/include/"]);
    ("driver-integration-specialist", ["drivers/"; "kernel/driver.c"]);
    ("hardware-compat-expert", ["drivers/pci/"; "drivers/gpu/"; "drivers/audio/"; "drivers/usb/"]);
    ("memory-manager", ["kernel/memory.c"; "kernel/pmm.c"; "kernel/paging.c"]);
    ("filesystem-engineer", ["kernel/fs/"; "kernel/include/filesystem_interface.h"]);
    ("network-architect", ["kernel/net/"; "drivers/network/"]);
    ("security-engineer", ["kernel/security/"; "kernel/module_signing.c"]);
    ("process-scheduler", ["kernel/process/"; "kernel/syscall.c"]);
    ("ui-designer", ["kernel/ui/"; "kernel/graphics.c"; "kernel/window.c"]);
    ("package-manager", ["pkg/"; "userland/app_store.c"]);
    ("testing-qa", ["tests/"]);
    ("build-system", ["Makefile"; "Makefile.multi-platform"]) ].

(* [self.critical_interfaces]; no function of the source reads it. *)
Definition critical_interfaces : gset string :=
  {[ "memory_interface.h"; "process_interface.h"; "filesystem_interface.h";
     "driver_framework.h"; "syscall.h"; "hal_interface.h" ]}.

Definition source_suffixes : list string := [".c"; ".h"; ".cpp"; ".hpp"].

(* What the interpreter leaves of its recursion limit when the Validator
   starts its search: the number of calls of [has_cycle] that may be nested
   before the next one raises [RecursionError]. The limit is 1000 unless it
   is changed, and the script never changes it; all that is taken for
   granted here is that the calls may be nested once per agent of the
   ownership table and once more. *)
Class Interpreter := {
  recursion_frames : nat;
  recursion_frames_table : length agent_components < recursion_frames
}.

(* The interpreter with room for a thousand nested calls. *)
Definition python_default : Interpreter.
Proof. refine {| recursion_frames := 1000 |}. vm_compute. lia. Defined.

(* The files one path pattern of a component resolves to. *)
Definition resolve_pattern (env : Env) (project_root path_pattern : string) : list string :=
  let full_path := PyPath.join project_root path_pattern in
  if is_file env full_path then [full_path]
  else if is_dir env full_path then
    filter (λ file_path, is_file env file_path = true
                         ∧ PyPath.suffix file_path ∈ source_suffixes)
      (rglob env full_path)
  else [].

Definition discover_components (env : Env) (project_root : string)
    : list Component * list log_record :=
  fold_left
    (λ '(components, logs) '(agent_type, paths),
       let component := AgentComponent.new (agent_type +:+ "-component") agent_type in
       let file_paths :=
         fold_left (λ acc path_pattern, acc ++ resolve_pattern env project_root path_pattern)
           paths (AgentComponent.file_paths component) in
       let component :=
         AgentComponent.mk (AgentComponent.name component) agent_type file_paths [] [] [] in
       match file_paths with
       | [] => (components, logs)
       | _ :: _ =>
           (components ++ [component],
            logs ++ [Log DEBUG ("Discovered component " +:+ AgentComponent.name component
                                +:+ " with " +:+ pretty (length file_paths) +:+ " files")])
       end)
    agent_components ([], []).

(* The names one header's text adds to [interfaces_required]. *)
Definition local_include (included_file : string) : bool :=
  negb (Str.startswith included_file "std") && Str.contains "/" included_file.

Definition scan_includes (content : string) (required : list string) : list string :=
  fold_left (λ acc m, let included_file := group 1 m in
                      if local_include included_file
                      then acc ++ [PyPath.name included_file] else acc)
    (finditer header_include_pattern content) required.

(* One turn of the loop over [component.file_paths]; the state is
   [(interfaces_provided, interfaces_required, log)]. *)
Definition analyze_file (env : Env)
    (st : list string * list string * list log_record) (file_path : string)
    : list string * list string * list log_record :=
  let '(provided, required, logs) := st in
  if negb (Str.endswith file_path ".h") then st
  else
    let interface_name := PyPath.name file_path in
    let provided := provided ++ [interface_name] in
    match read_text env file_path with
    | inl content => (provided, scan_includes content required, logs)
    | inr e =>
        (provided, required,
         logs ++ [Log WARNING ("Could not analyze " +:+ file_path +:+ ": " +:+ e)])
    end.

Definition analyze_component_interfaces `{O : SetOrder} (env : Env) (component : Component)
    : Component * list log_record :=
  let '(provided, required, logs) :=
    fold_left (analyze_file env) (AgentComponent.file_paths component)
      (AgentComponent.interfaces_provided component,
       AgentComponent.interfaces_required component, []) in
  (AgentComponent.mk (AgentComponent.name component) (AgentComponent.agent_type component)
     (AgentComponent.file_paths component)
     (dedup_list provided) (dedup_list required)
     (AgentComponent.dependencies component),
   logs).

(** ** [DependencyValidator] *)

(* The provider map after [component] was recorded for [interface]. *)
Definition add_provider (interface_providers : dict (list string))
    (interface name : string) : dict (list string) :=
  let interface_providers :=
    if Dict.mem interface_providers interface then interface_providers
    else Dict.set interface_providers interface [] in
  Dict.set interface_providers interface
    (default [] (Dict.get interface_providers interface) ++ [name]).

Definition build_interface_providers (components : list Component) : dict (list string) :=
  fold_left
    (λ interface_providers component,
       fold_left (λ acc interface, add_provider acc interface (AgentComponent.name component))
         (AgentComponent.interfaces_provided component) interface_providers)
    components [].

Definition missing_issue (component_name required_interface : string) : Issue :=
  DependencyIssue.mk "error" component_name required_interface
    ("Required interface '" +:+ required_interface +:+ "' is not provided by any component")
    None None.

Definition check_missing_interfaces (interface_providers : dict (list string))
    (components : list Component) (issues : list Issue) : list Issue :=
  fold_left
    (λ issues component,
       fold_left
         (λ issues required_interface,
            if negb (Dict.mem interface_providers required_interface)
            then issues ++ [missing_issue (AgentComponent.name component) required_interface]
            else issues)
         (AgentComponent.interfaces_required component) issues)
    components issues.

(* [dependency_graph[k].add(v)] *)
Definition graph_add (dependency_graph : dict (gset string)) (k v : string)
    : dict (gset string) :=
  Dict.set dependency_graph k ({[v]} ∪ default ∅ (Dict.get dependency_graph k)).

(* The innermost loop body: [other_component] becomes a neighbour of
   [component] when it provides [required_interface] under another name. *)
Definition add_dependency (component : Component) (required_interface : string)
    (dependency_graph : dict (gset string)) (other_component : Component)
    : dict (gset string) :=
  if bool_decide (required_interface ∈ AgentComponent.interfaces_provided other_component)
     && bool_decide (AgentComponent.name other_component ≠ AgentComponent.name component)
  then graph_add dependency_graph (AgentComponent.name component)
         (AgentComponent.name other_component)
  else dependency_graph.

(* [for other_component in components: ...] *)
Definition add_dependencies (components : list Component) (component : Component)
    (dependency_graph : dict (gset string)) (required_interface : string)
    : dict (gset string) :=
  fold_left (add_dependency component required_interface) components dependency_graph.

(* One turn of the outer loop: the entry of [component] is reset to the
   empty set, then filled. *)
Definition add_component (components : list Component)
    (dependency_graph : dict (gset string)) (component : Component)
    : dict (gset string) :=
  fold_left (add_dependencies components component)
    (AgentComponent.interfaces_required component)
    (Dict.set dependency_graph (AgentComponent.name component) ∅).

Definition build_dependency_graph (components : list Component) : dict (gset string) :=
  fold_left (add_component components) components [].

(* The two sets the search shares between its calls. *)
Record dfs_state := Dfs { visited : gset string; rec_stack : gset string }.

(* [dependency_graph.get(node, set())] *)
Definition neighbors (dependency_graph : dict (gset string)) (node : string) : gset string :=
  default ∅ (Dict.get dependency_graph node).

(* The loop [for neighbor in ...] of [has_cycle(node)], over the neighbours
   still to visit; [call] is the recursive call. When no neighbour leads to
   a cycle, [node] leaves the stack and the answer is [False]. *)
Definition visit_neighbors (call : string → dfs_state → option (bool * dfs_state))
    (node : string) : list string → dfs_state → option (bool * dfs_state) :=
  fix go (l : list string) (st : dfs_state) : option (bool * dfs_state) :=
    match l with
    | [] => Some (false, Dfs (visited st) (rec_stack st ∖ {[node]}))
    | neighbor :: l' =>
        match call neighbor st with
        | None => None
        | Some (true, st') => Some (true, st')
        | Some (false, st') => go l' st'
        end
    end.

(* [has_cycle(node)]. [fuel] is the number of calls that may still be
   nested: a call made when none is left raises [RecursionError], which
   nothing catches, and [None] stands for that exception. Every call that
   goes past the two tests marks a node not yet visited, so the depth of
   the recursion is at most the number of nodes and one more. *)
Fixpoint has_cycle `{O : SetOrder} (fuel : nat) (dependency_graph : dict (gset string))
    (node : string) (st : dfs_state) : option (bool * dfs_state) :=
  match fuel with
  | O => None
  | S fuel' =>
      if decide (node ∈ rec_stack st) then Some (true, st)
      else if decide (node ∈ visited st) then Some (false, st)
      else
        visit_neighbors (has_cycle fuel' dependency_graph) node
          (set_iter (neighbors dependency_graph node))
          (Dfs ({[node]} ∪ visited st) ({[node]} ∪ rec_stack st))
  end.

Definition cycle_issue (component_name : string) : Issue :=
  DependencyIssue.mk "error" component_name ""
    ("Circular dependency detected involving component '" +:+ component_name +:+ "'")
    None None.

(* The loop over the keys of the graph; [None] when a search raised. *)
Fixpoint check_roots `{O : SetOrder} (fuel : nat) (dependency_graph : dict (gset string))
    (roots : list string) (st : dfs_state) (issues : list Issue) : option (list Issue) :=
  match roots with
  | [] => Some issues
  | component_name :: roots' =>
      if decide (component_name ∈ visited st)
      then check_roots fuel dependency_graph roots' st issues
      else
        match has_cycle fuel dependency_graph component_name st with
        | None => None
        | Some (true, st') =>
            check_roots fuel dependency_graph roots' st'
              (issues ++ [cycle_issue component_name])
        | Some (false, st') => check_roots fuel dependency_graph roots' st' issues
        end
  end.

(* Every node of the graph: its keys and their neighbours. *)
Definition graph_nodes (dependency_graph : dict (gset string)) : gset string :=
  list_to_set (Dict.keys dependency_graph) ∪ ⋃ (map snd dependency_graph).

(* [None]: the search raised [RecursionError]. *)
Definition check_circular_dependencies `{O : SetOrder} `{I : Interpreter}
    (components : list Component) (issues : list Issue) : option (list Issue) :=
  let dependency_graph := build_dependency_graph components in
  check_roots recursion_frames dependency_graph
    (Dict.keys dependency_graph) (Dfs ∅ ∅) issues.

Definition critical_markers : list string :=
  ["memory_interface"; "process_interface"; "filesystem_interface"].

Definition ownership_severity (interface : string) : string :=
  if existsb (λ critical, Str.contains critical interface) critical_markers
  then "error" else "warning".

Definition ownership_issue (interface : string) (providers : list string) : Issue :=
  DependencyIssue.mk (ownership_severity interface) (Str.join ", " providers) interface
    ("Interface '" +:+ interface +:+ "' is provided by multiple components: "
     +:+ Str.join ", " providers)
    None None.

Definition check_interface_ownership (interface_providers : dict (list string))
    (issues : list Issue) : list Issue :=
  fold_left
    (λ issues '(interface, providers),
       if decide (1 < length providers)
       then issues ++ [ownership_issue interface providers]
       else issues)
    interface_providers issues.

Definition validate_interface_compatibility `{O : SetOrder} `{I : Interpreter}
    (components : list Component) : option (list Issue) :=
  let issues := [] in
  let interface_providers := build_interface_providers components in
  let issues := check_missing_interfaces interface_providers components issues in
  match check_circular_dependencies components issues with
  | None => None
  | Some issues => Some (check_interface_ownership interface_providers issues)
  end.

(** ** [CompatibilityChecker] *)

Definition removed_function (func : string) : string :=
  "Function '" +:+ func +:+ "' was removed - this is a breaking change".
Definition removed_structure (struct : string) : string :=
  "Structure '" +:+ struct +:+ "' was removed - this is a breaking change".
Definition removed_constant (const : string) : string :=
  "Constant '" +:+ const +:+ "' was removed - this is a breaking change".

Definition compare_interfaces `{O : SetOrder} (previous current : Interface) : list string :=
  let breaking_changes := [] in
  let removed_functions :=
    py_set (InterfaceDefinition.functions previous)
    ∖ py_set (InterfaceDefinition.functions current) in
  let breaking_changes :=
    fold_left (λ acc func, acc ++ [removed_function func])
      (set_iter removed_functions) breaking_changes in
  let removed_structures :=
    py_set (InterfaceDefinition.structures previous)
    ∖ py_set (InterfaceDefinition.structures current) in
  let breaking_changes :=
    fold_left (λ acc struct, acc ++ [removed_structure struct])
      (set_iter removed_structures) breaking_changes in
  let removed_constants :=
    py_set (InterfaceDefinition.constants previous)
    ∖ py_set (InterfaceDefinition.constants current) in
  fold_left (λ acc const, acc ++ [removed_constant const])
    (set_iter removed_constants) breaking_changes.

Definition change_issue (file_path interface_name change : string) : Issue :=
  DependencyIssue.mk "error" (PyPath.parent_name file_path) interface_name change
    (Some file_path) None.

(* [stdout.strip().split('\n') if stdout.strip() else []] *)
Definition changed_files (stdout : string) : list string :=
  if decide (Str.strip stdout = EmptyString) then []
  else Str.split "010" (Str.strip stdout).

(* One turn of the loop over the changed files; the state is
   [(issues, log)]. *)
Definition check_changed_file `{O : SetOrder} (env : Env) (project_root base_commit : string)
    (st : list Issue * list log_record) (file_path : string)
    : list Issue * list log_record :=
  let '(issues, logs) := st in
  if bool_decide (file_path = EmptyString) || negb (Str.endswith file_path ".h") then st
  else
    let full_path := PyPath.join project_root file_path in
    if negb (path_exists env full_path) then st
    else
      let '(current_interface, logs1) := parse_header_file env full_path in
      let logs := logs ++ logs1 in
      let could_not e :=
        (issues,
         logs ++ [Log WARNING ("Could not get previous version of " +:+ file_path
                               +:+ ": " +:+ e)]) in
      match git_show env base_commit file_path with
      | ShowRaises e => could_not e
      | ShowExit returncode stdout =>
          if decide (returncode = 0%Z) then
            match temp_file env stdout with
            | inr e => could_not e
            | inl temp_path =>
                let '(previous_interface, logs2) :=
                  parse_header_file (with_file env temp_path stdout) temp_path in
                let breaking_changes :=
                  compare_interfaces previous_interface current_interface in
                (fold_left
                   (λ issues change,
                      issues ++ [change_issue file_path
                                   (InterfaceDefinition.name current_interface) change])
                   breaking_changes issues,
                 logs ++ logs2)
            end
          else (issues, logs)
      end.

Definition check_interface_changes `{O : SetOrder} (env : Env) (project_root base_commit : string)
    : list Issue * list log_record :=
  match git_diff env base_commit with
  | inl stdout =>
      fold_left (check_changed_file env project_root base_commit)
        (changed_files stdout) ([], [])
  | inr e => ([], [Log ERROR ("Failed to check interface changes: " +:+ e)])
  end.

(** ** [main] and what the reporter reads off the issue list *)

(* [[i for i in issues if i.severity == severity]] *)
Definition issues_of_severity (severity : string) (issues : list Issue) : list Issue :=
  filter (λ i, DependencyIssue.severity i = severity) issues.

(* [len([i for i in issues if i.severity == severity])] *)
Definition count_severity (severity : string) (issues : list Issue) : nat :=
  length (issues_of_severity severity issues).

(* The issues in the order the console report prints them. *)
Definition console_order (issues : list Issue) : list Issue :=
  flat_map (λ severity, issues_of_severity severity issues) ["error"; "warning"; "info"].

(* The list [main] hands to the reporter, or [None] when the Validator
   raised. [check_changes] is the value of the option [--check-changes]:
   [None] when it is not given. *)
Definition main_issues `{O : SetOrder} `{I : Interpreter} (env : Env) (project_root : string)
    (check_changes : option string) : option (list Issue) :=
  let '(components, _) := discover_components env project_root in
  let components := map (λ component, fst (analyze_component_interfaces env component))
                      components in
  match validate_interface_compatibility components with
  | None => None
  | Some issues =>
      match check_changes with
      | Some base_commit =>
          if decide (base_commit = EmptyString) then Some issues
          else Some (issues ++ fst (check_interface_changes env project_root base_commit))
      | None => Some issues
      end
  end.

(* [1 if error_count > 0 else 0]: the argument of [sys.exit] at the last
   line of [main], computed from the issue list. It is the exit status of a
   run that reaches that line; [argparse] ends a run with the status 2
   before any check, and an exception that nothing catches ends it with
   the status 1. *)
Definition exit_status (issues : list Issue) : Z :=
  if decide (0 < count_severity "error" issues) then 1%Z else 0%Z.

(** ** The vocabulary of the statements *)

(* [sub] occurs in [s]. *)
Definition substring (sub s : string) : Prop := ∃ pre suf, s = pre +:+ sub +:+ suf.

(* The edges of the graph [check_circular_dependencies] builds. *)
Definition edge (dependency_graph : dict (gset string)) (a b : string) : Prop :=
  b ∈ neighbors dependency_graph a.

(* Component [a] requires an interface that another component [b] provides. *)
Definition depends_on (components : list Component) (a b : string) : Prop :=
  a ≠ b ∧ ∃ ca cb i,
    ca ∈ components ∧ cb ∈ components
    ∧ AgentComponent.name ca = a ∧ AgentComponent.name cb = b
    ∧ i ∈ AgentComponent.interfaces_required ca
    ∧ i ∈ AgentComponent.interfaces_provided cb.

(* [x] lies on a directed cycle; a directed cycle can be reached from [x]. *)
Definition on_cycle {A : Type} (R : relation A) (x : A) : Prop := tc R x x.
Definition reaches_cycle {A : Type} (R : relation A) (x : A) : Prop :=
  ∃ y, rtc R x y ∧ on_cycle R y.

(* Every node on the stack leads to [node], unless a cycle can already be
   reached from it. *)
Definition stack_leads_to (dependency_graph : dict (gset string)) (st : dfs_state)
    (node : string) : Prop :=
  ∀ x, x ∈ rec_stack st →
       tc (edge dependency_graph) x node ∨ reaches_cycle (edge dependency_graph) x.

(* The severities the checks give their issues. *)
Definition error_or_warning (i : Issue) : Prop :=
  DependencyIssue.severity i = "error" ∨ DependencyIssue.severity i = "warning".

(* Every edge of the graph is a dependency between two components, and
   every key is the name of a component. *)
Definition graph_sound (components : list Component) (g : dict (gset string)) : Prop :=
  (∀ a b, edge g a b → depends_on components a b)
  ∧ (∀ k, k ∈ Dict.keys g → ∃ c, c ∈ components ∧ AgentComponent.name c = k).

(* What the loops over the required interfaces and the components add to
   the entry of [c]. *)
Definition provides_for (c : Component) (reqs : list string) (others : list Component)
    (y : string) : Prop :=
  ∃ i o, i ∈ reqs ∧ o ∈ others
         ∧ i ∈ AgentComponent.interfaces_provided o
         ∧ AgentComponent.name o ≠ AgentComponent.name c
         ∧ AgentComponent.name o = y.

(* The graph of three components that depend on one another in a ring. *)
Definition three_cycle (A B C : Component) : Prop :=
  ∀ x y, depends_on [A; B; C] x y
         ↔ (x = AgentComponent.name A ∧ y = AgentComponent.name B)
           ∨ (x = AgentComponent.name B ∧ y = AgentComponent.name C)
           ∨ (x = AgentComponent.name C ∧ y = AgentComponent.name A).

(* Four components: A, B and C form a ring, and D requires the interface of
   A and provides one that nobody requires. *)
Definition ring_A : Component := AgentComponent.mk "A" "t" [] ["a.h"] ["b.h"] [].
Definition ring_B : Component := AgentComponent.mk "B" "t" [] ["b.h"] ["c.h"] [].
Definition ring_C : Component := AgentComponent.mk "C" "t" [] ["c.h"] ["a.h"] [].
Definition outside_D : Component := AgentComponent.mk "D" "t" [] ["d.h"] ["a.h"] [].

(* The first character of a text. *)
Definition first_char (s : string) : option ascii :=
  match s with
  | String c _ => Some c
  | EmptyString => None
  end.

(* A provider map with one shared critical interface and one interface
   with a single provider. *)
Definition shared_providers : dict (list string) :=
  [("memory_interface.h", ["kernel-architect-component"; "memory-manager-component"]);
   ("vfs.h", ["filesystem-engineer-component"])].

(* Two revisions of a descriptor: the second keeps every name of the first
   and adds a function. *)
Definition revision_one : Interface :=
  InterfaceDefinition.mk "vfs" "vfs.h" ["vfs_open"] ["vfs_node"] ["VFS_MAX"] "1.0.0" [].
Definition revision_two : Interface :=
  InterfaceDefinition.mk "vfs" "vfs.h" ["vfs_open"; "vfs_close"] ["vfs_node"] ["VFS_MAX"]
    "1.0.0" [].

#[global] Instance log_level_eq_dec : EqDecision log_level.
Proof. solve_decision. Defined.

(* The include targets the extractor keeps: those that start neither with
   std nor with sys/. *)
Definition kept_includes (content : string) : list string :=
  map (group 1)
    (filter (λ m, not_system_include (group 1 m) = true) (finditer include_pattern content)).

(* A file tree with one header that defines the same constant twice and
   includes the same header twice, and nothing else. *)
Definition twice_text : string :=
  "#define LIMIT 1" +:+ nl +:+ "#define LIMIT 2" +:+ nl
  +:+ "#include " +:+ dq +:+ "types.h" +:+ dq +:+ nl
  +:+ "#include " +:+ dq +:+ "types.h" +:+ dq +:+ nl.

Definition twice_env : Env :=
  {| read_text := λ p, if decide (p = "kernel/include/limits.h") then inl twice_text
                       else inr "[Errno 2] No such file or directory";
     is_file := λ _, false; is_dir := λ _, false; path_exists := λ _, false;
     rglob := λ _, [];
     git_diff := λ _, inr "git"; git_show := λ _ _, ShowRaises "git";
     temp_file := λ _, inr "tmp" |}.

(* The include targets of the headers scanned for requirements. *)
Definition header_includes (content : string) : list string :=
  map (group 1) (finditer header_include_pattern content).

(* The names one owned file adds to the required interfaces. *)
Definition file_requirements (env : Env) (file_path : string) : list string :=
  if Str.endswith file_path ".h" then
    match read_text env file_path with
    | inl content => scan_includes content []
    | inr _ => []
    end
  else [].

(* The names one owned file adds to the provided interfaces. *)
Definition file_provisions (file_path : string) : list string :=
  if Str.endswith file_path ".h" then [PyPath.name file_path] else [].

(* A component that owns one header, which includes itself through a
   directory. *)
Definition self_env : Env :=
  {| read_text := λ p, if decide (p = "kernel/include/types.h")
                       then inl ("#include " +:+ dq +:+ "include/types.h" +:+ dq +:+ nl)
                       else inr "[Errno 2] No such file or directory";
     is_file := λ _, false; is_dir := λ _, false; path_exists := λ _, false;
     rglob := λ _, [];
     git_diff := λ _, inr "git"; git_show := λ _ _, ShowRaises "git";
     temp_file := λ _, inr "tmp" |}.

Definition self_component : Component :=
  AgentComponent.mk "kernel-architect-component" "kernel-architect"
    ["kernel/include/types.h"] [] [] [].

(* A header whose only include names a bare local header. *)
Definition bare_include_text : string :=
  "#include " +:+ dq +:+ "memory_interface.h" +:+ dq +:+ nl.

(* The issues of the Differ for the option [--check-changes]. *)
Definition change_issues `{O : SetOrder} (env : Env) (project_root : string)
    (check_changes : option string) : list Issue :=
  match check_changes with
  | Some base_commit =>
      if decide (base_commit = EmptyString) then []
      else (check_interface_changes env project_root base_commit).1
  | None => []
  end.

(* The components [main] validates. *)
Definition analyzed_components `{O : SetOrder} (env : Env) (project_root : string)
    : list Component :=
  map (λ component, (analyze_component_interfaces env component).1)
    (discover_components env project_root).1.

(* A project with one header, kernel/process/sched.h, owned by two
   components through the directory kernel/process; the previous revision
   of the header declared one more function. *)
Definition sched_env : Env :=
  {| read_text := λ p, if decide (p = "kernel/process/sched.h")
                       then inl ("int sched_yield(void);" +:+ nl)
                       else inr "[Errno 2] No such file or directory";
     is_file := λ p, bool_decide (p = "kernel/process/sched.h");
     is_dir := λ p, bool_decide (p = "kernel/process");
     path_exists := λ p, bool_decide (p = "kernel/process/sched.h");
     rglob := λ p, if decide (p = "kernel/process") then ["kernel/process/sched.h"] else [];
     git_diff := λ _, inl ("kernel/process/sched.h" +:+ nl);
     git_show := λ _ _, ShowExit 0 ("int sched_yield(void);" +:+ nl
                                    +:+ "int sched_old(void);" +:+ nl);
     temp_file := λ _, inl "/tmp/tmpk3x9_q2a.h" |}.

(* No cycle can be reached from a node that the search has left: one that
   is visited and no longer on the stack. *)
Definition finished_clean (dependency_graph : dict (gset string)) (st : dfs_state) : Prop :=
  ∀ x, x ∈ visited st → x ∉ rec_stack st → ¬ reaches_cycle (edge dependency_graph) x.

(* The files the path patterns of one agent resolve to. *)
Definition owned_files (env : Env) (project_root : string) (paths : list string)
    : list string :=
  flat_map (resolve_pattern env project_root) paths.

(* The component of one entry of the ownership table, when it owns a
   file. *)
Definition discovered (env : Env) (project_root : string)
    (entry : string * list string) : list Component :=
  match owned_files env project_root entry.2 with
  | [] => []
  | _ :: _ =>
      [AgentComponent.mk (entry.1 +:+ "-component") entry.1
         (owned_files env project_root entry.2) [] [] []]
  end.

(* The breaking changes of one changed file, when both revisions can be
   compared: the file is a header that exists, [git show] succeeds and its
   output reaches a temporary file. *)
Definition file_changes `{O : SetOrder} (env : Env) (project_root base_commit : string)
    (file_path : string) : list string :=
  if bool_decide (file_path = EmptyString) || negb (Str.endswith file_path ".h") then []
  else if negb (path_exists env (PyPath.join project_root file_path)) then []
  else
    match git_show env base_commit file_path with
    | ShowRaises _ => []
    | ShowExit returncode stdout =>
        if decide (returncode = 0%Z) then
          match temp_file env stdout with
          | inr _ => []
          | inl temp_path =>
              compare_interfaces
                (parse_header_file (with_file env temp_path stdout) temp_path).1
                (parse_header_file env (PyPath.join project_root file_path)).1
          end
        else []
    end.

(* A project whose changed header exists but cannot be read; its previous
   revision declared one function. *)
Definition locked_env : Env :=
  {| read_text := λ _, inr "[Errno 13] Permission denied";
     is_file := λ p, bool_decide (p = "kernel/fs/vfs.h");
     is_dir := λ _, false;
     path_exists := λ p, bool_decide (p = "kernel/fs/vfs.h");
     rglob := λ _, [];
     git_diff := λ _, inl ("kernel/fs/vfs.h" +:+ nl);
     git_show := λ _ f, if decide (f = "kernel/fs/vfs.h")
                        then ShowExit 0 ("int vfs_open(void);" +:+ nl)
                        else ShowExit 128 "fatal: path does not exist";
     temp_file := λ _, inl "/tmp/tmp5h2k9d_x.h" |}.

(* The names of the components that list [interface] as provided, in the
   order of the component list, once per listing. *)
Definition providers_of (components : list Component) (interface : string) : list string :=
  flat_map
    (λ c, map (λ _, AgentComponent.name c)
            (filter (λ i, i = interface) (AgentComponent.interfaces_provided c)))
    components.

(* An entry of the provider map after more providers were appended. *)
Definition extended (entry : option (list string)) (providers : list string)
    : option (list string) :=
  match providers with
  | [] => entry
  | _ => Some (default [] entry ++ providers)
  end.

(* Every character of [s] is in the class [p]. *)
Fixpoint all_chars (p : ascii → bool) (s : string) : bool :=
  match s with
  | EmptyString => true
  | String c s' => p c && all_chars p s'
  end.

(* The words of a pattern: [matches r w caps caps'] when [r] matches
   exactly the text [w] and the groups recorded grow from [caps] to
   [caps']. *)
Inductive matches : regex → string → list string → list string → Prop :=
| matches_lit l caps : matches (Lit l) l caps caps
| matches_cls p c caps : p c = true → matches (Cls p) (String c EmptyString) caps caps
| matches_star p w caps : all_chars p w = true → matches (Star p) w caps caps
| matches_plus p c w caps :
    p c = true → all_chars p w = true → matches (Plus p) (String c w) caps caps
| matches_seq r1 r2 w1 w2 caps caps1 caps2 :
    matches r1 w1 caps caps1 → matches r2 w2 caps1 caps2 →
    matches (Seq r1 r2) (w1 +:+ w2) caps caps2
| matches_group r w caps caps' :
    matches r w caps caps' → matches (Group r) w caps (caps' ++ [w]).

(* A C identifier: a letter or an underscore, then letters, digits and
   underscores. *)
Definition is_identifier (s : string) : bool :=
  match s with
  | String c w => ident_start c && all_chars ident_char w
  | EmptyString => false
  end.

(* An identifier without lower-case letters. *)
Definition is_macro_name (s : string) : bool :=
  match s with
  | String c w => upper_start c && all_chars upper_char w
  | EmptyString => false
  end.

(* A non-empty text without a closing angle bracket or double quote. *)
Definition is_include_target (s : string) : bool :=
  match s with
  | String _ _ => all_chars not_close s
  | EmptyString => false
  end.

(* A project whose only file is the header
   kernel/process/process_interface.h. *)
Definition process_env : Env :=
  {| read_text := λ p, if decide (p = "kernel/process/process_interface.h")
                       then inl ("int process_spawn(void);" +:+ nl)
                       else inr "[Errno 2] No such file or directory";
     is_file := λ p, bool_decide (p = "kernel/process/process_interface.h");
     is_dir := λ p, bool_decide (p = "kernel/process");
     path_exists := λ p, bool_decide (p = "kernel/process/process_interface.h");
     rglob := λ p, if decide (p = "kernel/process")
                   then ["kernel/process/process_interface.h"] else [];
     git_diff := λ _, inl EmptyString;
     git_show := λ _ _, ShowExit 128 "fatal: bad revision";
     temp_file := λ _, inr "[Errno 28] No space left on device" |}.

(* The log records one owned file adds during the analysis. *)
Definition file_warnings (env : Env) (file_path : string) : list log_record :=
  if Str.endswith file_path ".h" then
    match read_text env file_path with
    | inl _ => []
    | inr e => [Log WARNING ("Could not analyze " +:+ file_path +:+ ": " +:+ e)]
    end
  else [].


(* A project whose only file is the header kernel/process/sched.h, which
   includes itself through its directory. Two agents own the directory. *)
Definition loop_env : Env :=
  {| read_text := λ p, if decide (p = "kernel/process/sched.h")
                       then inl ("#include " +:+ dq +:+ "process/sched.h" +:+ dq +:+ nl)
                       else inr "[Errno 2] No such file or directory";
     is_file := λ p, bool_decide (p = "kernel/process/sched.h");
     is_dir := λ p, bool_decide (p = "kernel/process");
     path_exists := λ p, bool_decide (p = "kernel/process/sched.h");
     rglob := λ p, if decide (p = "kernel/process") then ["kernel/process/sched.h"] else [];
     git_diff := λ _, inl EmptyString;
     git_show := λ _ _, ShowExit 128 "fatal: bad revision";
     temp_file := λ _, inr "[Errno 28] No space left on device" |}.

#[local] Set Warnings "-clear-no-such-hyp".

(** * Properties *)

(** ** Lists, sets and dictionaries *)

Lemma fold_left_snoc {A B : Type} (f : A → B) (l : list A) (init : list B) :
  fold_left (λ acc x, acc ++ [f x]) l init = init ++ map f l.
Proof.
  revert init. induction l as [|x l IH]; intros init; simpl.
  - by rw app_nil_r.
  - by rw IH -app_assoc.
Qed.

Lemma fold_left_snoc_if {A B : Type} (p : A → bool) (f : A → B) (l : list A)
    (init : list B) :
  fold_left (λ acc x, if p x then acc ++ [f x] else acc) l init
  = init ++ map f (filter (λ x, p x = true) l).
Proof.
  revert init. induction l as [|x l IH]; intros init; simpl.
  - by rw app_nil_r.
  - rw IH. destruct (p x) eqn:Hp.
    + rw filter_cons_True // -app_assoc //.
    + rw filter_cons_False //. congruence.
Qed.

Section set_order.
Context `{O : SetOrder}.

Lemma elem_of_set_iter (s : gset string) (x : string) : x ∈ set_iter s ↔ x ∈ s.
Proof. by rw set_iter_perm elem_of_elements. Qed.

Lemma NoDup_set_iter (s : gset string) : NoDup (set_iter s).
Proof. rw set_iter_perm. apply NoDup_elements. Qed.

Lemma set_iter_empty : set_iter ∅ = [].
Proof. apply Permutation_nil_r. by rw set_iter_perm elements_empty. Qed.

Lemma set_iter_singleton (x : string) : set_iter {[x]} = [x].
Proof. apply Permutation_singleton_r. by rw set_iter_perm elements_singleton. Qed.

Lemma elem_of_dedup_list (l : list string) (x : string) : x ∈ dedup_list l ↔ x ∈ l.
Proof. by rw /dedup_list elem_of_set_iter /py_set elem_of_list_to_set. Qed.

Lemma NoDup_dedup_list (l : list string) : NoDup (dedup_list l).
Proof. apply NoDup_set_iter. Qed.

End set_order.

Section dict_facts.
Context {V : Type}.
Implicit Types (d : dict V) (k : string) (v : V).

Lemma dict_get_set_eq d k v : Dict.get (Dict.set d k v) k = Some v.
Proof.
  induction d as [|[k' v'] d IH]; simpl.
  - by rw decide_True.
  - destruct (decide (k' = k)) as [->|Hne]; simpl.
    + by rw decide_True.
    + by rw decide_False.
Qed.

Lemma dict_get_set_ne d k k' v : k ≠ k' → Dict.get (Dict.set d k v) k' = Dict.get d k'.
Proof.
  intros Hne. induction d as [|[k0 v0] d IH]; simpl.
  - by rw decide_False.
  - destruct (decide (k0 = k)) as [->|Hne0]; simpl.
    + by rw !decide_False.
    + by rw IH.
Qed.

Lemma dict_keys_set d k v :
  Dict.keys (Dict.set d k v)
  = if Dict.mem d k then Dict.keys d else Dict.keys d ++ [k].
Proof.
  rw /Dict.mem /Dict.keys. induction d as [|[k0 v0] d IH]; simpl; first done.
  destruct (decide (k0 = k)) as [->|Hne]; simpl; first done.
  rw IH. by destruct (Dict.get d k).
Qed.

Lemma dict_mem_keys d k : Dict.mem d k = true ↔ k ∈ Dict.keys d.
Proof.
  rw /Dict.mem /Dict.keys. induction d as [|[k0 v0] d IH]; simpl.
  - split; [done | by intros ?%elem_of_nil].
  - rw elem_of_cons. destruct (decide (k0 = k)) as [->|Hne]; first naive_solver.
    rw IH. naive_solver.
Qed.

Lemma dict_get_elem_of d k v : Dict.get d k = Some v → (k, v) ∈ d.
Proof.
  induction d as [|[k0 v0] d IH]; simpl; first done.
  destruct (decide (k0 = k)) as [->|Hne].
  - intros [= ->]. left.
  - intros ?. right. auto.
Qed.

Lemma dict_elem_of_get d k v : NoDup (Dict.keys d) → (k, v) ∈ d → Dict.get d k = Some v.
Proof.
  rw /Dict.keys. induction d as [|[k0 v0] d IH]; simpl.
  - by intros _ ?%elem_of_nil.
  - intros [Hnot Hnd]%NoDup_cons [[= <- <-]|Hin]%elem_of_cons.
    + by rw decide_True.
    + rw decide_False; first by auto.
      intros ->. apply Hnot. apply list_elem_of_fmap. by exists (k, v).
Qed.

Lemma dict_keys_set_NoDup d k v : NoDup (Dict.keys d) → NoDup (Dict.keys (Dict.set d k v)).
Proof.
  intros Hnd. rw dict_keys_set. destruct (Dict.mem d k) eqn:Hm; first done.
  apply NoDup_app. split_and!; [done| |apply NoDup_singleton].
  intros x Hx ->%list_elem_of_singleton. apply dict_mem_keys in Hx. congruence.
Qed.

End dict_facts.

(** ** The depth-first search *)

Section dfs.
Context `{O : SetOrder} (g : dict (gset string)).
Implicit Types (node : string) (st : dfs_state) (l : list string).

Lemma neighbors_nodes node : neighbors g node ⊆ graph_nodes g.
Proof.
  rw /neighbors /graph_nodes. destruct (Dict.get g node) as [s|] eqn:Hget; simpl.
  - apply dict_get_elem_of in Hget. intros x Hx. apply elem_of_union. right.
    apply elem_of_union_list. exists s. split; last done.
    apply list_elem_of_fmap. by exists (node, s).
  - set_solver.
Qed.

Lemma keys_nodes node : node ∈ Dict.keys g → node ∈ graph_nodes g.
Proof. rw /graph_nodes. set_solver. Qed.

(* A call with more fuel than there are nodes left to visit returns, and
   the visited set only grows. *)
Lemma has_cycle_total fuel node st :
  node ∈ graph_nodes g →
  size (graph_nodes g ∖ visited st) < fuel →
  ∃ b st', has_cycle fuel g node st = Some (b, st') ∧ visited st ⊆ visited st'.
Proof.
  revert node st. induction fuel as [|fuel IH]; intros node st Hnode Hfuel; first lia.
  simpl. destruct (decide (node ∈ rec_stack st)) as [|Hnin]; first by eauto.
  destruct (decide (node ∈ visited st)) as [|Hfresh]; first by eauto.
  set (st1 := Dfs _ _).
  assert (visited st ⊆ visited st1) as Hsub by (simpl; set_solver).
  assert (size (graph_nodes g ∖ visited st1) < fuel) as Hfuel1.
  { assert (graph_nodes g ∖ visited st1 ⊂ graph_nodes g ∖ visited st) as Hlt
      by (simpl; set_solver).
    apply subset_size in Hlt. lia. }
  assert (Forall (λ n, n ∈ graph_nodes g) (set_iter (neighbors g node))) as Hl.
  { apply Forall_forall. intros n Hn%elem_of_set_iter. exact (neighbors_nodes node n Hn). }
  revert Hl Hsub Hfuel1. generalize st1 (set_iter (neighbors g node)). clear st1.
  intros st1 l. revert st1. induction l as [|n l IHl]; intros st1 Hl Hsub Hfuel1.
  - simpl. eexists _, _. split; first done. simpl. done.
  - simpl. apply Forall_cons in Hl as [Hn Hl].
    destruct (IH n st1 Hn Hfuel1) as (b & st2 & -> & Hsub2).
    destruct b.
    + eexists _, _. split; first done. set_solver.
    + apply IHl; [done|set_solver|].
      assert (graph_nodes g ∖ visited st2 ⊆ graph_nodes g ∖ visited st1) as Hle
        by set_solver.
      apply subseteq_size in Hle. lia.
Qed.

(* What a call leaves behind, whatever its answer. *)
Lemma has_cycle_state fuel node st b st' :
  has_cycle fuel g node st = Some (b, st') →
  rec_stack st ⊆ visited st →
  visited st ⊆ visited st' ∧ node ∈ visited st' ∧ rec_stack st' ⊆ visited st'
  ∧ (b = false → rec_stack st' = rec_stack st).
Proof.
  revert node st b st'. induction fuel as [|fuel IH]; intros node st b st'; first done.
  simpl. destruct (decide (node ∈ rec_stack st)) as [Hin|Hnin].
  { intros [= <- <-] Hinv. split_and!; [done|set_solver|done|done]. }
  destruct (decide (node ∈ visited st)) as [Hv|Hfresh].
  { intros [= <- <-] Hinv. split_and!; done. }
  set (st1 := Dfs _ _). intros Hrun Hinv.
  assert (visited st ⊆ visited st1 ∧ node ∈ visited st1
          ∧ rec_stack st1 ⊆ visited st1
          ∧ rec_stack st1 = {[node]} ∪ rec_stack st) as Hst1
    by (simpl; set_solver).
  revert Hrun Hst1. generalize st1 (set_iter (neighbors g node)). clear st1.
  intros st1 l. revert st1. induction l as [|n l IHl]; intros st1 Hrun (H1 & H2 & H3 & H4).
  - simpl in Hrun. injection Hrun as <- <-. simpl.
    split_and!; [done|done|set_solver|]. intros _. rw H4. set_solver.
  - simpl in Hrun. destruct (has_cycle fuel g n st1) as [[b2 st2]|] eqn:Hcall; last done.
    destruct (IH _ _ _ _ Hcall H3) as (I1 & I2 & I3 & I4).
    destruct b2.
    + injection Hrun as <- <-. split_and!; [set_solver|set_solver|done|done].
    + apply (IHl st2 Hrun). split_and!; [set_solver|set_solver|done|].
      rw I4 //.
Qed.

End dfs.

Section reach.
Context {A : Type} (R : relation A).

Lemma on_cycle_reaches x : on_cycle R x → reaches_cycle R x.
Proof. intros Hx. by exists x. Qed.

Lemma reaches_cycle_step x y : R x y → reaches_cycle R y → reaches_cycle R x.
Proof. intros Hxy (z & Hyz & Hz). exists z. split; [by eapply rtc_l|done]. Qed.

Lemma reaches_cycle_tc x y : tc R x y → reaches_cycle R y → reaches_cycle R x.
Proof.
  intros Hxy (z & Hyz & Hz). exists z. split; last done.
  eapply rtc_trans; [by apply tc_rtc|done].
Qed.

Lemma reaches_cycle_mono (R' : relation A) x :
  (∀ a b, R a b → R' a b) → reaches_cycle R x → reaches_cycle R' x.
Proof.
  intros Hsub (y & Hxy & Hy). exists y. split.
  - by apply (rtc_congruence (R:=R) id R').
  - by apply (tc_congruence (R:=R) id R').
Qed.

End reach.

Section dfs_sound.
Context `{O : SetOrder} (g : dict (gset string)).
Implicit Types (node : string) (st : dfs_state) (l : list string).

Lemma has_cycle_sound fuel node st b st' :
  has_cycle fuel g node st = Some (b, st') →
  stack_leads_to g st node →
  (b = true →
     reaches_cycle (edge g) node ∧ ∀ x, x ∈ rec_stack st' → reaches_cycle (edge g) x)
  ∧ (b = false → rec_stack st' ⊆ rec_stack st).
Proof.
  revert node st b st'. induction fuel as [|fuel IH]; intros node st b st'; first done.
  simpl. destruct (decide (node ∈ rec_stack st)) as [Hin|Hnin].
  { intros [= <- <-] Hpre. split; last done. intros _.
    assert (reaches_cycle (edge g) node) as Hnode.
    { destruct (Hpre node Hin) as [Hcyc|?]; [by apply on_cycle_reaches|done]. }
    split; first done. intros x Hx.
    destruct (Hpre x Hx) as [Hreach|?]; [by eapply reaches_cycle_tc|done]. }
  destruct (decide (node ∈ visited st)) as [Hv|Hfresh].
  { intros [= <- <-] _. done. }
  set (st1 := Dfs _ _). intros Hrun Hpre.
  assert (∀ x, x ∈ rec_stack st1 →
            x = node ∨ tc (edge g) x node ∨ reaches_cycle (edge g) x) as Hloop.
  { simpl. intros x [->%elem_of_singleton|Hx]%elem_of_union; first by left.
    right. by apply Hpre. }
  assert (rec_stack st1 ∖ {[node]} ⊆ rec_stack st) as Hout by (simpl; set_solver).
  assert (Forall (edge g node) (set_iter (neighbors g node))) as Hl.
  { apply Forall_forall. by intros n Hn%elem_of_set_iter. }
  revert Hrun Hloop Hout Hl. generalize st1 (set_iter (neighbors g node)). clear st1.
  intros st1 l. revert st1. induction l as [|n l IHl]; intros st1 Hrun Hloop Hout Hl.
  - simpl in Hrun. injection Hrun as <- <-. simpl. split; [done|by intros _].
  - simpl in Hrun. apply Forall_cons in Hl as [Hedge Hl].
    destruct (has_cycle fuel g n st1) as [[b2 st2]|] eqn:Hcall; last done.
    assert (stack_leads_to g st1 n) as Hpre1.
    { intros x Hx. destruct (Hloop x Hx) as [->|[Hreach|?]].
      - left. by apply tc_once.
      - left. by eapply tc_r.
      - by right. }
    destruct (IH _ _ _ _ Hcall Hpre1) as [Htrue Hfalse].
    destruct b2.
    + injection Hrun as <- <-. destruct Htrue as [Hn Hall]; first done.
      split; last done. intros _. split; last done.
      by eapply reaches_cycle_step.
    + specialize (Hfalse eq_refl). apply (IHl st2 Hrun); [|set_solver|done].
      intros x Hx. apply Hloop. set_solver.
Qed.

End dfs_sound.

Section roots.
Context `{O : SetOrder} (g : dict (gset string)).

(* The loop over the roots returns; it names roots it had not visited, each
   once, and a cycle can be reached from each of them. *)
Lemma check_roots_spec fuel roots st issues :
  size (graph_nodes g) < fuel →
  Forall (λ n, n ∈ graph_nodes g) roots →
  rec_stack st ⊆ visited st →
  (∀ x, x ∈ rec_stack st → reaches_cycle (edge g) x) →
  ∃ names,
    check_roots fuel g roots st issues = Some (issues ++ map cycle_issue names)
    ∧ sublist names roots
    ∧ NoDup names
    ∧ ∀ n, n ∈ names → (n ∉ visited st) ∧ reaches_cycle (edge g) n.
Proof.
  intros Hfuel. revert st issues.
  induction roots as [|r roots IH]; intros st issues Hroots Hinv Hstale.
  { exists []. simpl. rw app_nil_r. split_and!; [done|done|constructor|].
    by intros n ?%elem_of_nil. }
  apply Forall_cons in Hroots as [Hr Hroots]. simpl.
  destruct (decide (r ∈ visited st)) as [Hv|Hfresh].
  { destruct (IH st issues Hroots Hinv Hstale) as (names & -> & Hsub & Hnd & Hnames).
    exists names. split_and!; [done|by apply sublist_cons|done|done]. }
  assert (size (graph_nodes g ∖ visited st) < fuel) as Hfuel'.
  { assert (graph_nodes g ∖ visited st ⊆ graph_nodes g) as Hle by set_solver.
    apply subseteq_size in Hle. lia. }
  destruct (has_cycle_total g fuel r st Hr Hfuel') as (b & st' & Hrun & Hmono).
  rw Hrun.
  destruct (has_cycle_state g _ _ _ _ _ Hrun Hinv) as (_ & Hrv & Hinv' & Hsame).
  assert (stack_leads_to g st r) as Hpre by (intros x Hx; right; by apply Hstale).
  destruct (has_cycle_sound g _ _ _ _ _ Hrun Hpre) as [Htrue Hfalse].
  destruct b.
  - destruct Htrue as [Hrc Hstale']; first done.
    destruct (IH st' (issues ++ [cycle_issue r]) Hroots Hinv' Hstale')
      as (names & -> & Hsub & Hnd & Hnames).
    exists (r :: names). split_and!.
    + by rw -app_assoc.
    + by apply sublist_skip.
    + apply NoDup_cons. split; last done. intros Hin.
      by destruct (Hnames r Hin) as [Hnv _].
    + intros n [->|Hin]%elem_of_cons; first done.
      destruct (Hnames n Hin) as [Hnv ?]. split; last done. set_solver.
  - assert (∀ x, x ∈ rec_stack st' → reaches_cycle (edge g) x) as Hstale'.
    { intros x Hx. apply Hstale. by apply Hfalse. }
    destruct (IH st' issues Hroots Hinv' Hstale') as (names & -> & Hsub & Hnd & Hnames).
    exists names. split_and!; [done|by apply sublist_cons|done|].
    intros n Hin. destruct (Hnames n Hin) as [Hnv ?]. split; last done. set_solver.
Qed.

End roots.

(** ** The dependency graph *)

Lemma fold_left_invariant {A B : Type} (P : A → Prop) (f : A → B → A) (l : list B) (a : A) :
  P a → (∀ acc x, x ∈ l → P acc → P (f acc x)) → P (fold_left f l a).
Proof.
  revert a. induction l as [|x l IH]; intros a Ha Hstep; simpl; first done.
  apply IH.
  - apply Hstep; [left|done].
  - intros acc y Hy. apply Hstep. by right.
Qed.

Lemma neighbors_set (g : dict (gset string)) (k k' : string) (s : gset string) :
  neighbors (Dict.set g k s) k' = if decide (k = k') then s else neighbors g k'.
Proof.
  rw /neighbors. destruct (decide (k = k')) as [->|Hne].
  - by rw dict_get_set_eq.
  - by rw dict_get_set_ne.
Qed.

Lemma neighbors_graph_add (g : dict (gset string)) (k v k' : string) :
  neighbors (graph_add g k v) k'
  = if decide (k = k') then {[v]} ∪ neighbors g k else neighbors g k'.
Proof. by rw /graph_add neighbors_set. Qed.

Section graph.
Context (components : list Component).
Implicit Types (g : dict (gset string)) (c : Component).

Lemma graph_sound_set_empty g c :
  c ∈ components → graph_sound components g → graph_sound components (Dict.set g (AgentComponent.name c) ∅).
Proof.
  intros Hc [Hedges Hkeys]. split.
  - intros a b. rw /edge neighbors_set. case_decide; [set_solver|apply Hedges].
  - intros k. rw dict_keys_set. destruct (Dict.mem g _); first by apply Hkeys.
    intros [?| ->%list_elem_of_singleton]%elem_of_app; [by apply Hkeys|by exists c].
Qed.

Lemma graph_sound_add g c other :
  c ∈ components → other ∈ components →
  depends_on components (AgentComponent.name c) (AgentComponent.name other) →
  AgentComponent.name c ∈ Dict.keys g →
  graph_sound components g →
  graph_sound components (graph_add g (AgentComponent.name c) (AgentComponent.name other)).
Proof.
  intros Hc Ho Hdep Hkey [Hedges Hkeys]. split.
  - intros a b. rw /edge neighbors_graph_add. case_decide as Heq; last by apply Hedges.
    subst a. intros [->%elem_of_singleton|Hb]%elem_of_union; [done|by apply Hedges].
  - intros k. rw /graph_add dict_keys_set.
    apply dict_mem_keys in Hkey. rw Hkey. apply Hkeys.
Qed.

Lemma build_dependency_graph_sound :
  graph_sound components (build_dependency_graph components).
Proof.
  rw /build_dependency_graph.
  apply (fold_left_invariant (graph_sound components)).
  { split; [by rw /edge /neighbors /=; set_solver|by intros k ?%elem_of_nil]. }
  intros g c Hc Hg. rw /add_component.
  apply (fold_left_invariant
           (λ g, graph_sound components g ∧ AgentComponent.name c ∈ Dict.keys g)).
  { split; first by apply graph_sound_set_empty.
    apply dict_mem_keys. by rw /Dict.mem dict_get_set_eq. }
  intros g1 i Hi Hg1. rw /add_dependencies.
  apply (fold_left_invariant
           (λ g, graph_sound components g ∧ AgentComponent.name c ∈ Dict.keys g)); first done.
  intros g2 other Ho [Hg2 Hk2]. rw /add_dependency.
  destruct (bool_decide (i ∈ AgentComponent.interfaces_provided other)) eqn:Hprov;
    simpl; last done.
  destruct (bool_decide (AgentComponent.name other ≠ AgentComponent.name c)) eqn:Hne;
    simpl; last done.
  apply bool_decide_eq_true in Hprov, Hne.
  split.
  - apply graph_sound_add; [done|done| |done|done].
    split; [congruence|]. exists c, other, i. split_and!; done.
  - rw /graph_add dict_keys_set.
    pose proof Hk2 as Hm. apply dict_mem_keys in Hm. by rw Hm.
Qed.

Lemma add_dependency_fold_spec c i others g :
  AgentComponent.name c ∈ Dict.keys g →
  let g' := fold_left (add_dependency c i) others g in
  Dict.keys g' = Dict.keys g
  ∧ (∀ k, k ≠ AgentComponent.name c → neighbors g' k = neighbors g k)
  ∧ ∀ y, y ∈ neighbors g' (AgentComponent.name c)
         ↔ y ∈ neighbors g (AgentComponent.name c) ∨ provides_for c [i] others y.
Proof.
  revert g. induction others as [|o others IH]; intros g Hkey; simpl.
  { split_and!; [done|done|]. intros y. split; first by left.
    intros [?|(i' & o & _ & []%elem_of_nil & _)]; done. }
  set (g1 := add_dependency c i g o).
  assert (Dict.keys g1 = Dict.keys g
          ∧ (∀ k, k ≠ AgentComponent.name c → neighbors g1 k = neighbors g k)
          ∧ ∀ y, y ∈ neighbors g1 (AgentComponent.name c)
                 ↔ y ∈ neighbors g (AgentComponent.name c) ∨ provides_for c [i] [o] y)
    as (Hk1 & Ho1 & Hn1).
  { rw /g1 /add_dependency.
    destruct (bool_decide (i ∈ AgentComponent.interfaces_provided o)) eqn:Hprov; simpl.
    1: destruct (bool_decide (AgentComponent.name o ≠ AgentComponent.name c)) eqn:Hne;
         simpl.
    - apply bool_decide_eq_true in Hprov, Hne. split_and!.
      + rw /graph_add dict_keys_set. apply dict_mem_keys in Hkey. by rw Hkey.
      + intros k Hk. rw neighbors_graph_add decide_False //.
      + intros y. rw neighbors_graph_add decide_True // elem_of_union elem_of_singleton.
        split.
        * intros [->|?]; [right|by left]. exists i, o. set_solver.
        * intros [?|(i' & o' & Hi' & Ho' & _ & _ & <-)]; [by right|left]. set_solver.
    - apply bool_decide_eq_false in Hne. split_and!; [done|done|].
      intros y. split; first by left.
      intros [?|(i' & o' & Hi' & Ho' & _ & Hne' & _)]; first done.
      apply list_elem_of_singleton in Ho' as ->. done.
    - apply bool_decide_eq_false in Hprov. split_and!; [done|done|].
      intros y. split; first by left.
      intros [?|(i' & o' & Hi' & Ho' & Hp' & _ & _)]; first done.
      apply list_elem_of_singleton in Ho' as ->.
      apply list_elem_of_singleton in Hi' as ->. done. }
  destruct (IH g1) as (Hk & Ho & Hn); first by rw Hk1.
  split_and!.
  - by rw Hk.
  - intros k Hne. rw Ho // Ho1 //.
  - intros y. rw Hn Hn1. rw /provides_for. split.
    + intros [[?|(i' & o' & Hi' & Ho' & ?)]|(i' & o' & Hi' & Ho' & ?)]; first by left.
      * right. exists i', o'. set_solver.
      * right. exists i', o'. set_solver.
    + intros [?|(i' & o' & Hi' & [->|Ho']%elem_of_cons & ?)]; first by left; left.
      * left. right. exists i', o. set_solver.
      * right. exists i', o'. set_solver.
Qed.

Lemma add_dependencies_fold_spec c reqs g :
  AgentComponent.name c ∈ Dict.keys g →
  let g' := fold_left (add_dependencies components c) reqs g in
  Dict.keys g' = Dict.keys g
  ∧ (∀ k, k ≠ AgentComponent.name c → neighbors g' k = neighbors g k)
  ∧ ∀ y, y ∈ neighbors g' (AgentComponent.name c)
         ↔ y ∈ neighbors g (AgentComponent.name c) ∨ provides_for c reqs components y.
Proof.
  revert g. induction reqs as [|i reqs IH]; intros g Hkey; simpl.
  { split_and!; [done|done|]. intros y. split; first by left.
    intros [?|(i' & o & []%elem_of_nil & _)]; done. }
  destruct (add_dependency_fold_spec c i components g Hkey) as (Hk1 & Ho1 & Hn1).
  fold (add_dependencies components c g i) in Hk1, Ho1, Hn1.
  destruct (IH (add_dependencies components c g i)) as (Hk & Ho & Hn); first by rw Hk1.
  split_and!.
  - by rw Hk.
  - intros k Hne. rw Ho // Ho1 //.
  - intros y. rw Hn Hn1. rw /provides_for. split.
    + intros [[?|(i' & o' & Hi' & ?)]|(i' & o' & Hi' & ?)]; first by left.
      * right. exists i', o'. set_solver.
      * right. exists i', o'. set_solver.
    + intros [?|(i' & o' & [->|Hi']%elem_of_cons & ?)]; first by left; left.
      * left. right. exists i, o'. set_solver.
      * right. exists i', o'. set_solver.
Qed.

Lemma add_component_spec g c :
  let g' := add_component components g c in
  Dict.keys g' = (if Dict.mem g (AgentComponent.name c) then Dict.keys g
                  else Dict.keys g ++ [AgentComponent.name c])
  ∧ (∀ k, k ≠ AgentComponent.name c → neighbors g' k = neighbors g k)
  ∧ ∀ y, y ∈ neighbors g' (AgentComponent.name c)
         ↔ provides_for c (AgentComponent.interfaces_required c) components y.
Proof.
  rw /add_component.
  destruct (add_dependencies_fold_spec c (AgentComponent.interfaces_required c)
              (Dict.set g (AgentComponent.name c) ∅)) as (Hk & Ho & Hn).
  { apply dict_mem_keys. by rw /Dict.mem dict_get_set_eq. }
  split_and!.
  - by rw Hk dict_keys_set.
  - intros k Hne. rw Ho // neighbors_set decide_False //.
  - intros y. rw Hn neighbors_set decide_True //. set_solver.
Qed.

Lemma build_dependency_graph_prefix (done_ : list Component) :
  NoDup (map AgentComponent.name done_) →
  let g := fold_left (add_component components) done_ [] in
  Dict.keys g = map AgentComponent.name done_
  ∧ ∀ c, c ∈ done_ →
      ∀ y, y ∈ neighbors g (AgentComponent.name c)
           ↔ provides_for c (AgentComponent.interfaces_required c) components y.
Proof.
  induction done_ as [|c done_ IH] using rev_ind; intros Hnd; simpl.
  { split; first done. by intros c ?%elem_of_nil. }
  rw fold_left_app /=. rw map_app /= in Hnd. apply NoDup_app in Hnd as (Hnd & Hfresh & _).
  destruct (IH Hnd) as [Hkeys Hedges].
  destruct (add_component_spec (fold_left (add_component components) done_ []) c)
    as (Hk & Ho & Hn).
  assert (AgentComponent.name c ∉ map AgentComponent.name done_) as Hc.
  { intros Hin. apply (Hfresh _ Hin). left. }
  split.
  - rw Hk map_app /=. rw -Hkeys.
    destruct (Dict.mem _ _) eqn:Hm; last done.
    apply dict_mem_keys in Hm. by rw Hkeys in Hm.
  - intros c' [Hc'| ->%list_elem_of_singleton]%elem_of_app y; last by apply Hn.
    rw Ho; first by apply Hedges.
    intros Heq. apply Hc. rw -Heq. apply list_elem_of_fmap. by exists c'.
Qed.

(* With distinct component names the graph is the one the specification
   describes. *)
Lemma build_dependency_graph_exact :
  NoDup (map AgentComponent.name components) →
  Dict.keys (build_dependency_graph components) = map AgentComponent.name components
  ∧ ∀ a b, edge (build_dependency_graph components) a b ↔ depends_on components a b.
Proof.
  intros Hnd.
  destruct (build_dependency_graph_prefix components Hnd) as [Hkeys Hedges].
  split; first done.
  intros a b. split; first by apply build_dependency_graph_sound.
  intros (Hne & ca & cb & i & Hca & Hcb & <- & <- & Hi & Hp).
  apply (Hedges ca Hca). exists i, cb. split_and!; [done|done|done|congruence|done].
Qed.

End graph.

(** ** Fuel *)

Section fuel.
Context `{O : SetOrder} (g : dict (gset string)).

Lemma visit_neighbors_mono (call call' : string → dfs_state → option (bool * dfs_state))
    node l st r :
  (∀ n s r, call n s = Some r → call' n s = Some r) →
  visit_neighbors call node l st = Some r →
  visit_neighbors call' node l st = Some r.
Proof.
  intros Hcall. revert st. induction l as [|n l IH]; intros st; simpl; first done.
  destruct (call n st) as [[[] st']|] eqn:Hn; last done.
  - by rw (Hcall _ _ _ Hn).
  - rw (Hcall _ _ _ Hn). apply IH.
Qed.

Lemma has_cycle_fuel_S fuel node st r :
  has_cycle fuel g node st = Some r → has_cycle (S fuel) g node st = Some r.
Proof.
  revert node st r. induction fuel as [|fuel IH]; intros node st r; first done.
  change (has_cycle (S (S fuel)) g node st) with
    (if decide (node ∈ rec_stack st) then Some (true, st)
     else if decide (node ∈ visited st) then Some (false, st)
     else visit_neighbors (has_cycle (S fuel) g) node (set_iter (neighbors g node))
            (Dfs ({[node]} ∪ visited st) ({[node]} ∪ rec_stack st))).
  simpl. destruct (decide (node ∈ rec_stack st)); first done.
  destruct (decide (node ∈ visited st)); first done.
  apply visit_neighbors_mono. apply IH.
Qed.

Lemma has_cycle_fuel_le fuel fuel' node st r :
  fuel ≤ fuel' → has_cycle fuel g node st = Some r → has_cycle fuel' g node st = Some r.
Proof. induction 1; [done|]. intros ?. apply has_cycle_fuel_S. auto. Qed.

Lemma check_roots_fuel_le fuel fuel' roots st issues r :
  fuel ≤ fuel' →
  check_roots fuel g roots st issues = Some r →
  check_roots fuel' g roots st issues = Some r.
Proof.
  intros Hle. revert st issues. induction roots as [|n roots IH]; intros st issues; simpl;
    first done.
  destruct (decide (n ∈ visited st)); first by apply IH.
  destruct (has_cycle fuel g n st) as [[[] st']|] eqn:Hn; last done.
  - rw (has_cycle_fuel_le _ _ _ _ _ Hle Hn). apply IH.
  - rw (has_cycle_fuel_le _ _ _ _ _ Hle Hn). apply IH.
Qed.

(* The first steps of a call, by the state it finds. *)
Lemma has_cycle_on_stack fuel node st :
  node ∈ rec_stack st → has_cycle (S fuel) g node st = Some (true, st).
Proof. intros Hin. simpl. by rw decide_True. Qed.

Lemma has_cycle_fresh fuel node st :
  node ∉ rec_stack st → node ∉ visited st →
  has_cycle (S fuel) g node st
  = visit_neighbors (has_cycle fuel g) node (set_iter (neighbors g node))
      (Dfs ({[node]} ∪ visited st) ({[node]} ∪ rec_stack st)).
Proof. intros H1 H2. simpl. by rw !decide_False. Qed.

Lemma visit_neighbors_single (call : string → dfs_state → option (bool * dfs_state))
    (node n : string) (st : dfs_state) :
  visit_neighbors call node [n] st
  = match call n st with
    | None => None
    | Some (true, st') => Some (true, st')
    | Some (false, st') => Some (false, Dfs (visited st') (rec_stack st' ∖ {[node]}))
    end.
Proof. done. Qed.

(* On the three-node cycle a → b → c → a the search from [a] comes back to
   [a], and leaves the three nodes visited and on the stack. *)
Lemma has_cycle_three_cycle (a b c : string) :
  a ≠ b → b ≠ c → c ≠ a →
  neighbors g a = {[b]} → neighbors g b = {[c]} → neighbors g c = {[a]} →
  has_cycle 4 g a (Dfs ∅ ∅)
  = Some (true, Dfs ({[c]} ∪ ({[b]} ∪ ({[a]} ∪ ∅))) ({[c]} ∪ ({[b]} ∪ ({[a]} ∪ ∅)))).
Proof.
  intros Hab Hbc Hca Na Nb Nc.
  assert (a ∉ (∅ : gset string)) as Ha0 by set_solver.
  assert (b ∉ ({[a]} ∪ ∅ : gset string)) as Hb1 by set_solver.
  assert (c ∉ ({[b]} ∪ ({[a]} ∪ ∅) : gset string)) as Hc2 by set_solver.
  assert (a ∈ ({[c]} ∪ ({[b]} ∪ ({[a]} ∪ ∅)) : gset string)) as Ha3 by set_solver.
  rw (has_cycle_fresh 3 a (Dfs ∅ ∅) Ha0 Ha0).
  rw Na set_iter_singleton visit_neighbors_single.
  rw (has_cycle_fresh 2 b (Dfs ({[a]} ∪ ∅) ({[a]} ∪ ∅)) Hb1 Hb1).
  rw Nb set_iter_singleton visit_neighbors_single.
  rw (has_cycle_fresh 1 c (Dfs ({[b]} ∪ ({[a]} ∪ ∅)) ({[b]} ∪ ({[a]} ∪ ∅))) Hc2 Hc2).
  rw Nc set_iter_singleton visit_neighbors_single.
  rw (has_cycle_on_stack 0 a
             (Dfs ({[c]} ∪ ({[b]} ∪ ({[a]} ∪ ∅))) ({[c]} ∪ ({[b]} ∪ ({[a]} ∪ ∅)))) Ha3).
  reflexivity.
Qed.

End fuel.

(** ** The cycle check *)

Lemma size_list_to_set_le (l : list string) : size (list_to_set l : gset string) ≤ length l.
Proof.
  induction l as [|x l IH]; [by rw list_to_set_nil size_empty|].
  rw list_to_set_cons size_union_alt size_singleton. cbn [length].
  assert (size (list_to_set l ∖ {[x]} : gset string) ≤ size (list_to_set l : gset string))
    as Hle by (apply subseteq_size; set_solver).
  lia.
Qed.

Lemma build_dependency_graph_keys_NoDup (components : list Component) :
  NoDup (Dict.keys (build_dependency_graph components)).
Proof.
  unfold build_dependency_graph.
  apply (fold_left_invariant (λ g : dict (gset string), NoDup (Dict.keys g)));
    [apply NoDup_nil_2|].
  intros g c _ Hg. unfold add_component.
  apply (fold_left_invariant (λ g : dict (gset string), NoDup (Dict.keys g)));
    [by apply dict_keys_set_NoDup|].
  intros g1 r _ Hg1. unfold add_dependencies.
  apply (fold_left_invariant (λ g : dict (gset string), NoDup (Dict.keys g))); [done|].
  intros g2 other _ Hg2. unfold add_dependency, graph_add.
  destruct (_ && _); [by apply dict_keys_set_NoDup|done].
Qed.

(* The graph has no more nodes than the list has components. *)
Lemma graph_nodes_size (components : list Component) :
  size (graph_nodes (build_dependency_graph components)) ≤ length components.
Proof.
  destruct (build_dependency_graph_sound components) as [Hedges Hkeys].
  etrans; [|rw -(length_map AgentComponent.name components); apply size_list_to_set_le].
  apply subseteq_size. intros x. unfold graph_nodes.
  rw elem_of_union !elem_of_list_to_set elem_of_union_list.
  intros [Hx|(s & Hs & Hx)].
  - destruct (Hkeys x Hx) as (c & Hc & <-). apply list_elem_of_fmap. by exists c.
  - apply list_elem_of_fmap in Hs as ([k s'] & -> & Hin). simpl in Hx.
    assert (edge (build_dependency_graph components) k x) as Hedge.
    { unfold edge, neighbors.
      by rw (dict_elem_of_get _ _ _ (build_dependency_graph_keys_NoDup components) Hin). }
    destruct (Hedges k x Hedge) as (_ & _ & cb & _ & _ & Hcb & _ & <- & _).
    apply list_elem_of_fmap. by exists cb.
Qed.

Section cycle_check.
Context `{O : SetOrder} `{I : Interpreter}.

Lemma recursion_frames_min : 12 < recursion_frames.
Proof. exact recursion_frames_table. Qed.

Lemma check_roots_visited fuel (g : dict (gset string)) n roots st issues :
  n ∈ visited st →
  check_roots fuel g (n :: roots) st issues = check_roots fuel g roots st issues.
Proof. intros Hn. simpl. by rw decide_True. Qed.

Lemma check_roots_found fuel (g : dict (gset string)) n roots st st' issues :
  n ∉ visited st →
  has_cycle fuel g n st = Some (true, st') →
  check_roots fuel g (n :: roots) st issues
  = check_roots fuel g roots st' (issues ++ [cycle_issue n]).
Proof. intros Hn Hrun. simpl. by rw decide_False // Hrun. Qed.

(* Whenever the check returns, it has appended one issue per named root,
   each root named once, each a component of the list from which a
   dependency cycle can be reached. *)
Lemma check_circular_dependencies_returns (components : list Component)
    (issues result : list Issue) :
  check_circular_dependencies components issues = Some result →
  ∃ names,
    result = issues ++ map cycle_issue names
    ∧ NoDup names
    ∧ ∀ n, n ∈ names →
        (∃ c, c ∈ components ∧ AgentComponent.name c = n)
        ∧ reaches_cycle (depends_on components) n.
Proof.
  rw /check_circular_dependencies.
  set (g := build_dependency_graph components). intros Hrun.
  destruct (build_dependency_graph_sound components) as [Hedges Hkeys].
  destruct (check_roots_spec g (recursion_frames `max` S (size (graph_nodes g)))
              (Dict.keys g) (Dfs ∅ ∅) issues)
    as (names & Hbig & Hsub & Hnd & Hnames).
  - lia.
  - apply Forall_forall. intros n Hn. by apply keys_nodes.
  - done.
  - simpl. intros x Hx. set_solver.
  - assert (recursion_frames ≤ recursion_frames `max` S (size (graph_nodes g))) as Hle
      by lia.
    pose proof (check_roots_fuel_le g _ _ _ _ _ _ Hle Hrun) as Hrun'.
    rw Hbig in Hrun'. injection Hrun' as <-.
    exists names. split_and!; [done|done|].
    intros n Hn. destruct (Hnames n Hn) as [_ Hrc]. split.
    + apply Hkeys. by eapply elem_of_sublist.
    + by apply (reaches_cycle_mono (edge g)).
Qed.

(* The check returns when the calls may be nested once per component and
   once more. *)
Lemma check_circular_dependencies_total (components : list Component)
    (issues : list Issue) :
  length components < recursion_frames →
  ∃ result, check_circular_dependencies components issues = Some result.
Proof.
  intros Hlen. rw /check_circular_dependencies.
  set (g := build_dependency_graph components).
  pose proof (graph_nodes_size components) as Hsize. fold g in Hsize.
  destruct (check_roots_spec g recursion_frames (Dict.keys g) (Dfs ∅ ∅) issues)
    as (names & Hrun & _).
  - lia.
  - apply Forall_forall. intros n Hn. by apply keys_nodes.
  - done.
  - simpl. intros x Hx. set_solver.
  - by eexists.
Qed.

Lemma check_circular_dependencies_spec (components : list Component) (issues : list Issue) :
  length components < recursion_frames →
  ∃ names,
    check_circular_dependencies components issues
    = Some (issues ++ map cycle_issue names)
    ∧ NoDup names
    ∧ ∀ n, n ∈ names →
        (∃ c, c ∈ components ∧ AgentComponent.name c = n)
        ∧ reaches_cycle (depends_on components) n.
Proof.
  intros Hlen.
  destruct (check_circular_dependencies_total components issues Hlen) as (result & Hrun).
  destruct (check_circular_dependencies_returns components issues result Hrun)
    as (names & -> & Hnames).
  by exists names.
Qed.

Lemma check_circular_dependencies_three_cycle (A B C : Component) (issues : list Issue) :
  NoDup [AgentComponent.name A; AgentComponent.name B; AgentComponent.name C] →
  three_cycle A B C →
  check_circular_dependencies [A; B; C] issues
  = Some (issues ++ [cycle_issue (AgentComponent.name A)]).
Proof.
  intros Hnd Hring. unfold check_circular_dependencies.
  destruct (build_dependency_graph_exact [A; B; C] Hnd) as [Hkeys Hedges].
  rw Hkeys.
  change (map AgentComponent.name [A; B; C])
    with [AgentComponent.name A; AgentComponent.name B; AgentComponent.name C].
  unfold three_cycle in Hring.
  generalize dependent (build_dependency_graph [A; B; C]). intros g _ Hedges.
  generalize dependent (AgentComponent.name A). intros a.
  generalize dependent (AgentComponent.name B). intros b.
  generalize dependent (AgentComponent.name C). intros c Hnd Hring.
  assert (a ≠ b ∧ b ≠ c ∧ c ≠ a) as (Hab & Hbc & Hca).
  { apply NoDup_cons in Hnd as [Ha Hnd]. apply NoDup_cons in Hnd as [Hb _].
    rw !elem_of_cons in Ha. rw elem_of_cons in Hb.
    split_and!; intros ->; tauto. }
  assert (∀ x z, (∀ y, depends_on [A; B; C] x y ↔ y = z) → neighbors g x = {[z]}) as Hn.
  { intros x z Hxz. apply set_eq. intros y. rw elem_of_singleton -Hxz -Hedges.
    reflexivity. }
  assert (neighbors g a = {[b]}) as Na.
  { apply Hn. intros y. rw (Hring a y). split; [|by left].
    intros [[_ ?]|[[? _]|[? _]]]; [assumption|by subst|by subst]. }
  assert (neighbors g b = {[c]}) as Nb.
  { apply Hn. intros y. rw (Hring b y). split; [|by right; left].
    intros [[? _]|[[_ ?]|[? _]]]; [by subst|assumption|by subst]. }
  assert (neighbors g c = {[a]}) as Nc.
  { apply Hn. intros y. rw (Hring c y). split; [|by right; right].
    intros [[? _]|[[? _]|[_ ?]]]; [by subst|by subst|assumption]. }
  pose proof (has_cycle_three_cycle g a b c Hab Hbc Hca Na Nb Nc) as Hsearch.
  assert (check_roots 4 g [a; b; c] (Dfs ∅ ∅) issues
          = Some (issues ++ [cycle_issue a])) as Hfour.
  { etrans; first exact (check_roots_found 4 g a _ _ _ _ (not_elem_of_empty a) Hsearch).
    etrans; first (apply check_roots_visited; cbn [visited]; set_solver).
    etrans; first (apply check_roots_visited; cbn [visited]; set_solver).
    reflexivity. }
  assert (4 ≤ recursion_frames) as Hle by (pose proof recursion_frames_min; lia).
  exact (check_roots_fuel_le g _ _ _ _ _ _ Hle Hfour).
Qed.

End cycle_check.

(** ** C3: what the cycle check reports *)

Lemma tc_last_step {A : Type} (R : relation A) (x z : A) : tc R x z → ∃ y, R y z.
Proof. induction 1; eauto. Qed.

(* Three components, each providing one interface and requiring the one the
   next provides, form a ring. *)
Lemma three_cycle_ring (A B C : Component) (ia ib ic : string) :
  AgentComponent.interfaces_provided A = [ia] →
  AgentComponent.interfaces_required A = [ib] →
  AgentComponent.interfaces_provided B = [ib] →
  AgentComponent.interfaces_required B = [ic] →
  AgentComponent.interfaces_provided C = [ic] →
  AgentComponent.interfaces_required C = [ia] →
  ia ≠ ib → ib ≠ ic → ic ≠ ia →
  AgentComponent.name A ≠ AgentComponent.name B →
  AgentComponent.name B ≠ AgentComponent.name C →
  AgentComponent.name C ≠ AgentComponent.name A →
  three_cycle A B C.
Proof.
  intros PA RA PB RB PC RC Hi1 Hi2 Hi3 Hab Hbc Hca x y. unfold depends_on. split.
  - intros (Hne & ca & cb & i & Hin1 & Hin2 & <- & <- & Hi & Hp).
    rw !elem_of_cons in Hin1. rw !elem_of_cons in Hin2.
    destruct Hin1 as [->|[->|[->|Hin1]]]; try (by apply elem_of_nil in Hin1);
      destruct Hin2 as [->|[->|[->|Hin2]]]; try (by apply elem_of_nil in Hin2);
      rw ?RA ?RB ?RC in Hi; rw ?PA ?PB ?PC in Hp;
      apply list_elem_of_singleton in Hi; apply list_elem_of_singleton in Hp;
      subst i; first [congruence | by left | by right; left | by right; right].
  - assert (A ∈ [A; B; C] ∧ B ∈ [A; B; C] ∧ C ∈ [A; B; C]) as (HA & HB & HC).
    { rw !elem_of_cons. tauto. }
    intros [[-> ->]|[[-> ->]|[-> ->]]]; (split; [done|]).
    + exists A, B, ib. rw RA PB !list_elem_of_singleton. tauto.
    + exists B, C, ic. rw RB PC !list_elem_of_singleton. tauto.
    + exists C, A, ia. rw RC PA !list_elem_of_singleton. tauto.
Qed.

Section cycle_claim.
Context `{O : SetOrder} `{I : Interpreter}.

(** C3 (as amended). The cycle check returns for every component list that
    has fewer components than the interpreter lets calls of [has_cycle]
    nest. Whenever it returns, it has appended one circular-dependency error
    per named component and has named no component twice; every named
    component is a component of the list from which a directed cycle of the
    dependency relation can be reached: it is the root from which the search
    started, and it need not lie on the cycle. For three components with
    distinct names whose dependency relation is exactly the ring
    A → B → C → A, the check appends exactly one issue, naming A, whatever
    the iteration order of the sets. *)
Theorem cycle_check_names_roots_reaching_a_cycle :
  (∀ (components : list Component) (issues : list Issue),
     length components < recursion_frames →
     ∃ result, check_circular_dependencies components issues = Some result)
  ∧ (∀ (components : list Component) (issues result : list Issue),
       check_circular_dependencies components issues = Some result →
       ∃ names,
         result = issues ++ map cycle_issue names
         ∧ NoDup names
         ∧ ∀ n, n ∈ names →
             (∃ c, c ∈ components ∧ AgentComponent.name c = n)
             ∧ reaches_cycle (depends_on components) n)
  ∧ (∀ (A B C : Component) (issues : list Issue),
       NoDup [AgentComponent.name A; AgentComponent.name B; AgentComponent.name C] →
       three_cycle A B C →
       check_circular_dependencies [A; B; C] issues
       = Some (issues ++ [cycle_issue (AgentComponent.name A)])).
Proof.
  split_and!.
  - apply check_circular_dependencies_total.
  - apply check_circular_dependencies_returns.
  - apply check_circular_dependencies_three_cycle.
Qed.

End cycle_claim.


Lemma ring_is_three_cycle : three_cycle ring_A ring_B ring_C.
Proof. by apply (three_cycle_ring ring_A ring_B ring_C "a.h" "b.h" "c.h"). Qed.

Lemma cycle_check_names_roots_reaching_a_cycle_witness :
  NoDup ["A"; "B"; "C"]
  ∧ three_cycle ring_A ring_B ring_C
  ∧ check_circular_dependencies (O := elements_order) (I := python_default)
      [ring_A; ring_B; ring_C] []
    = Some [cycle_issue "A"].
Proof.
  assert (NoDup ["A"; "B"; "C"]) as Hnd.
  { repeat (apply NoDup_cons_2;
              [rw ?elem_of_cons; rw elem_of_nil; intuition discriminate|]).
    apply NoDup_nil_2. }
  split; [exact Hnd|]. split; [exact ring_is_three_cycle|].
  exact (proj2 (proj2 (cycle_check_names_roots_reaching_a_cycle
                         (O := elements_order) (I := python_default)))
           ring_A ring_B ring_C [] Hnd ring_is_three_cycle).
Defined.

(* The claim as stated fails: with D, which requires the interface of A,
   before the ring, the one issue of the check names D, the root of the
   search, and D lies on no cycle. *)
Lemma cycle_check_counterexample :
  check_circular_dependencies (O := elements_order) (I := python_default)
    [outside_D; ring_A; ring_B; ring_C] []
  = Some [cycle_issue "D"]
  ∧ ¬ on_cycle (depends_on [outside_D; ring_A; ring_B; ring_C]) "D".
Proof.
  split; first by vm_compute.
  intros Hcyc. apply tc_last_step in Hcyc as (y & _ & ca & cb & i & Hin1 & Hin2 & _ & Hb & Hi & Hp).
  rw !elem_of_cons in Hin1. rw !elem_of_cons in Hin2.
  destruct Hin2 as [->|[->|[->|[->|Hin2]]]]; try (by apply elem_of_nil in Hin2);
    try discriminate Hb.
  apply list_elem_of_singleton in Hp. subst i.
  destruct Hin1 as [->|[->|[->|[->|Hin1]]]]; try (by apply elem_of_nil in Hin1);
    apply list_elem_of_singleton in Hi; discriminate Hi.
Qed.

(** ** The provider map and the checks that read it *)

Lemma fold_left_flat_map {A B : Type} (f : A → list B) (l : list A) (init : list B) :
  fold_left (λ acc x, acc ++ f x) l init = init ++ flat_map f l.
Proof.
  revert init. induction l as [|x l IH]; intros init; simpl.
  - by rw app_nil_r.
  - by rw IH app_assoc.
Qed.

Lemma add_provider_keys (pm : dict (list string)) (i n : string) :
  Dict.keys (add_provider pm i n)
  = if Dict.mem pm i then Dict.keys pm else Dict.keys pm ++ [i].
Proof.
  rw /add_provider. destruct (Dict.mem pm i) eqn:Hm.
  - by rw dict_keys_set Hm.
  - rw !dict_keys_set Hm. by rw /Dict.mem dict_get_set_eq.
Qed.

Lemma add_provider_mem (pm : dict (list string)) (i n k : string) :
  Dict.mem (add_provider pm i n) k = true ↔ Dict.mem pm k = true ∨ k = i.
Proof.
  rw !dict_mem_keys add_provider_keys. destruct (Dict.mem pm i) eqn:Hm.
  - apply dict_mem_keys in Hm. split; [by left|]. by intros [?| ->].
  - rw elem_of_app list_elem_of_singleton //.
Qed.

Lemma add_provider_NoDup (pm : dict (list string)) (i n : string) :
  NoDup (Dict.keys pm) → NoDup (Dict.keys (add_provider pm i n)).
Proof.
  intros Hnd. rw /add_provider. apply dict_keys_set_NoDup.
  destruct (Dict.mem pm i); [done|by apply dict_keys_set_NoDup].
Qed.

Lemma add_providers_mem (l : list string) (n : string) (pm : dict (list string)) (k : string) :
  Dict.mem (fold_left (λ acc interface, add_provider acc interface n) l pm) k = true
  ↔ Dict.mem pm k = true ∨ k ∈ l.
Proof.
  revert pm. induction l as [|i l IH]; intros pm; simpl.
  - split; [by left|]. by intros [?|?%elem_of_nil].
  - rw IH add_provider_mem elem_of_cons. tauto.
Qed.

Lemma add_providers_NoDup (l : list string) (n : string) (pm : dict (list string)) :
  NoDup (Dict.keys pm) →
  NoDup (Dict.keys (fold_left (λ acc interface, add_provider acc interface n) l pm)).
Proof.
  revert pm. induction l as [|i l IH]; intros pm Hnd; simpl; first done.
  apply IH. by apply add_provider_NoDup.
Qed.

(* An interface is a key of the provider map exactly when some component of
   the list provides it. *)
Lemma build_interface_providers_mem (components : list Component) (i : string) :
  Dict.mem (build_interface_providers components) i = true
  ↔ ∃ c, c ∈ components ∧ i ∈ AgentComponent.interfaces_provided c.
Proof.
  rw /build_interface_providers.
  assert (∀ pm,
    Dict.mem (fold_left
      (λ interface_providers component,
         fold_left (λ acc interface, add_provider acc interface (AgentComponent.name component))
           (AgentComponent.interfaces_provided component) interface_providers)
      components pm) i = true
    ↔ Dict.mem pm i = true ∨ ∃ c, c ∈ components ∧ i ∈ AgentComponent.interfaces_provided c)
    as Hgen.
  { induction components as [|c cs IH]; intros pm; simpl.
    - split; [by left|]. intros [?|(c & Hc%elem_of_nil & _)]; done.
    - rw IH add_providers_mem. split.
      + intros [[?|?]|(c' & Hc' & ?)]; [by left| |].
        * right. exists c. split; [left|done].
        * right. exists c'. split; [by right|done].
      + intros [?|(c' & [->|Hc']%elem_of_cons & ?)]; [by left; left|by left; right|].
        right. by exists c'. }
  rw Hgen. split; [|by right]. by intros [?|?].
Qed.

Lemma build_interface_providers_NoDup (components : list Component) :
  NoDup (Dict.keys (build_interface_providers components)).
Proof.
  rw /build_interface_providers.
  apply (fold_left_invariant (λ pm : dict (list string), NoDup (Dict.keys pm))).
  - apply NoDup_nil_2.
  - intros pm c _ Hnd. by apply add_providers_NoDup.
Qed.

(* The unresolved-interface check appends, component by component and in
   the order of each requirement list, one issue per requirement that is no
   key of the provider map. *)
Lemma check_missing_interfaces_spec (pm : dict (list string)) (components : list Component)
    (issues : list Issue) :
  check_missing_interfaces pm components issues
  = issues
    ++ flat_map
         (λ c, map (missing_issue (AgentComponent.name c))
                 (filter (λ r, negb (Dict.mem pm r) = true)
                    (AgentComponent.interfaces_required c)))
         components.
Proof.
  rw /check_missing_interfaces -fold_left_flat_map.
  revert issues. induction components as [|c cs IH]; intros issues; simpl; first done.
  rw (fold_left_snoc_if (λ r, negb (Dict.mem pm r))
        (missing_issue (AgentComponent.name c))). apply IH.
Qed.

(* The ownership check appends one issue per entry of the map that lists
   more than one provider, in the order of the map. *)
Lemma check_interface_ownership_spec (pm : dict (list string)) (issues : list Issue) :
  check_interface_ownership pm issues
  = issues
    ++ map (λ e, ownership_issue e.1 e.2) (filter (λ e, 1 < length e.2) pm).
Proof.
  rw /check_interface_ownership. revert issues.
  induction pm as [|[i ps] pm IH]; intros issues; simpl.
  - by rw app_nil_r.
  - rw IH. destruct (decide (1 < length ps)) as [Hlen|Hlen].
    + rw filter_cons_True // -app_assoc //.
    + rw filter_cons_False //.
Qed.

Section validate.
Context `{O : SetOrder} `{I : Interpreter}.

(* Whenever the validator returns, its issues are the unresolved
   interfaces, then the cycles, then the ownership conflicts. *)
Lemma validate_interface_compatibility_returns (components : list Component)
    (issues : list Issue) :
  validate_interface_compatibility components = Some issues →
  ∃ names,
    issues
    = check_missing_interfaces (build_interface_providers components) components []
      ++ map cycle_issue names
      ++ map (λ e, ownership_issue e.1 e.2)
           (filter (λ e, 1 < length e.2) (build_interface_providers components))
    ∧ NoDup names
    ∧ ∀ n, n ∈ names →
        (∃ c, c ∈ components ∧ AgentComponent.name c = n)
        ∧ reaches_cycle (depends_on components) n.
Proof.
  rw /validate_interface_compatibility.
  destruct (check_circular_dependencies components _) as [result|] eqn:Hrun; [|done].
  intros [= <-].
  destruct (check_circular_dependencies_returns _ _ _ Hrun) as (names & -> & Hnd & Hnames).
  exists names. split; last done.
  by rw check_interface_ownership_spec -app_assoc.
Qed.

(* The validator returns when the search has room for one nested call per
   component and one more. *)
Lemma validate_interface_compatibility_total (components : list Component) :
  length components < recursion_frames →
  ∃ issues, validate_interface_compatibility components = Some issues.
Proof.
  intros Hlen. rw /validate_interface_compatibility.
  destruct (check_circular_dependencies_total components
              (check_missing_interfaces (build_interface_providers components) components [])
              Hlen) as (result & ->).
  by eexists.
Qed.

Lemma validate_interface_compatibility_spec (components : list Component) :
  length components < recursion_frames →
  ∃ names,
    validate_interface_compatibility components
    = Some (check_missing_interfaces (build_interface_providers components) components []
            ++ map cycle_issue names
            ++ map (λ e, ownership_issue e.1 e.2)
                 (filter (λ e, 1 < length e.2) (build_interface_providers components)))
    ∧ NoDup names
    ∧ ∀ n, n ∈ names →
        (∃ c, c ∈ components ∧ AgentComponent.name c = n)
        ∧ reaches_cycle (depends_on components) n.
Proof.
  intros Hlen.
  destruct (validate_interface_compatibility_total components Hlen) as (issues & Hv).
  destruct (validate_interface_compatibility_returns components issues Hv)
    as (names & -> & Hnames).
  by exists names.
Qed.

End validate.

(** ** Unresolved interfaces *)


Lemma elem_of_flat_map {A B : Type} (f : A → list B) (l : list A) (x : B) :
  x ∈ flat_map f l ↔ ∃ y, y ∈ l ∧ x ∈ f y.
Proof.
  induction l as [|a l IH]; simpl.
  - split; [by intros ?%elem_of_nil|]. by intros (y & ?%elem_of_nil & _).
  - rw elem_of_app IH. split.
    + intros [?|(y & ? & ?)]; [exists a; split; [left|done]|exists y; split; [by right|done]].
    + intros (y & [->|?]%elem_of_cons & ?); [by left|right; by exists y].
Qed.

Lemma missing_issue_not_cycle_issue (n i m : string) : missing_issue n i ≠ cycle_issue m.
Proof.
  intros Heq. apply (f_equal (λ x, first_char (DependencyIssue.message x))) in Heq.
  discriminate Heq.
Qed.

Lemma missing_issue_not_ownership_issue (n i k : string) (ps : list string) :
  missing_issue n i ≠ ownership_issue k ps.
Proof.
  intros Heq. apply (f_equal (λ x, first_char (DependencyIssue.message x))) in Heq.
  discriminate Heq.
Qed.

Lemma elem_of_check_missing_interfaces (components : list Component) (n i : string) :
  missing_issue n i
    ∈ check_missing_interfaces (build_interface_providers components) components []
  ↔ (∃ c, c ∈ components ∧ AgentComponent.name c = n
          ∧ i ∈ AgentComponent.interfaces_required c)
    ∧ ∀ c', c' ∈ components → i ∉ AgentComponent.interfaces_provided c'.
Proof.
  rw check_missing_interfaces_spec app_nil_l elem_of_flat_map.
  assert (Dict.mem (build_interface_providers components) i = false
          ↔ ∀ c', c' ∈ components → i ∉ AgentComponent.interfaces_provided c') as Hmem.
  { rw -not_true_iff_false build_interface_providers_mem. split.
    - intros Hno c' Hc' Hi. apply Hno. by exists c'.
    - intros Hno (c' & Hc' & Hi). by apply (Hno c'). }
  split.
  - intros (c & Hc & Hin).
    apply list_elem_of_fmap in Hin as (r & Heq & Hr).
    apply list_elem_of_filter in Hr as [Hr Hreq].
    injection Heq as -> ->. split; [by exists c|].
    apply Hmem. by apply negb_true_iff.
  - intros [(c & Hc & <- & Hreq) Hno]. exists c. split; [done|].
    apply list_elem_of_fmap. exists i. split; [done|].
    apply list_elem_of_filter. split; [|done]. apply negb_true_iff. by apply Hmem.
Qed.

Section unresolved_claim.
Context `{O : SetOrder} `{I : Interpreter}.

(** The validator returns for every component list that has fewer
    components than the interpreter lets calls of [has_cycle] nest. Whenever
    it returns, it reports the unresolved-interface error for component name
    [n] and interface [i] if and only if a component named [n] requires [i]
    and no component of the list, that component included, provides [i].
    Hence an interface that any component provides is never reported
    unresolved, against any component. *)
Theorem unresolved_issue_iff_required_and_unprovided (components : list Component) :
  (length components < recursion_frames →
   ∃ issues, validate_interface_compatibility components = Some issues)
  ∧ ∀ issues,
      validate_interface_compatibility components = Some issues →
      (∀ n i,
         missing_issue n i ∈ issues
         ↔ (∃ c, c ∈ components ∧ AgentComponent.name c = n
                 ∧ i ∈ AgentComponent.interfaces_required c)
           ∧ ∀ c', c' ∈ components → i ∉ AgentComponent.interfaces_provided c')
      ∧ (∀ c' i, c' ∈ components → i ∈ AgentComponent.interfaces_provided c' →
                 ∀ n, missing_issue n i ∉ issues).
Proof.
  split; [apply validate_interface_compatibility_total|].
  intros issues Hv.
  destruct (validate_interface_compatibility_returns components issues Hv)
    as (names & -> & _).
  assert (∀ n i,
    missing_issue n i
      ∈ check_missing_interfaces (build_interface_providers components) components []
        ++ map cycle_issue names
        ++ map (λ e, ownership_issue e.1 e.2)
             (filter (λ e, 1 < length e.2) (build_interface_providers components))
    ↔ (∃ c, c ∈ components ∧ AgentComponent.name c = n
            ∧ i ∈ AgentComponent.interfaces_required c)
      ∧ ∀ c', c' ∈ components → i ∉ AgentComponent.interfaces_provided c') as Hiff.
  { intros n i. rw -elem_of_check_missing_interfaces !elem_of_app. split; [|by left].
    intros [?|[Hc|Ho]]; [done| |].
    - apply list_elem_of_fmap in Hc as (m & Heq & _).
      by apply missing_issue_not_cycle_issue in Heq.
    - apply list_elem_of_fmap in Ho as ([k ps] & Heq & _).
      by apply missing_issue_not_ownership_issue in Heq. }
  split; [exact Hiff|].
  intros c' i Hc' Hi n Hin. apply Hiff in Hin as [_ Hno]. by apply (Hno c').
Qed.

End unresolved_claim.

(** ** C4: multiple ownership *)

Lemma append_cons (c : ascii) (s t : string) : String c s +:+ t = String c (s +:+ t).
Proof. done. Qed.

Lemma append_nil_l (t : string) : EmptyString +:+ t = t.
Proof. done. Qed.

Lemma startswith_spec (s p : string) :
  Str.startswith s p = true ↔ ∃ suf, s = p +:+ suf.
Proof.
  revert s. induction p as [|a p IH]; intros s.
  - split; [|by destruct s]. intros _. exists s. reflexivity.
  - destruct s as [|b s]; simpl.
    + split; [done|]. intros (suf & Heq). rw append_cons in Heq. discriminate Heq.
    + destruct (decide (a = b)) as [->|Hne].
      * rw IH. split.
        -- intros (suf & ->). by exists suf.
        -- intros (suf & Heq). rw append_cons in Heq. injection Heq as ->. by exists suf.
      * split; [done|]. intros (suf & Heq). rw append_cons in Heq. congruence.
Qed.

Lemma contains_unfold (sub s : string) :
  Str.contains sub s
  = if Str.startswith s sub then true
    else match s with
         | EmptyString => false
         | String _ s' => Str.contains sub s'
         end.
Proof. by destruct s. Qed.

(* [sub in s] is true exactly when [sub] occurs in [s]. *)
Lemma contains_spec (sub s : string) : Str.contains sub s = true ↔ substring sub s.
Proof.
  rw /substring. split.
  - induction s as [|c s IH]; rw contains_unfold.
    + destruct (Str.startswith EmptyString sub) eqn:Hs; [|done].
      intros _. apply startswith_spec in Hs as (suf & Heq).
      exists EmptyString, suf. by rw append_nil_l.
    + destruct (Str.startswith (String c s) sub) eqn:Hs.
      * intros _. apply startswith_spec in Hs as (suf & Heq).
        exists EmptyString, suf. by rw append_nil_l.
      * intros (pre & suf & ->)%IH. exists (String c pre), suf. by rw append_cons.
  - intros (pre & suf & ->). induction pre as [|c pre IH].
    + rw append_nil_l contains_unfold.
      assert (Str.startswith (sub +:+ suf) sub = true) as Hs
        by (apply startswith_spec; by exists suf).
      by rw Hs.
    + rw append_cons contains_unfold IH. by destruct (Str.startswith _ _).
Qed.

Lemma ownership_severity_error (interface : string) :
  ownership_severity interface = "error"
  ↔ ∃ marker, marker ∈ critical_markers ∧ substring marker interface.
Proof.
  rw /ownership_severity.
  destruct (existsb _ critical_markers) eqn:Hex.
  - split; [|done]. intros _. apply existsb_exists in Hex as (m & Hm & Hc).
    exists m. split; [by apply list_elem_of_In|by apply contains_spec].
  - split; [done|]. intros (m & Hm & Hc).
    assert (existsb (λ critical, Str.contains critical interface) critical_markers = true)
      as Htrue.
    { apply existsb_exists. exists m. split; [by apply list_elem_of_In|by apply contains_spec]. }
    congruence.
Qed.

Lemma ownership_severity_warning (interface : string) :
  ownership_severity interface = "warning"
  ↔ ¬ ∃ marker, marker ∈ critical_markers ∧ substring marker interface.
Proof.
  rw -ownership_severity_error /ownership_severity.
  by destruct (existsb _ critical_markers).
Qed.

(* In a map with distinct keys the ownership issues about one interface are
   the issue of its entry, when the entry lists more than one provider. *)
Lemma ownership_issues_of_interface (pm : dict (list string)) (interface : string)
    (providers : list string) :
  NoDup (Dict.keys pm) → (interface, providers) ∈ pm →
  filter (λ issue, DependencyIssue.interface issue = interface)
    (map (λ e, ownership_issue e.1 e.2) (filter (λ e, 1 < length e.2) pm))
  = if decide (1 < length providers) then [ownership_issue interface providers] else [].
Proof.
  assert (∀ pm' : dict (list string), interface ∉ Dict.keys pm' →
    filter (λ issue, DependencyIssue.interface issue = interface)
      (map (λ e, ownership_issue e.1 e.2) (filter (λ e, 1 < length e.2) pm')) = [])
    as Hnone.
  { induction pm' as [|[k v] pm' IH]; simpl; [done|].
    rw not_elem_of_cons. intros [Hk Hrest].
    destruct (decide (1 < length v)).
    - rw filter_cons_True //=. rw filter_cons_False; [by apply IH|simpl; congruence].
    - rw filter_cons_False //. by apply IH. }
  induction pm as [|[k v] pm IH]; simpl; [by intros _ ?%elem_of_nil|].
  intros [Hk Hnd]%NoDup_cons [Heq|Hin]%elem_of_cons.
  - injection Heq as -> ->. destruct (decide (1 < length v)).
    + rw filter_cons_True //=. rw filter_cons_True //. by rw Hnone.
    + rw filter_cons_False //. by rw Hnone.
  - assert (k ≠ interface) as Hne.
    { intros ->. apply Hk. apply list_elem_of_fmap. by exists (interface, providers). }
    destruct (decide (1 < length v)).
    + rw filter_cons_True //=. rw filter_cons_False; [by apply IH|simpl; congruence].
    + rw filter_cons_False //. by apply IH.
Qed.

(* The markers of the source, one by one. *)
Lemma critical_marker_cases (interface : string) :
  (∃ marker, marker ∈ critical_markers ∧ substring marker interface)
  ↔ substring "memory_interface" interface
    ∨ substring "process_interface" interface
    ∨ substring "filesystem_interface" interface.
Proof.
  unfold critical_markers. split.
  - intros (marker & Hm & Hsub). rw !elem_of_cons elem_of_nil in Hm.
    destruct Hm as [->|[->|[->|[]]]]; tauto.
  - intros [H|[H|H]]; eexists; (split; [|exact H]); rw !elem_of_cons; tauto.
Qed.

(** C4. In a provider map (a dictionary, so with distinct keys) every
    interface with more than one provider gets exactly one ownership issue.
    Its component field names all the providers, joined by a comma and a
    blank in the order of the map; its severity is error when the interface
    name contains memory_interface, process_interface or
    filesystem_interface, and warning otherwise. *)
Theorem ownership_issue_once_per_shared_interface (interface_providers : dict (list string))
    (issues : list Issue) (interface : string) (providers : list string) :
  NoDup (Dict.keys interface_providers) →
  (interface, providers) ∈ interface_providers →
  1 < length providers →
  ∃ added issue,
    check_interface_ownership interface_providers issues = issues ++ added
    ∧ filter (λ i, DependencyIssue.interface i = interface) added = [issue]
    ∧ DependencyIssue.component issue = Str.join ", " providers
    ∧ (DependencyIssue.severity issue = "error"
       ↔ substring "memory_interface" interface
         ∨ substring "process_interface" interface
         ∨ substring "filesystem_interface" interface)
    ∧ (DependencyIssue.severity issue = "warning"
       ↔ ¬ (substring "memory_interface" interface
            ∨ substring "process_interface" interface
            ∨ substring "filesystem_interface" interface)).
Proof.
  intros Hnd Hin Hlen. eexists _, (ownership_issue interface providers).
  split; [apply check_interface_ownership_spec|].
  split; [by rw (ownership_issues_of_interface _ _ providers) // decide_True|].
  split; [done|]. rw -critical_marker_cases. split.
  - apply ownership_severity_error.
  - apply ownership_severity_warning.
Qed.


Lemma ownership_issue_once_per_shared_interface_witness :
  ∃ added issue,
    check_interface_ownership shared_providers [] = [] ++ added
    ∧ filter (λ i, DependencyIssue.interface i = "memory_interface.h") added = [issue]
    ∧ DependencyIssue.component issue
      = "kernel-architect-component, memory-manager-component"
    ∧ DependencyIssue.severity issue = "error".
Proof.
  destruct (ownership_issue_once_per_shared_interface shared_providers []
              "memory_interface.h"
              ["kernel-architect-component"; "memory-manager-component"])
    as (added & issue & Hadded & Hone & Hcomponent & Herror & _).
  - repeat (apply NoDup_cons_2;
              [rw ?elem_of_cons; rw elem_of_nil; intuition discriminate|]).
    apply NoDup_nil_2.
  - left.
  - simpl. lia.
  - exists added, issue. split_and!; [done..|].
    apply Herror. left. by exists EmptyString, ".h".
Defined.

(** ** C5: breaking changes *)

Lemma length_append (a b : string) :
  String.length (a +:+ b) = String.length a + String.length b.
Proof. induction a as [|c a IH]; [done|]. rw append_cons /=. by rw IH. Qed.

Lemma append_inj_l (p a b : string) : p +:+ a = p +:+ b → a = b.
Proof.
  induction p as [|c p IH]; [done|]. rw !append_cons. intros Heq.
  injection Heq as Heq. by apply IH.
Qed.

Lemma append_inj_r (s a b : string) : a +:+ s = b +:+ s → a = b.
Proof.
  revert b. induction a as [|x a IH]; intros [|y b] Heq.
  - done.
  - apply (f_equal String.length) in Heq. rw !length_append /= in Heq. lia.
  - apply (f_equal String.length) in Heq. rw !length_append /= in Heq. lia.
  - rw !append_cons in Heq. injection Heq as -> Heq. f_equal. by apply IH.
Qed.

(* A name between a fixed opening and a fixed closing text can be read
   back. *)
Lemma quoted_inj (pre suf a b : string) : pre +:+ a +:+ suf = pre +:+ b +:+ suf → a = b.
Proof. intros Heq%append_inj_l. by apply append_inj_r in Heq. Qed.

Lemma removed_function_inj : Inj (=) (=) removed_function.
Proof. intros a b. apply quoted_inj. Qed.
Lemma removed_structure_inj : Inj (=) (=) removed_structure.
Proof. intros a b. apply quoted_inj. Qed.
Lemma removed_constant_inj : Inj (=) (=) removed_constant.
Proof. intros a b. apply quoted_inj. Qed.

Lemma removed_messages_differ (a b : string) :
  removed_function a ≠ removed_structure b
  ∧ removed_function a ≠ removed_constant b
  ∧ removed_structure a ≠ removed_constant b.
Proof.
  split_and!; intros Heq; apply (f_equal first_char) in Heq; discriminate Heq.
Qed.

Lemma py_set_difference_empty (previous current : list string) :
  (∀ x, x ∈ previous → x ∈ current) → py_set previous ∖ py_set current = ∅.
Proof.
  intros Hincl. apply set_eq. intros x.
  rw elem_of_difference /py_set !elem_of_list_to_set. split.
  - intros [Hp Hc]. exfalso. by apply Hc, Hincl.
  - by intros ?%not_elem_of_empty.
Qed.

Lemma elem_of_py_set_difference (previous current : list string) (x : string) :
  x ∈ py_set previous ∖ py_set current ↔ x ∈ previous ∧ x ∉ current.
Proof. by rw elem_of_difference /py_set !elem_of_list_to_set. Qed.

Section compare.
Context `{O : SetOrder}.

Lemma compare_interfaces_spec (previous current : Interface) :
  compare_interfaces previous current
  = map removed_function
      (set_iter (py_set (InterfaceDefinition.functions previous)
                 ∖ py_set (InterfaceDefinition.functions current)))
    ++ map removed_structure
         (set_iter (py_set (InterfaceDefinition.structures previous)
                    ∖ py_set (InterfaceDefinition.structures current)))
    ++ map removed_constant
         (set_iter (py_set (InterfaceDefinition.constants previous)
                    ∖ py_set (InterfaceDefinition.constants current))).
Proof. by rw /compare_interfaces !fold_left_snoc app_nil_l -app_assoc. Qed.

(** C5. [compare_interfaces] returns the removal message of every function
    name, structure name and constant name that the previous descriptor
    lists and the current one does not, each message once, and nothing
    else. When every name of the previous descriptor is also in the current
    one, in its own collection, the result is empty, whatever the current
    descriptor adds. *)
Theorem compare_interfaces_reports_removed_symbols (previous current : Interface) :
  NoDup (compare_interfaces previous current)
  ∧ (∀ change,
       change ∈ compare_interfaces previous current
       ↔ (∃ func, func ∈ InterfaceDefinition.functions previous
                  ∧ (func ∉ InterfaceDefinition.functions current)
                  ∧ change = removed_function func)
         ∨ (∃ struct, struct ∈ InterfaceDefinition.structures previous
                      ∧ (struct ∉ InterfaceDefinition.structures current)
                      ∧ change = removed_structure struct)
         ∨ (∃ const, const ∈ InterfaceDefinition.constants previous
                     ∧ (const ∉ InterfaceDefinition.constants current)
                     ∧ change = removed_constant const))
  ∧ ((∀ x, x ∈ InterfaceDefinition.functions previous
           → x ∈ InterfaceDefinition.functions current) →
     (∀ x, x ∈ InterfaceDefinition.structures previous
           → x ∈ InterfaceDefinition.structures current) →
     (∀ x, x ∈ InterfaceDefinition.constants previous
           → x ∈ InterfaceDefinition.constants current) →
     compare_interfaces previous current = []).
Proof.
  rw compare_interfaces_spec. split_and!.
  - apply NoDup_app. split_and!.
    + apply (@NoDup_fmap_2 _ _ _ removed_function_inj), NoDup_set_iter.
    + intros m (f & -> & _)%list_elem_of_fmap [Hs|Hc]%elem_of_app.
      * apply list_elem_of_fmap in Hs as (s & Heq & _).
        by apply (removed_messages_differ f s) in Heq.
      * apply list_elem_of_fmap in Hc as (c & Heq & _).
        by apply (removed_messages_differ f c) in Heq.
    + apply NoDup_app. split_and!.
      * apply (@NoDup_fmap_2 _ _ _ removed_structure_inj), NoDup_set_iter.
      * intros m (s & -> & _)%list_elem_of_fmap (c & Heq & _)%list_elem_of_fmap.
        by apply (removed_messages_differ s c) in Heq.
      * apply (@NoDup_fmap_2 _ _ _ removed_constant_inj), NoDup_set_iter.
  - intros change. rw !elem_of_app !list_elem_of_fmap.
    assert (∀ (msg : string → string) (p c : list string),
      (∃ y, change = msg y ∧ y ∈ set_iter (py_set p ∖ py_set c))
      ↔ ∃ y, y ∈ p ∧ (y ∉ c) ∧ change = msg y) as Hside.
    { intros msg p c. split.
      - intros (y & -> & Hy). rw elem_of_set_iter elem_of_py_set_difference in Hy.
        exists y. tauto.
      - intros (y & Hp & Hc & ->). exists y. split; [done|].
        rw elem_of_set_iter elem_of_py_set_difference. tauto. }
    by rw !Hside.
  - intros Hf Hs Hc. rw !py_set_difference_empty // set_iter_empty //.
Qed.

End compare.


Lemma compare_interfaces_reports_removed_symbols_witness :
  compare_interfaces (O := elements_order) revision_one revision_two = [].
Proof.
  apply (proj2 (proj2 (compare_interfaces_reports_removed_symbols (O := elements_order)
                         revision_one revision_two))).
  - intros x ->%list_elem_of_singleton. left.
  - intros x ->%list_elem_of_singleton. left.
  - intros x ->%list_elem_of_singleton. left.
Defined.

(** ** C7 and C8: the descriptor of a header *)


Lemma parse_content_spec (n p content : string) :
  parse_content (InterfaceDefinition.new n p) content
  = InterfaceDefinition.mk n p
      (map (group 2) (finditer function_pattern content))
      (map (group 1) (finditer struct_pattern content))
      (map (group 1) (finditer define_pattern content))
      "1.0.0"
      (kept_includes content).
Proof.
  rw /parse_content /InterfaceDefinition.new /kept_includes /=.
  rw !fold_left_snoc.
  by rw (fold_left_snoc_if (λ m, not_system_include (group 1 m)) (group 1)).
Qed.





(** C8 (as amended). For a file that cannot be read, [parse_header_file]
    raises nothing: it returns the descriptor named after the stem of the
    path, with the path, the default version and empty collections, and the
    only trace of the failure is one log record, at the level ERROR (not a
    warning). *)
Theorem parse_header_file_unreadable (env : Env) (file_path e : string) :
  read_text env file_path = inr e →
  parse_header_file env file_path
  = (InterfaceDefinition.mk (PyPath.stem file_path) file_path [] [] [] "1.0.0" [],
     [Log ERROR ("Failed to parse " +:+ file_path +:+ ": " +:+ e)]).
Proof. intros Hread. by rw /parse_header_file Hread. Qed.

Lemma parse_header_file_unreadable_witness :
  parse_header_file twice_env "kernel/include/missing.h"
  = (InterfaceDefinition.mk "missing" "kernel/include/missing.h" [] [] [] "1.0.0" [],
     [Log ERROR ("Failed to parse " +:+ "kernel/include/missing.h" +:+ ": "
                 +:+ "[Errno 2] No such file or directory")]).
Proof.
  exact (parse_header_file_unreadable twice_env "kernel/include/missing.h"
           "[Errno 2] No such file or directory" eq_refl).
Defined.

(* The claim as stated fails: the record of the failure has the level ERROR,
   and no record has the level WARNING. *)
Lemma parse_header_file_logs_an_error :
  map level (parse_header_file twice_env "kernel/include/missing.h").2 = [ERROR]
  ∧ filter (λ r, level r = WARNING)
      (parse_header_file twice_env "kernel/include/missing.h").2 = [].
Proof. by vm_compute. Qed.

(** ** C1 and C9: the interfaces of a component *)


Lemma filter_none {A : Type} (P : A → Prop) `{∀ x, Decision (P x)} (l : list A) :
  (∀ x, x ∈ l → ¬ P x) → filter P l = [].
Proof.
  induction l as [|x l IH]; intros Hno; [done|].
  rw filter_cons_False; [apply IH; intros y Hy; apply Hno; by right|apply Hno; left].
Qed.

Lemma scan_includes_spec (content : string) (required : list string) :
  scan_includes content required
  = required ++ map PyPath.name (filter (λ inc, local_include inc = true)
                                   (header_includes content)).
Proof.
  rw /scan_includes /header_includes.
  rw (fold_left_snoc_if (λ m, local_include (group 1 m)) (λ m, PyPath.name (group 1 m))).
  f_equal. generalize (finditer header_include_pattern content). intros l.
  induction l as [|m l IH]; simpl; [done|].
  destruct (local_include (group 1 m)) eqn:Hl.
  - rw !filter_cons_True //=. by rw IH.
  - rw !filter_cons_False //; congruence.
Qed.

Lemma local_include_spec (included_file : string) :
  local_include included_file = true
  ↔ Str.startswith included_file "std" = false ∧ substring "/" included_file.
Proof.
  rw /local_include andb_true_iff negb_true_iff contains_spec //.
Qed.

Lemma analyze_files_spec (env : Env) (files : list string)
    (provided required : list string) (logs : list log_record) :
  ∃ logs',
    fold_left (analyze_file env) files (provided, required, logs)
    = (provided ++ flat_map file_provisions files,
       required ++ flat_map (file_requirements env) files,
       logs').
Proof.
  revert provided required logs.
  induction files as [|f files IH]; intros provided required logs; simpl.
  { exists logs. by rw !app_nil_r. }
  rw /file_provisions /file_requirements.
  destruct (Str.endswith f ".h") eqn:Hh; simpl.
  - destruct (read_text env f) as [content|e] eqn:Hread; simpl.
    + destruct (IH (provided ++ [PyPath.name f]) (scan_includes content required) logs)
        as (logs' & ->).
      exists logs'. rw scan_includes_spec (scan_includes_spec content []).
      by rw -!app_assoc.
    + destruct (IH (provided ++ [PyPath.name f]) required
                  (logs ++ [Log WARNING ("Could not analyze " +:+ f +:+ ": " +:+ e)]))
        as (logs' & ->).
      exists logs'. by rw -!app_assoc.
  - destruct (IH provided required logs) as (logs' & ->). by exists logs'.
Qed.

Section analyze.
Context `{O : SetOrder}.

Lemma analyze_component_interfaces_spec (env : Env) (component : Component) :
  AgentComponent.interfaces_provided (analyze_component_interfaces env component).1
  = dedup_list (AgentComponent.interfaces_provided component
                ++ flat_map file_provisions (AgentComponent.file_paths component))
  ∧ AgentComponent.interfaces_required (analyze_component_interfaces env component).1
    = dedup_list (AgentComponent.interfaces_required component
                  ++ flat_map (file_requirements env) (AgentComponent.file_paths component))
  ∧ AgentComponent.name (analyze_component_interfaces env component).1
    = AgentComponent.name component.
Proof.
  rw /analyze_component_interfaces.
  destruct (analyze_files_spec env (AgentComponent.file_paths component)
              (AgentComponent.interfaces_provided component)
              (AgentComponent.interfaces_required component) []) as (logs' & ->).
  done.
Qed.

(** C1 (as amended). The required-interface list that
    [analyze_component_interfaces] returns has no duplicates, and neither
    has the provided-interface list, but nothing is taken out of it: it holds
    every name the component required before and every name that the
    includes of an owned header add, also a name that the component itself
    provides. Such a requirement never makes the component depend on
    itself, for the dependency graph has no edge from a component to itself;
    among components with distinct names it does make it depend on every
    other component that provides the same name. *)
Theorem analyze_component_interfaces_keeps_own_interfaces (env : Env)
    (component : Component) :
  NoDup (AgentComponent.interfaces_required (analyze_component_interfaces env component).1)
  ∧ NoDup (AgentComponent.interfaces_provided (analyze_component_interfaces env component).1)
  ∧ (∀ r, r ∈ AgentComponent.interfaces_required
                (analyze_component_interfaces env component).1
          ↔ r ∈ AgentComponent.interfaces_required component
            ∨ ∃ file_path, file_path ∈ AgentComponent.file_paths component
                           ∧ r ∈ file_requirements env file_path)
  ∧ (∀ (components : list Component) (k : string),
       ¬ edge (build_dependency_graph components) k k)
  ∧ (∀ (components : list Component) (c other : Component) (i : string),
       NoDup (map AgentComponent.name components) →
       c ∈ components → other ∈ components →
       AgentComponent.name c ≠ AgentComponent.name other →
       i ∈ AgentComponent.interfaces_required c →
       i ∈ AgentComponent.interfaces_provided c →
       i ∈ AgentComponent.interfaces_provided other →
       edge (build_dependency_graph components)
         (AgentComponent.name c) (AgentComponent.name other)).
Proof.
  destruct (analyze_component_interfaces_spec env component) as (-> & -> & _).
  split_and!; [apply NoDup_dedup_list..| | |].
  - intros r. by rw elem_of_dedup_list elem_of_app elem_of_flat_map.
  - intros components k Hedge.
    destruct (build_dependency_graph_sound components) as [Hedges _].
    by destruct (Hedges k k Hedge) as [Hne _].
  - intros components c other i Hnd Hc Hother Hne Hreq _ Hprov.
    destruct (build_dependency_graph_exact components Hnd) as [_ Hedges].
    apply Hedges. split; [done|]. by exists c, other, i.
Qed.

(** C9. After [analyze_component_interfaces] a name is among the required
    interfaces exactly when it was there before, or it is the last path
    component of an include target that occurs in a readable owned file
    whose path ends in .h, contains a slash and does not start with std.
    So the includes of a header add nothing when none of their targets
    contains a slash, as for a bare local header. *)
Theorem required_interfaces_come_from_qualified_includes (env : Env)
    (component : Component) :
  (∀ r, r ∈ AgentComponent.interfaces_required
              (analyze_component_interfaces env component).1
        ↔ r ∈ AgentComponent.interfaces_required component
          ∨ ∃ file_path content included_file,
              file_path ∈ AgentComponent.file_paths component
              ∧ Str.endswith file_path ".h" = true
              ∧ read_text env file_path = inl content
              ∧ included_file ∈ header_includes content
              ∧ Str.startswith included_file "std" = false
              ∧ substring "/" included_file
              ∧ r = PyPath.name included_file)
  ∧ (∀ content required,
       (∀ included_file, included_file ∈ header_includes content →
                         ¬ substring "/" included_file) →
       scan_includes content required = required).
Proof.
  split.
  - intros r. destruct (analyze_component_interfaces_spec env component) as (_ & -> & _).
    rw elem_of_dedup_list elem_of_app elem_of_flat_map.
    apply or_iff_compat_l. split.
    + intros (f & Hf & Hr). rw /file_requirements in Hr.
      destruct (Str.endswith f ".h") eqn:Hh; [|by apply elem_of_nil in Hr].
      destruct (read_text env f) as [content|e] eqn:Hread; [|by apply elem_of_nil in Hr].
      rw scan_includes_spec app_nil_l in Hr.
      apply list_elem_of_fmap in Hr as (inc & -> & Hinc).
      apply list_elem_of_filter in Hinc as [Hlocal Hinc].
      apply local_include_spec in Hlocal as [Hstd Hslash].
      exists f, content, inc. done.
    + intros (f & content & inc & Hf & Hh & Hread & Hinc & Hstd & Hslash & ->).
      exists f. split; [done|]. rw /file_requirements Hh Hread scan_includes_spec app_nil_l.
      apply list_elem_of_fmap. exists inc. split; [done|].
      apply list_elem_of_filter. split; [|done]. by apply local_include_spec.
  - intros content required Hbare. rw scan_includes_spec.
    assert (filter (λ inc, local_include inc = true) (header_includes content) = []) as ->.
    { apply filter_none. intros inc Hinc Hlocal.
      apply local_include_spec in Hlocal as [_ Hslash]. by apply (Hbare inc). }
    by rw app_nil_r.
Qed.

End analyze.

Lemma required_interfaces_come_from_qualified_includes_witness :
  header_includes bare_include_text = ["memory_interface.h"]
  ∧ scan_includes bare_include_text [] = [].
Proof.
  split; [by vm_compute|].
  apply (proj2 (required_interfaces_come_from_qualified_includes (O := elements_order)
                  self_env self_component)).
  intros inc Hinc Hslash.
  assert (inc = "memory_interface.h") as ->.
  { apply list_elem_of_singleton. revert Hinc. by vm_compute. }
  apply contains_spec in Hslash. by vm_compute in Hslash.
Defined.

(* The claim as stated fails: the header of the component includes itself
   through a directory, and its name is both provided and required. *)
Lemma analyze_component_interfaces_requires_own_interface :
  AgentComponent.interfaces_provided
    (analyze_component_interfaces (O := elements_order) self_env self_component).1
  = ["types.h"]
  ∧ AgentComponent.interfaces_required
      (analyze_component_interfaces (O := elements_order) self_env self_component).1
    = ["types.h"].
Proof. by vm_compute. Qed.

(** ** C2 and C10: the issue list of a run *)


Lemma missing_issue_error (n i : string) : DependencyIssue.severity (missing_issue n i) = "error".
Proof. done. Qed.

Lemma ownership_issue_severity (i : string) (ps : list string) :
  error_or_warning (ownership_issue i ps).
Proof.
  unfold error_or_warning.
  change (DependencyIssue.severity (ownership_issue i ps)) with (ownership_severity i).
  unfold ownership_severity.
  destruct (existsb (λ critical, Str.contains critical i) critical_markers);
    [by left|by right].
Qed.

(* The components [discover_components] returns, entry by entry of the
   ownership table. *)
Lemma discover_components_spec (env : Env) (project_root : string) :
  (discover_components env project_root).1
  = flat_map (discovered env project_root) agent_components.
Proof.
  unfold discover_components. generalize agent_components. intros table.
  assert (∀ components logs,
    (fold_left
       (λ '(components, logs) '(agent_type, paths),
          let component := AgentComponent.new (agent_type +:+ "-component") agent_type in
          let file_paths :=
            fold_left (λ acc path_pattern, acc ++ resolve_pattern env project_root path_pattern)
              paths (AgentComponent.file_paths component) in
          let component :=
            AgentComponent.mk (AgentComponent.name component) agent_type file_paths [] [] [] in
          match file_paths with
          | [] => (components, logs)
          | _ :: _ =>
              (components ++ [component],
               logs ++ [Log DEBUG ("Discovered component " +:+ AgentComponent.name component
                                   +:+ " with " +:+ pretty (length file_paths) +:+ " files")])
          end)
       table (components, logs)).1
    = components ++ flat_map (discovered env project_root) table) as Hgen.
  { induction table as [|[agent paths] table IH]; intros components logs.
    - by rw /= app_nil_r.
    - cbn [fold_left flat_map]. unfold discovered at 1. cbn [fst snd].
      unfold owned_files at 1 2.
      rw (fold_left_flat_map (resolve_pattern env project_root) paths) app_nil_l.
      destruct (flat_map (resolve_pattern env project_root) paths) as [|f files] eqn:Hfiles.
      + rw IH //.
      + rw IH -app_assoc //. }
  apply (Hgen [] []).
Qed.

Section run.
Context `{O : SetOrder} `{I : Interpreter}.

(* [main] validates at most one component per agent of the table, so the
   search of the Validator has room for them. *)
Lemma analyzed_components_length (env : Env) (project_root : string) :
  length (analyzed_components env project_root) < recursion_frames.
Proof.
  assert (length (analyzed_components env project_root) ≤ length agent_components);
    [|pose proof recursion_frames_table; lia].
  unfold analyzed_components. rw length_map discover_components_spec.
  induction agent_components as [|entry table IH]; [done|].
  cbn [flat_map]. rw length_app. unfold discovered at 1.
  destruct (owned_files env project_root entry.2); simpl; lia.
Qed.

Lemma check_changed_file_spec (env : Env) (project_root base_commit : string)
    (issues : list Issue) (logs : list log_record) (file_path : string) :
  ∃ name changes logs',
    check_changed_file env project_root base_commit (issues, logs) file_path
    = (issues ++ map (change_issue file_path name) changes, logs').
Proof.
  rw /check_changed_file.
  destruct (bool_decide (file_path = EmptyString) || negb (Str.endswith file_path ".h")).
  { exists EmptyString, [], logs. by rw app_nil_r. }
  destruct (negb (path_exists env (PyPath.join project_root file_path))).
  { exists EmptyString, [], logs. by rw app_nil_r. }
  destruct (parse_header_file env (PyPath.join project_root file_path))
    as [current logs1].
  destruct (git_show env base_commit file_path) as [e|returncode stdout].
  { eexists EmptyString, [], _. by rw app_nil_r. }
  destruct (decide (returncode = 0%Z)) as [Hzero|Hnonzero]; last first.
  { eexists EmptyString, [], _. by rw app_nil_r. }
  destruct (temp_file env stdout) as [temp_path|e'].
  - destruct (parse_header_file (with_file env temp_path stdout) temp_path)
      as [previous logs2].
    eexists (InterfaceDefinition.name current), (compare_interfaces previous current), _.
    by rw (fold_left_snoc (change_issue file_path (InterfaceDefinition.name current))).
  - eexists EmptyString, [], _. by rw app_nil_r.
Qed.

(* Every issue of the Differ is an error. *)
Lemma check_interface_changes_errors (env : Env) (project_root base_commit : string) :
  Forall (λ i, DependencyIssue.severity i = "error")
    (check_interface_changes env project_root base_commit).1.
Proof.
  rw /check_interface_changes. destruct (git_diff env base_commit) as [stdout|e];
    [|by apply Forall_nil].
  assert (∀ files issues logs,
    Forall (λ i, DependencyIssue.severity i = "error") issues →
    Forall (λ i, DependencyIssue.severity i = "error")
      (fold_left (check_changed_file env project_root base_commit) files (issues, logs)).1)
    as Hloop.
  { induction files as [|f files IH]; intros issues logs Hissues; [done|].
    cbn [fold_left].
    destruct (check_changed_file_spec env project_root base_commit issues logs f)
      as (name & changes & logs' & ->).
    apply IH. apply Forall_app. split; [done|].
    apply Forall_forall. by intros i (change & -> & _)%list_elem_of_fmap. }
  by apply Hloop.
Qed.

Lemma validate_interface_compatibility_severities (components : list Component)
    (issues : list Issue) :
  validate_interface_compatibility components = Some issues →
  Forall error_or_warning issues.
Proof.
  intros (names & -> & _)%validate_interface_compatibility_returns.
  rw check_missing_interfaces_spec app_nil_l. rw !Forall_app. split_and!.
  - apply Forall_forall. intros i (c & _ & (r & -> & _)%list_elem_of_fmap)%elem_of_flat_map.
    by left.
  - apply Forall_forall. intros i (n & -> & _)%list_elem_of_fmap. by left.
  - apply Forall_forall. intros i (e & -> & _)%list_elem_of_fmap.
    apply ownership_issue_severity.
Qed.

Lemma main_issues_spec (env : Env) (project_root : string) (check_changes : option string) :
  ∃ validated,
    validate_interface_compatibility (analyzed_components env project_root)
    = Some validated
    ∧ main_issues env project_root check_changes
      = Some (validated ++ change_issues env project_root check_changes).
Proof.
  destruct (validate_interface_compatibility_total (analyzed_components env project_root)
              (analyzed_components_length env project_root)) as (validated & Hv).
  exists validated. split; [done|]. revert Hv.
  rw /main_issues /analyzed_components /change_issues.
  destruct (discover_components env project_root) as [components logs]. simpl.
  intros ->.
  destruct check_changes as [base|]; [|by rw app_nil_r].
  destruct (decide (base = EmptyString)); [by rw app_nil_r|done].
Qed.

(** C10. Every issue the Validator returns, for every component list, and
    every issue of the Compatibility Differ, in every environment, has the
    severity error or warning. So the list that [main] hands to the reporter
    holds no issue of severity info: their count is zero. *)
Theorem no_check_emits_an_info_issue :
  (∀ (components : list Component) (issues : list Issue),
     validate_interface_compatibility components = Some issues →
     Forall error_or_warning issues)
  ∧ (∀ (env : Env) (project_root base_commit : string),
       Forall error_or_warning (check_interface_changes env project_root base_commit).1)
  ∧ (∀ (env : Env) (project_root : string) (check_changes : option string),
       ∃ issues,
         main_issues env project_root check_changes = Some issues
         ∧ Forall error_or_warning issues
         ∧ count_severity "info" issues = 0).
Proof.
  assert (∀ (env : Env) (project_root base_commit : string),
    Forall error_or_warning (check_interface_changes env project_root base_commit).1)
    as Hdiffer.
  { intros env project_root base_commit.
    eapply Forall_impl; [apply check_interface_changes_errors|]. intros i Hi. by left. }
  split_and!; [apply validate_interface_compatibility_severities|exact Hdiffer|].
  intros env project_root check_changes.
  destruct (main_issues_spec env project_root check_changes) as (validated & Hv & ->).
  pose proof (validate_interface_compatibility_severities _ _ Hv) as Hsev.
  assert (Forall error_or_warning
            (validated ++ change_issues env project_root check_changes)) as Hall.
  { apply Forall_app. split; [done|]. rw /change_issues.
    destruct check_changes as [base|]; [|by apply Forall_nil].
    destruct (decide (base = EmptyString)); [by apply Forall_nil|apply Hdiffer]. }
  eexists. split_and!; [done|done|].
  rw /count_severity /issues_of_severity. apply length_zero_iff_nil.
  apply filter_none. intros i Hi Hinfo.
  rw Forall_forall in Hall. destruct (Hall i Hi) as [He|Hw]; congruence.
Qed.

(** C2 (as amended). The list [main] hands to the reporter is the list of
    the Validator followed, when the Differ runs, by the list of the Differ,
    each in the order of production: the unresolved interfaces, then the
    cycles, then the ownership conflicts, then the breaking changes. No
    step sorts it. *)
Theorem main_issues_in_order_of_production (env : Env) (project_root : string)
    (check_changes : option string) :
  ∃ names,
    main_issues env project_root check_changes
    = Some (check_missing_interfaces
              (build_interface_providers (analyzed_components env project_root))
              (analyzed_components env project_root) []
            ++ map cycle_issue names
            ++ map (λ e, ownership_issue e.1 e.2)
                 (filter (λ e, 1 < length e.2)
                    (build_interface_providers (analyzed_components env project_root)))
            ++ change_issues env project_root check_changes).
Proof.
  destruct (main_issues_spec env project_root check_changes) as (validated & Hv & ->).
  destruct (validate_interface_compatibility_returns _ _ Hv) as (names & -> & _).
  exists names. by rw -!app_assoc.
Qed.

End run.

(* The claim as stated fails: the ownership warning of the Validator comes
   before the breaking-change error of the Differ. *)
Lemma main_issues_warning_before_error :
  main_issues (O := elements_order) (I := python_default) sched_env "." (Some "HEAD~1")
  = Some [ownership_issue "sched.h"
            ["kernel-architect-component"; "process-scheduler-component"];
          change_issue "kernel/process/sched.h" "sched" (removed_function "sched_old")]
  ∧ map DependencyIssue.severity
      [ownership_issue "sched.h"
         ["kernel-architect-component"; "process-scheduler-component"];
       change_issue "kernel/process/sched.h" "sched" (removed_function "sched_old")]
    = ["warning"; "error"].
Proof. by vm_compute. Qed.

(** ** The cycle check finds every cycle *)


Lemma reaches_cycle_successor {A : Type} (R : relation A) (x : A) :
  reaches_cycle R x → ∃ n, R x n ∧ reaches_cycle R n.
Proof.
  intros (y & Hxy & Hy). apply rtc_inv in Hxy as [->|(n & Hxn & Hny)].
  - unfold on_cycle in Hy. inversion Hy as [? ? Hstep|? n ? Hstep Hrest]; subst.
    + exists y. split; [done|]. exists y. split; [done|by apply tc_once].
    + exists n. split; [done|]. exists y. split; [by apply tc_rtc|done].
  - exists n. split; [done|]. by exists y.
Qed.

Section complete.
Context `{O : SetOrder} (g : dict (gset string)).

Lemma has_cycle_false_clean fuel node st st' :
  has_cycle fuel g node st = Some (false, st') →
  finished_clean g st →
  finished_clean g st' ∧ rec_stack st' = rec_stack st ∧ visited st ⊆ visited st'
  ∧ node ∈ visited st' ∧ node ∉ rec_stack st'.
Proof.
  revert node st st'. induction fuel as [|fuel IH]; intros node st st'; [done|].
  simpl. destruct (decide (node ∈ rec_stack st)) as [Hin|Hnin]; [done|].
  destruct (decide (node ∈ visited st)) as [Hv|Hfresh].
  { intros [= <-] Hclean. done. }
  intros Hrun Hclean.
  assert (∀ l s,
    visit_neighbors (has_cycle fuel g) node l s = Some (false, st') →
    finished_clean g s →
    ∃ s_end, st' = Dfs (visited s_end) (rec_stack s_end ∖ {[node]})
             ∧ finished_clean g s_end ∧ rec_stack s_end = rec_stack s
             ∧ visited s ⊆ visited s_end
             ∧ Forall (λ n, n ∈ visited s_end ∧ n ∉ rec_stack s_end) l) as Hloop.
  { induction l as [|n l IHl]; intros s Hl Hs.
    - simpl in Hl. injection Hl as <-. exists s. split_and!; [by destruct s|done..].
    - simpl in Hl. destruct (has_cycle fuel g n s) as [[[] s2]|] eqn:Hcall; [done| |done].
      destruct (IH _ _ _ Hcall Hs) as (Hs2 & Hrec2 & Hvis2 & Hn2 & Hn2').
      destruct (IHl s2 Hl Hs2) as (s_end & -> & Hend & Hrec & Hvis & Hall).
      exists s_end. split_and!; [done|done|congruence|set_solver|].
      apply Forall_cons. split; [|done]. split; [set_solver|]. by rw Hrec. }
  set (st1 := Dfs _ _) in Hrun.
  destruct (Hloop _ st1 Hrun) as (s_end & -> & Hend & Hrec & Hvis & Hall).
  { intros x Hx Hx'. simpl in Hx, Hx'. apply Hclean; set_solver. }
  simpl in Hrec, Hvis. simpl.
  assert (rec_stack s_end ∖ {[node]} = rec_stack st) as Hback.
  { rw Hrec. apply set_eq. intros x. rw elem_of_difference elem_of_union !elem_of_singleton.
    split; [by intros [[->|?] ?]|]. intros Hx. split; [by right|]. by intros ->. }
  split_and!; [|done|set_solver|set_solver|by rw Hback].
  intros x Hx Hx'. simpl in Hx, Hx'. destruct (decide (x = node)) as [->|Hne].
  - intros (n & Hedge & Hn)%reaches_cycle_successor.
    rw Forall_forall in Hall. destruct (Hall n) as [Hnv Hnr].
    { by apply elem_of_set_iter. }
    by apply (Hend n).
  - apply Hend; [done|]. intros Hr. apply Hx'. rw elem_of_difference elem_of_singleton //.
Qed.

Lemma check_roots_extends fuel roots st issues r :
  check_roots fuel g roots st issues = Some r → ∃ added, r = issues ++ added.
Proof.
  revert st issues. induction roots as [|n roots IH]; intros st issues; simpl.
  - intros [= <-]. exists []. by rw app_nil_r.
  - destruct (decide (n ∈ visited st)); [apply IH|].
    destruct (has_cycle fuel g n st) as [[[] st']|]; [|apply IH|done].
    intros (added & ->)%IH. exists (cycle_issue n :: added). by rw -app_assoc.
Qed.

(* When the loop over the roots adds no issue, no cycle can be reached from
   any root. *)
Lemma check_roots_silent fuel roots st issues :
  check_roots fuel g roots st issues = Some issues →
  finished_clean g st → rec_stack st = ∅ →
  ∀ r, r ∈ roots → ¬ reaches_cycle (edge g) r.
Proof.
  revert st. induction roots as [|n roots IH]; intros st Hrun Hclean Hempty r Hr.
  { by apply elem_of_nil in Hr. }
  simpl in Hrun. destruct (decide (n ∈ visited st)) as [Hv|Hfresh].
  { apply elem_of_cons in Hr as [->|Hr]; [|by eapply IH].
    apply Hclean; [done|]. rw Hempty. apply not_elem_of_empty. }
  destruct (has_cycle fuel g n st) as [[[] st']|] eqn:Hcall; [|clear Hfresh|done].
  - apply check_roots_extends in Hrun as (added & Heq).
    apply (f_equal length) in Heq. rw !length_app /= in Heq. lia.
  - destruct (has_cycle_false_clean _ _ _ _ Hcall Hclean) as (Hc' & Hrec & _ & Hnv & Hnr).
    apply elem_of_cons in Hr as [->|Hr]; [by apply Hc'|].
    eapply IH; [done|done|congruence|done].
Qed.

End complete.

Lemma on_cycle_is_component (components : list Component) (x : string) :
  on_cycle (depends_on components) x →
  ∃ c, c ∈ components ∧ AgentComponent.name c = x.
Proof.
  intros Hx. unfold on_cycle in Hx.
  assert (∃ n, depends_on components x n) as (n & _ & ca & _ & _ & Hca & _ & Hname & _).
  { inversion Hx; subst; eauto. }
  by exists ca.
Qed.

Section complete_claim.
Context `{O : SetOrder} `{I : Interpreter}.

(* A search that appends nothing has met no cycle. *)
Lemma check_circular_dependencies_silent (components : list Component)
    (issues : list Issue) (x : string) :
  NoDup (map AgentComponent.name components) →
  check_circular_dependencies components issues = Some issues →
  ¬ on_cycle (depends_on components) x.
Proof.
  intros Hnd Hrun Hx.
  destruct (build_dependency_graph_exact components Hnd) as [Hkeys Hedges].
  destruct (on_cycle_is_component components x Hx) as (c & Hc & Hname).
  unfold check_circular_dependencies in Hrun.
  apply (check_roots_silent _ _ _ _ _ Hrun) with (r := x).
  - intros z Hz. by apply not_elem_of_empty in Hz.
  - done.
  - rw Hkeys -Hname. apply list_elem_of_fmap. by exists c.
  - apply on_cycle_reaches. unfold on_cycle.
    eapply (tc_congruence id); [|exact Hx]. intros a b Hab. by apply Hedges.
Qed.

(* The names the search reports are none exactly when there is no cycle. *)
Lemma cycle_names_nonempty (components : list Component) (issues : list Issue)
    (names : list string) :
  NoDup (map AgentComponent.name components) →
  check_circular_dependencies components issues = Some (issues ++ map cycle_issue names) →
  (∀ n, n ∈ names → reaches_cycle (depends_on components) n) →
  names ≠ [] ↔ ∃ x, on_cycle (depends_on components) x.
Proof.
  intros Hnd Hrun Hnames. split.
  - destruct names as [|n names]; [done|]. intros _.
    destruct (Hnames n) as (y & _ & Hy); [left|]. by exists y.
  - intros (x & Hx) ->. simpl in Hrun. rw app_nil_r in Hrun.
    by apply (check_circular_dependencies_silent components issues x Hnd Hrun).
Qed.

(** With distinct component names, the cycle check returns whenever the
    list has fewer components than the interpreter lets calls of [has_cycle]
    nest, and whenever it returns it has appended at least one issue exactly
    when the dependency relation of the components has a directed cycle. *)
Theorem cycle_issue_iff_dependency_cycle (components : list Component)
    (issues : list Issue) :
  NoDup (map AgentComponent.name components) →
  (length components < recursion_frames →
   ∃ result, check_circular_dependencies components issues = Some result)
  ∧ ∀ result,
      check_circular_dependencies components issues = Some result →
      ∃ names,
        result = issues ++ map cycle_issue names
        ∧ (names ≠ [] ↔ ∃ x, on_cycle (depends_on components) x).
Proof.
  intros Hnd. split; [apply check_circular_dependencies_total|].
  intros result Hrun.
  destruct (check_circular_dependencies_returns components issues result Hrun)
    as (names & -> & _ & Hnames).
  exists names. split; [done|].
  apply (cycle_names_nonempty components issues names Hnd Hrun).
  intros n Hn. by destruct (Hnames n Hn) as [_ ?].
Qed.

End complete_claim.

Lemma cycle_issue_iff_dependency_cycle_witness :
  (length [ring_A; ring_B; ring_C] < recursion_frames (Interpreter := python_default) →
   ∃ result,
     check_circular_dependencies (O := elements_order) (I := python_default)
       [ring_A; ring_B; ring_C] [] = Some result)
  ∧ ∀ result,
      check_circular_dependencies (O := elements_order) (I := python_default)
        [ring_A; ring_B; ring_C] [] = Some result →
      ∃ names,
        result = [] ++ map cycle_issue names
        ∧ (names ≠ [] ↔ ∃ x, on_cycle (depends_on [ring_A; ring_B; ring_C]) x).
Proof.
  apply (cycle_issue_iff_dependency_cycle (O := elements_order) (I := python_default)
           [ring_A; ring_B; ring_C] []).
  repeat (apply NoDup_cons_2;
            [rw ?elem_of_cons; rw elem_of_nil; intuition discriminate|]).
  apply NoDup_nil_2.
Defined.

(** ** The dependency graph and the component registry *)

(** With distinct component names, the graph that
    [check_circular_dependencies] builds has the component names as its
    keys, in the order of the list, and an edge from [a] to [b] exactly when
    [a] and [b] are different names and the component [a] requires an
    interface that the component [b] provides. *)
Theorem dependency_graph_matches_dependencies (components : list Component) :
  NoDup (map AgentComponent.name components) →
  Dict.keys (build_dependency_graph components) = map AgentComponent.name components
  ∧ ∀ a b, edge (build_dependency_graph components) a b ↔ depends_on components a b.
Proof. apply build_dependency_graph_exact. Qed.

Lemma dependency_graph_matches_dependencies_witness :
  Dict.keys (build_dependency_graph [ring_A; ring_B; ring_C; outside_D])
  = ["A"; "B"; "C"; "D"]
  ∧ ∀ a b, edge (build_dependency_graph [ring_A; ring_B; ring_C; outside_D]) a b
           ↔ depends_on [ring_A; ring_B; ring_C; outside_D] a b.
Proof.
  apply (dependency_graph_matches_dependencies [ring_A; ring_B; ring_C; outside_D]).
  repeat (apply NoDup_cons_2;
            [rw ?elem_of_cons; rw elem_of_nil; intuition discriminate|]).
  apply NoDup_nil_2.
Defined.


Lemma agent_names_NoDup :
  NoDup (map (λ entry : string * list string, entry.1 +:+ "-component") agent_components).
Proof.
  assert (Inj (=) (=) (λ agent_type : string, agent_type +:+ "-component")) as Hinj.
  { intros a b Heq. by apply append_inj_r in Heq. }
  change (NoDup (map (λ agent_type : string, agent_type +:+ "-component")
                   (map fst agent_components))).
  apply (@NoDup_fmap_2 _ _ _ Hinj). cbn [map fst agent_components].
  repeat (apply NoDup_cons_2;
            [rw ?elem_of_cons; rw elem_of_nil; intuition discriminate|]).
  apply NoDup_nil_2.
Qed.

Lemma discovered_names_sublist (env : Env) (project_root : string)
    (table : dict (list string)) :
  sublist (map AgentComponent.name (flat_map (discovered env project_root) table))
    (map (λ entry : string * list string, entry.1 +:+ "-component") table).
Proof.
  induction table as [|[agent paths] table IH]; simpl; [done|].
  unfold discovered at 1. cbn [fst snd].
  destruct (owned_files env project_root paths); simpl.
  - by apply sublist_cons.
  - by apply sublist_skip.
Qed.

Section registry.
Context `{O : SetOrder}.

Lemma discovered_names_NoDup (env : Env) (project_root : string) :
  NoDup (map AgentComponent.name (discover_components env project_root).1).
Proof.
  rw discover_components_spec.
  exact (sublist_NoDup _ _ agent_names_NoDup
           (discovered_names_sublist env project_root agent_components)).
Qed.

Lemma analyzed_names_NoDup (env : Env) (project_root : string) :
  NoDup (map AgentComponent.name (analyzed_components env project_root)).
Proof.
  unfold analyzed_components. rw map_map.
  assert (map (λ component,
                 AgentComponent.name (analyze_component_interfaces env component).1)
            (discover_components env project_root).1
          = map AgentComponent.name (discover_components env project_root).1) as ->;
    [|apply discovered_names_NoDup].
  apply map_ext. intros c.
  by destruct (analyze_component_interfaces_spec env c) as (_ & _ & ->).
Qed.

(** [discover_components] returns one component per agent of the ownership
    table that owns at least one file, in the order of the table: its name
    is the agent type followed by -component, its files are those its path
    patterns resolve to, and it provides and requires nothing yet. The
    names are pairwise distinct, and they still are after
    [analyze_component_interfaces], so every run validates components with
    distinct names. *)
Theorem discover_components_distinct_nonempty (env : Env) (project_root : string) :
  (∀ c, c ∈ (discover_components env project_root).1 →
        AgentComponent.file_paths c ≠ []
        ∧ AgentComponent.interfaces_provided c = []
        ∧ AgentComponent.interfaces_required c = []
        ∧ ∃ agent_type paths,
            (agent_type, paths) ∈ agent_components
            ∧ AgentComponent.name c = agent_type +:+ "-component"
            ∧ AgentComponent.agent_type c = agent_type
            ∧ AgentComponent.file_paths c = owned_files env project_root paths)
  ∧ NoDup (map AgentComponent.name (discover_components env project_root).1)
  ∧ NoDup (map AgentComponent.name (analyzed_components env project_root)).
Proof.
  split_and!; [|apply discovered_names_NoDup|apply analyzed_names_NoDup].
  intros c. rw discover_components_spec elem_of_flat_map.
  intros ([agent paths] & Hentry & Hc). unfold discovered in Hc. cbn [fst snd] in Hc.
  destruct (owned_files env project_root paths) as [|f files] eqn:Hfiles;
    [by apply elem_of_nil in Hc|].
  apply list_elem_of_singleton in Hc as ->. simpl.
  split_and!; [done..|]. by exists agent, paths.
Qed.

End registry.

(** ** The Compatibility Differ, file by file *)


Lemma parse_header_file_name (env : Env) (file_path : string) :
  InterfaceDefinition.name (parse_header_file env file_path).1 = PyPath.stem file_path.
Proof.
  unfold parse_header_file. destruct (read_text env file_path); [|done].
  by rw parse_content_spec.
Qed.

Section differ.
Context `{O : SetOrder}.

Lemma check_changed_file_issues (env : Env) (project_root base_commit : string)
    (issues : list Issue) (logs : list log_record) (file_path : string) :
  (check_changed_file env project_root base_commit (issues, logs) file_path).1
  = issues
    ++ map (change_issue file_path (PyPath.stem (PyPath.join project_root file_path)))
         (file_changes env project_root base_commit file_path).
Proof.
  unfold check_changed_file, file_changes.
  destruct (bool_decide (file_path = EmptyString) || negb (Str.endswith file_path ".h"));
    [by rw app_nil_r|].
  destruct (negb (path_exists env (PyPath.join project_root file_path)));
    [by rw app_nil_r|].
  pose proof (parse_header_file_name env (PyPath.join project_root file_path)) as Hname.
  destruct (parse_header_file env (PyPath.join project_root file_path))
    as [current logs1]. simpl in Hname.
  destruct (git_show env base_commit file_path) as [e|returncode stdout];
    [by rw /= app_nil_r|].
  destruct (decide (returncode = 0%Z)) as [Hzero|Hnonzero]; [|by rw /= app_nil_r].
  destruct (temp_file env stdout) as [temp_path|e']; [|by rw /= app_nil_r].
  destruct (parse_header_file (with_file env temp_path stdout) temp_path)
    as [previous logs2]. cbn [fst].
  by rw (fold_left_snoc (change_issue file_path (InterfaceDefinition.name current))) Hname.
Qed.

Lemma check_changed_files_issues (env : Env) (project_root base_commit : string)
    (files : list string) (issues : list Issue) (logs : list log_record) :
  (fold_left (check_changed_file env project_root base_commit) files (issues, logs)).1
  = issues
    ++ flat_map
         (λ file_path,
            map (change_issue file_path (PyPath.stem (PyPath.join project_root file_path)))
              (file_changes env project_root base_commit file_path))
         files.
Proof.
  revert issues logs. induction files as [|f files IH]; intros issues logs.
  - by rw /= app_nil_r.
  - cbn [fold_left flat_map].
    pose proof (check_changed_file_issues env project_root base_commit issues logs f) as Hf.
    destruct (check_changed_file env project_root base_commit (issues, logs) f)
      as [issues' logs']. cbn [fst] in Hf. rw IH Hf -app_assoc //.
Qed.

Lemma elem_of_file_changes (env : Env) (project_root base_commit file_path change : string) :
  change ∈ file_changes env project_root base_commit file_path →
  file_path ≠ EmptyString
  ∧ Str.endswith file_path ".h" = true
  ∧ path_exists env (PyPath.join project_root file_path) = true
  ∧ ∃ stdout temp_path,
      git_show env base_commit file_path = ShowExit 0 stdout
      ∧ temp_file env stdout = inl temp_path
      ∧ change ∈ compare_interfaces
                   (parse_header_file (with_file env temp_path stdout) temp_path).1
                   (parse_header_file env (PyPath.join project_root file_path)).1.
Proof.
  unfold file_changes.
  destruct (bool_decide (file_path = EmptyString)) eqn:Hempty;
    [by intros ?%elem_of_nil|].
  destruct (Str.endswith file_path ".h") eqn:Hh; [|by intros ?%elem_of_nil].
  destruct (path_exists env (PyPath.join project_root file_path)) eqn:Hex;
    [|by intros ?%elem_of_nil]. simpl.
  destruct (git_show env base_commit file_path) as [e|returncode stdout];
    [by intros ?%elem_of_nil|].
  destruct (decide (returncode = 0%Z)) as [->|Hnonzero]; [|by intros ?%elem_of_nil].
  destruct (temp_file env stdout) as [temp_path|e'] eqn:Htemp; [|by intros ?%elem_of_nil].
  intros Hchange. apply bool_decide_eq_false in Hempty.
  split_and!; [done..|]. by exists stdout, temp_path.
Qed.

(** A changed file without usable history adds no issue: when the file does
    not exist under the project root, when [git show] raises or returns a
    code other than 0, or when the temporary copy cannot be written, the
    issue list is left as it was. *)
Theorem file_without_history_adds_no_issue (env : Env) (project_root base_commit : string)
    (issues : list Issue) (logs : list log_record) (file_path : string) :
  path_exists env (PyPath.join project_root file_path) = false
  ∨ (∃ e, git_show env base_commit file_path = ShowRaises e)
  ∨ (∃ returncode stdout,
       git_show env base_commit file_path = ShowExit returncode stdout
       ∧ (returncode ≠ 0%Z ∨ ∃ e, temp_file env stdout = inr e)) →
  (check_changed_file env project_root base_commit (issues, logs) file_path).1 = issues.
Proof.
  intros Hno. rw check_changed_file_issues.
  assert (file_changes env project_root base_commit file_path = []) as ->;
    [|by rw app_nil_r].
  destruct (file_changes env project_root base_commit file_path) as [|change rest] eqn:Hc;
    [done|]. exfalso.
  assert (change ∈ file_changes env project_root base_commit file_path) as Hin
    by (rw Hc; left).
  apply elem_of_file_changes in Hin as (_ & _ & Hex & out & tp & Hshow & Htemp & _).
  destruct Hno as [Hno|[(e & Hno)|(rc & out' & Hno & [Hrc|(e & Hno')])]]; try congruence.
Qed.

End differ.

Lemma file_without_history_adds_no_issue_witness :
  (check_changed_file (O := elements_order) locked_env "." "HEAD~1" ([], [])
     "kernel/fs/gone.h").1 = [].
Proof.
  apply (file_without_history_adds_no_issue (O := elements_order) locked_env "." "HEAD~1"
           [] [] "kernel/fs/gone.h").
  left. reflexivity.
Defined.

Section differ_issues.
Context `{O : SetOrder}.

Lemma file_changes_intro (env : Env) (project_root base_commit file_path : string)
    (stdout temp_path change : string) :
  Str.endswith file_path ".h" = true →
  path_exists env (PyPath.join project_root file_path) = true →
  git_show env base_commit file_path = ShowExit 0 stdout →
  temp_file env stdout = inl temp_path →
  change ∈ compare_interfaces
             (parse_header_file (with_file env temp_path stdout) temp_path).1
             (parse_header_file env (PyPath.join project_root file_path)).1 →
  change ∈ file_changes env project_root base_commit file_path.
Proof.
  intros Hh Hex Hshow Htemp Hchange. unfold file_changes.
  assert (bool_decide (file_path = EmptyString) = false) as ->.
  { apply bool_decide_eq_false. intros ->. discriminate Hh. }
  by rw Hh Hex /= Hshow /= Htemp.
Qed.

(** The issues of [check_interface_changes] are exactly the breaking changes
    of the changed headers. The changed files are the pieces that
    [changed_files] reads off the output of [git diff]: the output without
    the white space at its two ends, split at the line feeds. An issue is in
    the result if and only if one of these pieces is a path that ends in .h
    and that [exists] finds under the project root, [git show] returned 0
    for it and its output reached a
    temporary file, the message of the issue is a breaking change between
    the descriptor of that output and the descriptor of the current file,
    and the issue is the error that carries the path, the name of the parent
    directory of the path as component, the stem of the path as interface
    and no line number. *)
Theorem change_issue_iff_breaking_change_of_changed_header (env : Env)
    (project_root base_commit : string) (issue : Issue) :
  issue ∈ (check_interface_changes env project_root base_commit).1
  ↔ ∃ stdout file_path,
      git_diff env base_commit = inl stdout
      ∧ file_path ∈ changed_files stdout
      ∧ Str.endswith file_path ".h" = true
      ∧ path_exists env (PyPath.join project_root file_path) = true
      ∧ DependencyIssue.severity issue = "error"
      ∧ DependencyIssue.component issue = PyPath.parent_name file_path
      ∧ DependencyIssue.interface issue = PyPath.stem (PyPath.join project_root file_path)
      ∧ DependencyIssue.file_path issue = Some file_path
      ∧ DependencyIssue.line_number issue = None
      ∧ ∃ previous_text temp_path,
          git_show env base_commit file_path = ShowExit 0 previous_text
          ∧ temp_file env previous_text = inl temp_path
          ∧ DependencyIssue.message issue
            ∈ compare_interfaces
                (parse_header_file (with_file env temp_path previous_text) temp_path).1
                (parse_header_file env (PyPath.join project_root file_path)).1.
Proof.
  unfold check_interface_changes. split.
  - destruct (git_diff env base_commit) as [stdout|e]; [|by intros ?%elem_of_nil].
    rw check_changed_files_issues app_nil_l elem_of_flat_map.
    intros (f & Hf & (change & -> & Hchange)%list_elem_of_fmap).
    apply elem_of_file_changes in Hchange
      as (_ & Hh & Hex & out & tp & Hshow & Htemp & Hin).
    exists stdout, f. split_and!; [done..|]. by exists out, tp.
  - intros (stdout & f & -> & Hf & Hh & Hex & Hsev & Hcomp & Hint & Hpath & Hline
            & out & tp & Hshow & Htemp & Hin).
    rw check_changed_files_issues app_nil_l elem_of_flat_map.
    exists f. split; [done|]. apply list_elem_of_fmap.
    exists (DependencyIssue.message issue). split.
    + destruct issue as [sev comp iface msg fp ln]. simpl in *. by subst.
    + by apply (file_changes_intro env project_root base_commit f out tp).
Qed.

(** A changed header that exists but cannot be read is compared as an empty
    descriptor: every function, structure and constant that the previous
    revision declares is reported as removed. *)
Theorem unreadable_header_reports_every_symbol_removed (env : Env)
    (project_root base_commit : string) (issues : list Issue) (logs : list log_record)
    (file_path e previous_text temp_path : string) :
  Str.endswith file_path ".h" = true →
  path_exists env (PyPath.join project_root file_path) = true →
  read_text env (PyPath.join project_root file_path) = inr e →
  git_show env base_commit file_path = ShowExit 0 previous_text →
  temp_file env previous_text = inl temp_path →
  ∀ change,
    change ∈ map removed_function (map (group 2) (finditer function_pattern previous_text))
             ++ map removed_structure (map (group 1) (finditer struct_pattern previous_text))
             ++ map removed_constant (map (group 1) (finditer define_pattern previous_text)) →
    change_issue file_path (PyPath.stem (PyPath.join project_root file_path)) change
    ∈ (check_changed_file env project_root base_commit (issues, logs) file_path).1.
Proof.
  intros Hh Hex Hread Hshow Htemp change Hchange.
  rw check_changed_file_issues elem_of_app. right.
  apply list_elem_of_fmap. exists change. split; [done|].
  apply (file_changes_intro env project_root base_commit file_path previous_text temp_path);
    [done..|].
  assert (parse_header_file (with_file env temp_path previous_text) temp_path
          = (parse_content (InterfaceDefinition.new (PyPath.stem temp_path) temp_path)
               previous_text,
             [Log DEBUG (parsed_message
                (parse_content (InterfaceDefinition.new (PyPath.stem temp_path) temp_path)
                   previous_text))])) as ->.
  { unfold parse_header_file, with_file; simpl. by rw decide_True. }
  rw /(parse_header_file env) Hread parse_content_spec compare_interfaces_spec /=.
  rw !elem_of_app !list_elem_of_fmap in Hchange.
  rw !elem_of_app !list_elem_of_fmap.
  destruct Hchange as [(x & -> & Hx)|[(x & -> & Hx)|(x & -> & Hx)]];
    [left|right; left|right; right]; exists x; (split; [done|]);
    apply elem_of_set_iter, elem_of_py_set_difference; (split; [done|apply not_elem_of_nil]).
Qed.

End differ_issues.

Lemma unreadable_header_reports_every_symbol_removed_witness :
  change_issue "kernel/fs/vfs.h" (PyPath.stem (PyPath.join "." "kernel/fs/vfs.h"))
    (removed_function "vfs_open")
  ∈ (check_changed_file (O := elements_order) locked_env "." "HEAD~1" ([], [])
       "kernel/fs/vfs.h").1.
Proof.
  apply (unreadable_header_reports_every_symbol_removed (O := elements_order) locked_env
           "." "HEAD~1" [] [] "kernel/fs/vfs.h" "[Errno 13] Permission denied"
           ("int vfs_open(void);" +:+ nl) "/tmp/tmp5h2k9d_x.h");
    [reflexivity..|].
  vm_compute. left.
Defined.

(** ** The provider map, entry by entry *)


Lemma extended_app (entry : option (list string)) (a b : list string) :
  extended (extended entry a) b = extended entry (a ++ b).
Proof.
  destruct a as [|x a]; [done|]. destruct b as [|y b]; simpl.
  - by rw app_nil_r.
  - by rw -app_assoc.
Qed.

Lemma add_provider_get (pm : dict (list string)) (i n k : string) :
  Dict.get (add_provider pm i n) k
  = if decide (i = k) then Some (default [] (Dict.get pm i) ++ [n]) else Dict.get pm k.
Proof.
  unfold add_provider, Dict.mem.
  destruct (Dict.get pm i) as [ps|] eqn:Hget.
  - destruct (decide (i = k)) as [->|Hne]; [by rw dict_get_set_eq Hget|].
    by rw dict_get_set_ne.
  - rw dict_get_set_eq. destruct (decide (i = k)) as [->|Hne]; [by rw dict_get_set_eq|].
    by rw !dict_get_set_ne.
Qed.

Lemma add_providers_get (l : list string) (n : string) (pm : dict (list string)) (k : string) :
  Dict.get (fold_left (λ acc interface, add_provider acc interface n) l pm) k
  = extended (Dict.get pm k) (map (λ _, n) (filter (λ i, i = k) l)).
Proof.
  revert pm. induction l as [|i l IH]; intros pm; [done|].
  cbn [fold_left]. rw IH add_provider_get.
  destruct (decide (i = k)) as [->|Hne].
  - rw filter_cons_True //.
    change (map (λ _, n) (k :: filter (λ i, i = k) l))
      with ([n] ++ map (λ _ : string, n) (filter (λ i, i = k) l)).
    by rw -extended_app.
  - by rw filter_cons_False.
Qed.

Lemma build_interface_providers_get (components : list Component) (interface : string) :
  Dict.get (build_interface_providers components) interface
  = extended None (providers_of components interface).
Proof.
  unfold build_interface_providers.
  change (@None (list string)) with (Dict.get (@nil (string * list string)) interface).
  generalize (@nil (string * list string)).
  induction components as [|c cs IH]; intros pm; [done|].
  cbn [fold_left]. rw IH add_providers_get extended_app //.
Qed.

Lemma filter_eq_NoDup (l : list string) (x : string) :
  NoDup l → filter (λ i, i = x) l = if decide (x ∈ l) then [x] else [].
Proof.
  induction 1 as [|y l Hy Hnd IH]; [done|].
  destruct (decide (y = x)) as [->|Hne].
  - rw filter_cons_True // IH decide_False // decide_True //. left.
  - rw filter_cons_False // IH. destruct (decide (x ∈ l)) as [Hin|Hin].
    + rw decide_True //. by right.
    + rw decide_False //. rw elem_of_cons. intros [?|?]; by [apply Hne|apply Hin].
Qed.

Lemma map_ext_elem_of {A B : Type} (f g : A → B) (l : list A) :
  (∀ x, x ∈ l → f x = g x) → map f l = map g l.
Proof.
  induction l as [|a l IH]; intros Hfg; [done|]. simpl. f_equal.
  - apply Hfg. left.
  - apply IH. intros x Hx. apply Hfg. by right.
Qed.

Lemma NoDup_keys_filter {V : Type} (P : string * V → Prop) `{∀ e, Decision (P e)}
    (d : dict V) :
  NoDup (Dict.keys d) → NoDup (Dict.keys (filter P d)).
Proof.
  unfold Dict.keys. induction d as [|[k v] d IH]; [done|].
  simpl. intros [Hk Hnd]%NoDup_cons.
  assert (k ∉ map fst (filter P d)) as Hk'.
  { intros Hin. apply Hk. apply list_elem_of_fmap in Hin as (e & -> & He).
    apply list_elem_of_fmap. exists e. split; [done|].
    by apply list_elem_of_filter in He as [_ ?]. }
  destruct (decide (P (k, v))).
  - rw filter_cons_True //=. apply NoDup_cons. split; [done|by apply IH].
  - rw filter_cons_False //. by apply IH.
Qed.

(** The provider map lists, for each interface, the components that provide
    it, in the order of the component list: an interface that no component
    provides has no entry, and any other is mapped to the names of its
    providers, one name per listing. When no component lists an interface
    twice, as after [analyze_component_interfaces], the entry holds the name
    of each providing component once. *)
Theorem provider_map_lists_providers_in_order (components : list Component)
    (interface : string) :
  Dict.get (build_interface_providers components) interface
  = (match providers_of components interface with
     | [] => None
     | providers => Some providers
     end)
  ∧ (Forall (λ c, NoDup (AgentComponent.interfaces_provided c)) components →
     providers_of components interface
     = map AgentComponent.name
         (filter (λ c, interface ∈ AgentComponent.interfaces_provided c) components)).
Proof.
  split.
  - rw build_interface_providers_get.
    by destruct (providers_of components interface).
  - unfold providers_of. induction 1 as [|c cs Hc Hcs IH]; [done|].
    cbn [flat_map]. rw IH filter_eq_NoDup //.
    destruct (decide (interface ∈ AgentComponent.interfaces_provided c)).
    + by rw filter_cons_True.
    + by rw filter_cons_False.
Qed.

Section ownership.
Context `{O : SetOrder} `{I : Interpreter}.

(** The validator returns for every component list that has fewer
    components than the interpreter lets calls of [has_cycle] nest. Whenever
    it returns, it ends its list with the ownership issues: after the issues
    for unresolved interfaces and the issues for cycles comes one issue for
    each interface that is listed as provided more than once, and for no
    other; the issue names the providers of the interface in the order of
    the component list. *)
Theorem validator_reports_each_shared_interface (components : list Component) :
  (length components < recursion_frames →
   ∃ issues, validate_interface_compatibility components = Some issues)
  ∧ ∀ issues,
      validate_interface_compatibility components = Some issues →
      ∃ unresolved cycles shared,
        issues
        = unresolved ++ cycles
          ++ map (λ i, ownership_issue i (providers_of components i)) shared
        ∧ Forall (λ issue, ∃ n i, issue = missing_issue n i) unresolved
        ∧ Forall (λ issue, ∃ n, issue = cycle_issue n) cycles
        ∧ NoDup shared
        ∧ ∀ i, i ∈ shared ↔ 1 < length (providers_of components i).
Proof.
  split; [apply validate_interface_compatibility_total|].
  intros issues (names & -> & _ & _)%validate_interface_compatibility_returns.
  set (pm := build_interface_providers components).
  assert (∀ i ps, (i, ps) ∈ pm → ps = providers_of components i) as Hentry.
  { intros i ps Hin.
    apply dict_elem_of_get in Hin; [|apply build_interface_providers_NoDup].
    rw /pm build_interface_providers_get in Hin.
    destruct (providers_of components i); [done|]. simpl in Hin. congruence. }
  exists (check_missing_interfaces pm components []), (map cycle_issue names),
    (Dict.keys (filter (λ e, 1 < length e.2) pm)).
  split_and!.
  - do 2 f_equal. rw /Dict.keys map_map. apply map_ext_elem_of.
    intros [i ps] [_ Hin]%list_elem_of_filter. simpl. by rw (Hentry i ps Hin).
  - rw check_missing_interfaces_spec app_nil_l. apply Forall_forall.
    intros issue (c & _ & (r & -> & _)%list_elem_of_fmap)%elem_of_flat_map. eauto.
  - apply Forall_forall. intros issue (n & -> & _)%list_elem_of_fmap. eauto.
  - apply NoDup_keys_filter, build_interface_providers_NoDup.
  - intros i. rw /Dict.keys. split.
    + intros ([k ps] & -> & [Hlen Hin]%list_elem_of_filter)%list_elem_of_fmap.
      simpl in *. by rw -(Hentry k ps Hin).
    + intros Hlen. apply list_elem_of_fmap. exists (i, providers_of components i).
      split; [done|]. apply list_elem_of_filter. split; [done|].
      apply dict_get_elem_of. rw /pm build_interface_providers_get.
      destruct (providers_of components i); [simpl in Hlen; lia|done].
Qed.

End ownership.

(** ** What the patterns can extract *)


Lemma append_assoc (a b c : string) : (a +:+ b) +:+ c = a +:+ (b +:+ c).
Proof. induction a as [|x a IH]; [done|]. by rw !append_cons IH. Qed.

Lemma append_nil_r (a : string) : a +:+ EmptyString = a.
Proof. induction a as [|x a IH]; [done|]. by rw append_cons IH. Qed.

Lemma strip_prefix_spec (p s s' : string) : Str.strip_prefix p s = Some s' → s = p +:+ s'.
Proof.
  revert s. induction p as [|a p IH]; intros s; simpl.
  - by intros [= ->].
  - destruct s as [|b s]; [done|]. destruct (decide (a = b)) as [->|Hne]; [|done].
    intros ->%IH. by rw append_cons.
Qed.

Lemma take_append (w s : string) : Str.take (String.length w) (w +:+ s) = w.
Proof. induction w as [|c w IH]; [by destruct s|]. by rw append_cons /= IH. Qed.

Lemma consumed_append (w s : string) : consumed (w +:+ s) s = w.
Proof.
  unfold consumed. rw length_append.
  replace (String.length w + String.length s - String.length s) with (String.length w)
    by lia.
  apply take_append.
Qed.

Section matcher_sound.
Context {R : Type}.

Lemma star_k_sound (p : ascii → bool) (s : string) (k : string → option R) (res : R) :
  star_k p s k = Some res →
  ∃ w s', s = w +:+ s' ∧ all_chars p w = true ∧ k s' = Some res.
Proof.
  induction s as [|c s IH]; simpl.
  - intros Hk. by exists EmptyString, EmptyString.
  - destruct (p c) eqn:Hc; [|intros Hk; by exists EmptyString, (String c s)].
    destruct (star_k p s k) as [r|] eqn:Hstar.
    + intros [= ->]. destruct (IH eq_refl) as (w & s' & -> & Hw & Hk).
      exists (String c w), s'. split_and!; [done| |done]. by rw /= Hc Hw.
    + intros Hk. by exists EmptyString, (String c s).
Qed.

(* Whatever the matcher finds is a word of the pattern at the start of the
   text, and the continuation accepted what follows it. *)
Lemma rmatch_k_sound (r : regex) (s : string) (caps : list string)
    (k : string → list string → option R) (res : R) :
  rmatch_k r s caps k = Some res →
  ∃ w s' caps', s = w +:+ s' ∧ matches r w caps caps' ∧ k s' caps' = Some res.
Proof.
  revert s caps k. induction r as [l|p|p|p|r1 IH1 r2 IH2|r1 IH1]; intros s caps k; simpl.
  - destruct (Str.strip_prefix l s) as [s'|] eqn:Hs; [|done].
    intros Hk. exists l, s', caps. split_and!; [by apply strip_prefix_spec|constructor|done].
  - destruct s as [|c s]; [done|]. destruct (p c) eqn:Hc; [|done].
    intros Hk. exists (String c EmptyString), s, caps. split_and!; [done|by constructor|done].
  - intros (w & s' & -> & Hw & Hk)%star_k_sound.
    exists w, s', caps. split_and!; [done|by constructor|done].
  - destruct s as [|c s]; [done|]. destruct (p c) eqn:Hc; [|done].
    intros (w & s' & -> & Hw & Hk)%star_k_sound.
    exists (String c w), s', caps. split_and!; [done|by constructor|done].
  - intros (w1 & s1 & caps1 & -> & H1 & (w2 & s2 & caps2 & -> & H2 & Hk)%IH2)%IH1.
    exists (w1 +:+ w2), s2, caps2.
    split_and!; [by rw append_assoc|by econstructor|done].
  - intros (w & s' & caps' & -> & H1 & Hk)%IH1.
    rw consumed_append in Hk.
    exists w, s', (caps' ++ [w]). split_and!; [done|by constructor|done].
Qed.

End matcher_sound.

Lemma rmatch_sound (r : regex) (s : string) (caps : list string) (rest : string) :
  rmatch r s = Some (caps, rest) → ∃ w, s = w +:+ rest ∧ matches r w [] caps.
Proof.
  intros (w & s' & caps' & -> & Hm & [= -> ->])%rmatch_k_sound. by exists w.
Qed.

(* Every match of [finditer] is a word of the pattern that occurs in the
   text. *)
Lemma finditer_go_sound (r : regex) (skip : nat) (s : string) (caps : list string) :
  caps ∈ finditer_go r skip s → ∃ w, substring w s ∧ matches r w [] caps.
Proof.
  assert (∀ (c : ascii) (t w : string), substring w t → substring w (String c t)) as Hcons.
  { intros c t w (pre & suf & ->). by exists (String c pre), suf. }
  revert skip. induction s as [|c s IH]; intros skip; simpl; [by intros ?%elem_of_nil|].
  destruct skip as [|n].
  - destruct (rmatch r (String c s)) as [[caps0 rest]|] eqn:Hm.
    + intros [->|Hin]%elem_of_cons.
      * apply rmatch_sound in Hm as (w & Hs & Hw). exists w. split; [|done].
        exists EmptyString, rest. by rw Hs.
      * destruct (IH _ Hin) as (w & Hsub & Hw). exists w. split; [by apply Hcons|done].
    + intros Hin. destruct (IH _ Hin) as (w & Hsub & Hw). exists w.
      split; [by apply Hcons|done].
  - intros Hin. destruct (IH _ Hin) as (w & Hsub & Hw). exists w.
    split; [by apply Hcons|done].
Qed.

Lemma substring_trans (a b c : string) : substring a b → substring b c → substring a c.
Proof.
  intros (p1 & s1 & ->) (p2 & s2 & ->). exists (p2 +:+ p1), (s1 +:+ s2).
  by rw !append_assoc.
Qed.

Lemma substring_app_l (a w1 w2 : string) : substring a w1 → substring a (w1 +:+ w2).
Proof. intros (p & s & ->). exists p, (s +:+ w2). by rw !append_assoc. Qed.

Lemma substring_app_r (a w1 w2 : string) : substring a w2 → substring a (w1 +:+ w2).
Proof. intros (p & s & ->). exists (w1 +:+ p), s. by rw !append_assoc. Qed.

Lemma substring_refl (a : string) : substring a a.
Proof. exists EmptyString, EmptyString. by rw append_nil_r. Qed.

(* The groups a match records are parts of the matched word. *)
Lemma matches_groups (r : regex) (w : string) (caps caps' : list string) :
  matches r w caps caps' →
  ∃ new, caps' = caps ++ new ∧ Forall (λ g, substring g w) new.
Proof.
  induction 1 as [l caps|p c caps Hc|p w caps Hw|p c w caps Hc Hw
                 |r1 r2 w1 w2 caps caps1 caps2 H1 IH1 H2 IH2|r w caps caps' H1 IH1];
    try by (exists []; rw app_nil_r).
  - destruct IH1 as (n1 & -> & Hn1). destruct IH2 as (n2 & -> & Hn2).
    exists (n1 ++ n2). split; [by rw app_assoc|]. apply Forall_app. split.
    + eapply Forall_impl; [exact Hn1|]. intros g. apply substring_app_l.
    + eapply Forall_impl; [exact Hn2|]. intros g. apply substring_app_r.
  - destruct IH1 as (n1 & -> & Hn1). exists (n1 ++ [w]). split; [by rw app_assoc|].
    apply Forall_app. split; [done|]. apply Forall_singleton, substring_refl.
Qed.

Ltac invert_matches :=
  repeat match goal with
         | H : matches (Seq _ _) _ _ _ |- _ => inversion H; clear H; subst
         | H : matches (Group _) _ _ _ |- _ => inversion H; clear H; subst
         | H : matches (Lit _) _ _ _ |- _ => inversion H; clear H; subst
         | H : matches (Cls _) _ _ _ |- _ => inversion H; clear H; subst
         | H : matches (Star _) _ _ _ |- _ => inversion H; clear H; subst
         | H : matches (Plus _) _ _ _ |- _ => inversion H; clear H; subst
         end.

Lemma function_pattern_name (w : string) (caps : list string) :
  matches function_pattern w [] caps → is_identifier (group 2 caps) = true.
Proof.
  unfold function_pattern. intros Hm. invert_matches. simpl.
  rw ?append_cons ?append_nil_l /=. by apply andb_true_iff.
Qed.

Lemma struct_pattern_name (w : string) (caps : list string) :
  matches struct_pattern w [] caps → is_identifier (group 1 caps) = true.
Proof.
  unfold struct_pattern. intros Hm. invert_matches. simpl.
  rw ?append_cons ?append_nil_l /=. by apply andb_true_iff.
Qed.

Lemma define_pattern_name (w : string) (caps : list string) :
  matches define_pattern w [] caps → is_macro_name (group 1 caps) = true.
Proof.
  unfold define_pattern. intros Hm. invert_matches. simpl.
  rw ?append_cons ?append_nil_l /=. by apply andb_true_iff.
Qed.

Lemma include_pattern_name (w : string) (caps : list string) :
  matches include_pattern w [] caps → is_include_target (group 1 caps) = true.
Proof.
  unfold include_pattern. intros Hm. invert_matches. simpl.
  by apply andb_true_iff.
Qed.

Lemma group_substring (r : regex) (w : string) (caps : list string) (n : nat) :
  matches r w [] caps → n - 1 < length caps → substring (group n caps) w.
Proof.
  intros (new & -> & Hnew)%matches_groups Hn. rw app_nil_l in Hn |- *.
  unfold group. rw Forall_forall in Hnew.
  destruct (lookup_lt_is_Some_2 new (n - 1) Hn) as [g Hg].
  rw (nth_lookup_Some new (n - 1) EmptyString g Hg).
  apply Hnew, list_elem_of_lookup. by exists (n - 1).
Qed.

Lemma function_pattern_groups (w : string) (caps : list string) :
  matches function_pattern w [] caps → length caps = 2.
Proof. unfold function_pattern. intros Hm. by invert_matches. Qed.

Lemma struct_pattern_groups (w : string) (caps : list string) :
  matches struct_pattern w [] caps → length caps = 1.
Proof. unfold struct_pattern. intros Hm. by invert_matches. Qed.

Lemma define_pattern_groups (w : string) (caps : list string) :
  matches define_pattern w [] caps → length caps = 1.
Proof. unfold define_pattern. intros Hm. by invert_matches. Qed.

Lemma include_pattern_groups (w : string) (caps : list string) :
  matches include_pattern w [] caps → length caps = 1.
Proof. unfold include_pattern. intros Hm. by invert_matches. Qed.

(* What one pattern contributes to a descriptor: every group read from its
   matches has the shape [shape] and occurs in the text. *)
Lemma finditer_groups (r : regex) (n arity : nat) (shape : string → bool) (content : string) :
  (∀ w caps, matches r w [] caps → shape (group n caps) = true) →
  (∀ w caps, matches r w [] caps → length caps = arity) →
  n - 1 < arity →
  Forall (λ g, shape g = true ∧ substring g content) (map (group n) (finditer r content)).
Proof.
  intros Hshape Harity Hn. apply Forall_forall.
  intros g (caps & -> & (w & Hsub & Hm)%finditer_go_sound)%list_elem_of_fmap. split.
  - by apply (Hshape w).
  - apply (substring_trans _ w); [|done]. apply (group_substring r); [done|].
    by rw (Harity w caps Hm).
Qed.

(** The names in a descriptor are read verbatim from the file and have the
    shape their pattern asks for. For a file that can be read, every
    function name and structure name is a C identifier, every constant is
    an identifier without lower-case letters, and every dependency is a
    non-empty text without a closing angle bracket or double quote that
    starts neither with std nor with sys/; each of them occurs in the text
    of the file. *)
Theorem descriptor_names_are_identifiers_of_the_text (env : Env)
    (file_path content : string) :
  read_text env file_path = inl content →
  Forall (λ n, is_identifier n = true ∧ substring n content)
    (InterfaceDefinition.functions (parse_header_file env file_path).1)
  ∧ Forall (λ n, is_identifier n = true ∧ substring n content)
      (InterfaceDefinition.structures (parse_header_file env file_path).1)
  ∧ Forall (λ n, is_macro_name n = true ∧ substring n content)
      (InterfaceDefinition.constants (parse_header_file env file_path).1)
  ∧ Forall (λ d, (is_include_target d = true ∧ substring d content)
                 ∧ Str.startswith d "std" = false ∧ Str.startswith d "sys/" = false)
      (InterfaceDefinition.dependencies (parse_header_file env file_path).1).
Proof.
  intros Hread. rw /parse_header_file Hread parse_content_spec /=. split_and!.
  - apply (finditer_groups function_pattern 2 2);
      [apply function_pattern_name|apply function_pattern_groups|lia].
  - apply (finditer_groups struct_pattern 1 1);
      [apply struct_pattern_name|apply struct_pattern_groups|lia].
  - apply (finditer_groups define_pattern 1 1);
      [apply define_pattern_name|apply define_pattern_groups|lia].
  - pose proof (finditer_groups include_pattern 1 1 is_include_target content
                  include_pattern_name include_pattern_groups ltac:(lia)) as Hall.
    rw Forall_forall in Hall. apply Forall_forall. unfold kept_includes.
    intros d (caps & -> & [Hkept Hin]%list_elem_of_filter)%list_elem_of_fmap. split.
    + apply Hall, list_elem_of_fmap. by exists caps.
    + unfold not_system_include in Hkept.
      apply andb_true_iff in Hkept as [H1 H2]. split; by apply negb_true_iff.
Qed.

Lemma descriptor_names_are_identifiers_of_the_text_witness :
  Forall (λ n, is_identifier n = true ∧ substring n twice_text)
    (InterfaceDefinition.functions (parse_header_file twice_env "kernel/include/limits.h").1)
  ∧ Forall (λ n, is_identifier n = true ∧ substring n twice_text)
      (InterfaceDefinition.structures
         (parse_header_file twice_env "kernel/include/limits.h").1)
  ∧ Forall (λ n, is_macro_name n = true ∧ substring n twice_text)
      (InterfaceDefinition.constants (parse_header_file twice_env "kernel/include/limits.h").1)
  ∧ Forall (λ d, (is_include_target d = true ∧ substring d twice_text)
                 ∧ Str.startswith d "std" = false ∧ Str.startswith d "sys/" = false)
      (InterfaceDefinition.dependencies
         (parse_header_file twice_env "kernel/include/limits.h").1).
Proof.
  apply (descriptor_names_are_identifiers_of_the_text twice_env "kernel/include/limits.h"
           twice_text).
  reflexivity.
Defined.

(** ** The exit status and the summary of a run *)

Lemma exit_status_spec (issues : list Issue) :
  (exit_status issues = 1%Z ∨ exit_status issues = 0%Z)
  ∧ (exit_status issues = 1%Z
     ↔ ∃ issue, issue ∈ issues ∧ DependencyIssue.severity issue = "error").
Proof.
  unfold exit_status, count_severity, issues_of_severity.
  destruct (decide (0 < length (filter (λ i, DependencyIssue.severity i = "error") issues)))
    as [Hpos|Hzero].
  - split; [by left|]. split; [intros _|done].
    destruct (filter _ issues) as [|issue rest] eqn:Hf; [simpl in Hpos; lia|].
    exists issue.
    assert (issue ∈ filter (λ i, DependencyIssue.severity i = "error") issues) as Hin
      by (rw Hf; left).
    by apply list_elem_of_filter in Hin as [? ?].
  - split; [by right|]. split; [done|]. intros (issue & Hin & Hsev). exfalso. apply Hzero.
    assert (issue ∈ filter (λ i, DependencyIssue.severity i = "error") issues) as Hf
      by by apply list_elem_of_filter.
    destruct (filter _ issues); [by apply elem_of_nil in Hf|simpl; lia].
Qed.

Lemma console_order_cons (issue : Issue) (issues : list Issue) :
  error_or_warning issue → console_order (issue :: issues) ≡ₚ issue :: console_order issues.
Proof.
  unfold console_order, issues_of_severity. cbn [flat_map]. rw !app_nil_r.
  intros [Hsev|Hsev].
  - rw filter_cons_True // !filter_cons_False ?Hsev //.
  - rw filter_cons_False ?Hsev // filter_cons_True // filter_cons_False ?Hsev //.
    by rw -Permutation_middle.
Qed.

Lemma console_order_complete (issues : list Issue) :
  Forall error_or_warning issues →
  console_order issues ≡ₚ issues
  ∧ length issues = count_severity "error" issues + count_severity "warning" issues.
Proof.
  induction 1 as [|issue issues Hsev Hall [IHp IHl]]; [done|]. split.
  - by rw console_order_cons // IHp.
  - unfold count_severity, issues_of_severity in *. simpl.
    destruct Hsev as [Hsev|Hsev].
    + rw filter_cons_True // filter_cons_False ?Hsev //=. lia.
    + rw filter_cons_False ?Hsev // filter_cons_True //=. lia.
Qed.

Section run_status.
Context `{O : SetOrder} `{I : Interpreter}.

Lemma change_issues_errors (env : Env) (project_root : string)
    (check_changes : option string) :
  Forall (λ i, DependencyIssue.severity i = "error")
    (change_issues env project_root check_changes).
Proof.
  unfold change_issues. destruct check_changes as [base|]; [|by apply Forall_nil].
  destruct (decide (base = EmptyString)); [by apply Forall_nil|].
  apply check_interface_changes_errors.
Qed.

(** The summary of a run adds up, and the console report shows every issue
    once: the list [main] hands to the reporter has as many issues as the
    counts of its errors and of its warnings together, and the issues the
    console report prints under its three headings are a rearrangement of
    that list. *)
Theorem report_accounts_for_every_issue (env : Env) (project_root : string)
    (check_changes : option string) :
  ∃ issues,
    main_issues env project_root check_changes = Some issues
    ∧ console_order issues ≡ₚ issues
    ∧ length issues = count_severity "error" issues + count_severity "warning" issues.
Proof.
  destruct (main_issues_spec env project_root check_changes) as (validated & Hv & ->).
  pose proof (validate_interface_compatibility_severities _ _ Hv) as Hsev.
  eexists. split; [done|]. apply console_order_complete, Forall_app. split; [done|].
  eapply Forall_impl; [apply change_issues_errors|]. intros i Hi. by left.
Qed.

(** The status that the last line of [main] computes from the issue list is
    1 exactly when one of the four checks found an error among the analysed
    components: a required interface that no component provides, a directed
    cycle of the dependency relation, an interface listed as provided more
    than once whose name contains memory_interface, process_interface or
    filesystem_interface, or a breaking change reported by the Differ;
    otherwise it is 0. This is the exit
    status of the runs that reach that line. A run that ends before it, when
    [argparse] refuses the arguments or when writing the report raises, has
    another status and is not described here. *)
Theorem exit_status_iff_some_check_finds_an_error (env : Env) (project_root : string)
    (check_changes : option string) :
  ∃ issues,
    main_issues env project_root check_changes = Some issues
    ∧ (exit_status issues = 1%Z ∨ exit_status issues = 0%Z)
    ∧ (exit_status issues = 1%Z
       ↔ (∃ c r, c ∈ analyzed_components env project_root
                 ∧ r ∈ AgentComponent.interfaces_required c
                 ∧ ∀ c', c' ∈ analyzed_components env project_root →
                         r ∉ AgentComponent.interfaces_provided c')
         ∨ (∃ x, on_cycle (depends_on (analyzed_components env project_root)) x)
         ∨ (∃ i,
              1 < length (providers_of (analyzed_components env project_root) i)
              ∧ (substring "memory_interface" i
                 ∨ substring "process_interface" i
                 ∨ substring "filesystem_interface" i))
         ∨ change_issues env project_root check_changes ≠ []).
Proof.
  destruct (main_issues_spec env project_root check_changes) as (validated & Hv & ->).
  set (components := analyzed_components env project_root) in *.
  set (pm := build_interface_providers components).
  destruct (check_circular_dependencies_spec components
              (check_missing_interfaces pm components [])
              (analyzed_components_length env project_root))
    as (names & Hrun & _ & Hnames).
  assert (names ≠ [] ↔ ∃ x, on_cycle (depends_on components) x) as Hcycle.
  { apply (cycle_names_nonempty components _ names
             (analyzed_names_NoDup env project_root) Hrun).
    intros n Hn. by destruct (Hnames n Hn) as [_ ?]. }
  unfold validate_interface_compatibility in Hv. fold pm in Hv.
  rw Hrun check_interface_ownership_spec in Hv. injection Hv as <-.
  eexists. split; [done|].
  destruct (exit_status_spec
              (((check_missing_interfaces pm components [] ++ map cycle_issue names)
                ++ map (λ e, ownership_issue e.1 e.2) (filter (λ e, 1 < length e.2) pm))
               ++ change_issues env project_root check_changes)) as [Hrange Hiff].
  split; [exact Hrange|]. rw Hiff. clear Hrange Hiff.
  assert (∀ i ps, (i, ps) ∈ pm → ps = providers_of components i) as Hentry.
  { intros i ps Hin.
    apply dict_elem_of_get in Hin; [|apply build_interface_providers_NoDup].
    rw /pm build_interface_providers_get in Hin.
    destruct (providers_of components i); [done|]. simpl in Hin. congruence. }
  split.
  - intros (issue & [[[Hin|Hin]%elem_of_app|Hin]%elem_of_app|Hin]%elem_of_app & Hsev).
    + left. rw check_missing_interfaces_spec app_nil_l elem_of_flat_map in Hin.
      destruct Hin as (c & Hc & (r & _ & [Hr Hreq]%list_elem_of_filter)%list_elem_of_fmap).
      exists c, r. split_and!; [done..|]. intros c' Hc' Hprov.
      apply negb_true_iff in Hr.
      assert (Dict.mem pm r = true) as Hmem; [|congruence].
      apply build_interface_providers_mem. by exists c'.
    + right; left. apply Hcycle. intros ->. by apply elem_of_nil in Hin.
    + right; right; left.
      apply list_elem_of_fmap in Hin as ([i ps] & -> & [Hlen Hin]%list_elem_of_filter).
      simpl in *. apply ownership_severity_error, critical_marker_cases in Hsev.
      exists i. by rw -(Hentry i ps Hin).
    + right; right; right. intros Hnil. rw Hnil in Hin. by apply elem_of_nil in Hin.
  - intros [(c & r & Hc & Hr & Hnone)|[Hcyc|[(i & Hlen & Hmarker)|Hchange]]].
    + exists (missing_issue (AgentComponent.name c) r). split; [|done].
      do 3 (apply elem_of_app; left). apply elem_of_check_missing_interfaces.
      split; [by exists c|done].
    + apply Hcycle in Hcyc. destruct names as [|n names]; [done|].
      exists (cycle_issue n). split; [|done].
      do 2 (apply elem_of_app; left). apply elem_of_app; right. left.
    + exists (ownership_issue i (providers_of components i)). split.
      * apply elem_of_app; left. apply elem_of_app; right.
        apply list_elem_of_fmap. exists (i, providers_of components i).
        split; [done|]. apply list_elem_of_filter. split; [done|].
        apply dict_get_elem_of. rw /pm build_interface_providers_get.
        destruct (providers_of components i); [simpl in Hlen; lia|done].
      * by apply ownership_severity_error, critical_marker_cases.
    + destruct (change_issues env project_root check_changes) as [|issue rest] eqn:Hc;
        [done|].
      exists issue. split; [apply elem_of_app; right; left|].
      pose proof (change_issues_errors env project_root check_changes) as Hall.
      rw Hc in Hall. by apply Forall_cons in Hall as [? _].
Qed.

End run_status.

(** ** Headers with more than one owner *)


Lemma elem_of_providers_of (components : list Component) (interface n : string) :
  n ∈ providers_of components interface
  ↔ ∃ c, c ∈ components ∧ AgentComponent.name c = n
         ∧ interface ∈ AgentComponent.interfaces_provided c.
Proof.
  unfold providers_of. rw elem_of_flat_map. split.
  - intros (c & Hc & (i & -> & [-> Hi]%list_elem_of_filter)%list_elem_of_fmap).
    by exists c.
  - intros (c & Hc & <- & Hi). exists c. split; [done|].
    apply list_elem_of_fmap. exists interface. split; [done|].
    by apply list_elem_of_filter.
Qed.

Lemma two_elements_length {A : Type} (l : list A) (a b : A) :
  a ∈ l → b ∈ l → a ≠ b → 1 < length l.
Proof.
  destruct l as [|x [|y l]]; simpl; [by intros ?%elem_of_nil| |lia].
  intros ->%list_elem_of_singleton ->%list_elem_of_singleton Hne. done.
Qed.

Lemma discovered_component (env : Env) (project_root agent_type : string)
    (paths : list string) :
  (agent_type, paths) ∈ agent_components →
  owned_files env project_root paths ≠ [] →
  AgentComponent.mk (agent_type +:+ "-component") agent_type
    (owned_files env project_root paths) [] [] []
  ∈ (discover_components env project_root).1.
Proof.
  intros Hentry Hfiles. rw discover_components_spec elem_of_flat_map.
  exists (agent_type, paths). split; [done|]. unfold discovered. cbn [fst snd].
  destruct (owned_files env project_root paths); [done|]. left.
Qed.

Section owners.
Context `{O : SetOrder} `{I : Interpreter}.

Lemma ownership_issue_reported (components : list Component) (issues : list Issue)
    (interface : string) :
  validate_interface_compatibility components = Some issues →
  1 < length (providers_of components interface) →
  ownership_issue interface (providers_of components interface) ∈ issues.
Proof.
  intros (names & -> & _)%validate_interface_compatibility_returns Hlen.
  do 2 (apply elem_of_app; right).
  apply list_elem_of_fmap. exists (interface, providers_of components interface).
  split; [done|]. apply list_elem_of_filter. split; [done|].
  apply dict_get_elem_of. rw build_interface_providers_get.
  destruct (providers_of components interface); [simpl in Hlen; lia|done].
Qed.

(* The component of an agent provides the name of every header it owns. *)
Lemma analyzed_component_provides (env : Env) (project_root agent_type : string)
    (paths : list string) (file_path : string) :
  (agent_type, paths) ∈ agent_components →
  file_path ∈ owned_files env project_root paths →
  Str.endswith file_path ".h" = true →
  agent_type +:+ "-component"
  ∈ providers_of (analyzed_components env project_root) (PyPath.name file_path).
Proof.
  intros Hentry Hfile Hh. apply elem_of_providers_of.
  assert (owned_files env project_root paths ≠ []) as Hfiles.
  { intros Hnil. rw Hnil in Hfile. by apply elem_of_nil in Hfile. }
  pose proof (discovered_component env project_root agent_type paths Hentry Hfiles) as Hc.
  eexists. split.
  - unfold analyzed_components. apply list_elem_of_fmap. eexists. split; [done|exact Hc].
  - destruct (analyze_component_interfaces_spec env
                (AgentComponent.mk (agent_type +:+ "-component") agent_type
                   (owned_files env project_root paths) [] [] [])) as (-> & _ & ->).
    split; [done|]. rw elem_of_dedup_list elem_of_app elem_of_flat_map. right.
    exists file_path. split; [done|]. rw /file_provisions Hh. left.
Qed.

(** A header name with two owners is always reported. When two different
    agents of the ownership table each own a file whose path ends in .h, and
    the two files have the same name (they may be the same file), every run
    reports an ownership issue for that name, and both components are among
    the providers it names. When the name contains one of the critical
    markers, the issue is an error and the run exits with the status 1. *)
Theorem header_owned_by_two_agents_is_reported (env : Env) (project_root : string)
    (check_changes : option string) (agent1 agent2 : string) (paths1 paths2 : list string)
    (file1 file2 : string) :
  (agent1, paths1) ∈ agent_components →
  (agent2, paths2) ∈ agent_components →
  agent1 ≠ agent2 →
  file1 ∈ owned_files env project_root paths1 →
  file2 ∈ owned_files env project_root paths2 →
  Str.endswith file1 ".h" = true →
  Str.endswith file2 ".h" = true →
  PyPath.name file1 = PyPath.name file2 →
  ∃ issues,
    main_issues env project_root check_changes = Some issues
    ∧ ownership_issue (PyPath.name file1)
        (providers_of (analyzed_components env project_root) (PyPath.name file1))
      ∈ issues
    ∧ agent1 +:+ "-component"
      ∈ providers_of (analyzed_components env project_root) (PyPath.name file1)
    ∧ agent2 +:+ "-component"
      ∈ providers_of (analyzed_components env project_root) (PyPath.name file1)
    ∧ ((∃ marker, marker ∈ critical_markers ∧ substring marker (PyPath.name file1)) →
       exit_status issues = 1%Z).
Proof.
  intros Hentry1 Hentry2 Hne Hfile1 Hfile2 Hh1 Hh2 Hname.
  destruct (main_issues_spec env project_root check_changes) as (validated & Hv & ->).
  pose proof (analyzed_component_provides env project_root agent1 paths1 file1
                Hentry1 Hfile1 Hh1) as Hp1.
  pose proof (analyzed_component_provides env project_root agent2 paths2 file2
                Hentry2 Hfile2 Hh2) as Hp2.
  rw -Hname in Hp2.
  assert (ownership_issue (PyPath.name file1)
            (providers_of (analyzed_components env project_root) (PyPath.name file1))
          ∈ validated ++ change_issues env project_root check_changes) as Hissue.
  { apply elem_of_app. left. apply ownership_issue_reported; [done|].
    apply (two_elements_length _ _ _ Hp1 Hp2). intros Heq. apply Hne.
    by apply (append_inj_r "-component"). }
  eexists. split_and!; [done..|].
  intros Hmarker. apply exit_status_spec. eexists. split; [exact Hissue|].
  by apply ownership_severity_error.
Qed.

(** The ownership table gives the directory kernel/process to two agents,
    kernel-architect and process-scheduler. So every header that [rglob]
    finds under that directory is reported in every run as provided by
    multiple components, both of theirs among them. *)
Theorem kernel_process_headers_have_two_owners (env : Env) (project_root : string)
    (check_changes : option string) (file_path : string) :
  is_file env (PyPath.join project_root "kernel/process/") = false →
  is_dir env (PyPath.join project_root "kernel/process/") = true →
  file_path ∈ rglob env (PyPath.join project_root "kernel/process/") →
  is_file env file_path = true →
  PyPath.suffix file_path = ".h" →
  Str.endswith file_path ".h" = true →
  ∃ issues,
    main_issues env project_root check_changes = Some issues
    ∧ ownership_issue (PyPath.name file_path)
        (providers_of (analyzed_components env project_root) (PyPath.name file_path))
      ∈ issues
    ∧ "kernel-architect-component"
      ∈ providers_of (analyzed_components env project_root) (PyPath.name file_path)
    ∧ "process-scheduler-component"
      ∈ providers_of (analyzed_components env project_root) (PyPath.name file_path).
Proof.
  intros Hfile Hdir Hin Hisfile Hsuffix Hh.
  assert (file_path ∈ resolve_pattern env project_root "kernel/process/") as Hres.
  { unfold resolve_pattern. rw Hfile Hdir. apply list_elem_of_filter.
    split; [|done]. split; [done|]. rw Hsuffix /source_suffixes.
    right. left. }
  destruct (main_issues_spec env project_root check_changes) as (validated & Hv & ->).
  assert ("kernel-architect" +:+ "-component"
          ∈ providers_of (analyzed_components env project_root) (PyPath.name file_path))
    as Hp1.
  { apply (analyzed_component_provides env project_root "kernel-architect"
             ["kernel/kernel.c"; "kernel/memory.c"; "kernel/process/"; "kernel/include/"]);
      [left| |done].
    apply elem_of_flat_map. exists "kernel/process/". split; [|done].
    do 2 right. left. }
  assert ("process-scheduler" +:+ "-component"
          ∈ providers_of (analyzed_components env project_root) (PyPath.name file_path))
    as Hp2.
  { apply (analyzed_component_provides env project_root "process-scheduler"
             ["kernel/process/"; "kernel/syscall.c"]); [|  |done].
    - unfold agent_components. do 7 right. left.
    - apply elem_of_flat_map. exists "kernel/process/". split; [left|done]. }
  eexists. split_and!; [done| |exact Hp1|exact Hp2].
  apply elem_of_app. left. apply ownership_issue_reported; [done|].
  by apply (two_elements_length _ _ _ Hp1 Hp2).
Qed.

End owners.

Lemma kernel_process_headers_have_two_owners_witness :
  ∃ issues,
    main_issues (O := elements_order) (I := python_default) sched_env "." (Some "HEAD~1") = Some issues
    ∧ ownership_issue (PyPath.name "kernel/process/sched.h")
        (providers_of (analyzed_components (O := elements_order) sched_env ".")
           (PyPath.name "kernel/process/sched.h"))
      ∈ issues
    ∧ "kernel-architect-component"
      ∈ providers_of (analyzed_components (O := elements_order) sched_env ".")
          (PyPath.name "kernel/process/sched.h")
    ∧ "process-scheduler-component"
      ∈ providers_of (analyzed_components (O := elements_order) sched_env ".")
          (PyPath.name "kernel/process/sched.h").
Proof.
  apply (kernel_process_headers_have_two_owners (O := elements_order) sched_env "."
           (Some "HEAD~1") "kernel/process/sched.h"); try reflexivity.
  left.
Defined.

Lemma header_owned_by_two_agents_is_reported_witness :
  ∃ issues,
    main_issues (O := elements_order) (I := python_default) process_env "." None = Some issues
    ∧ ownership_issue (PyPath.name "kernel/process/process_interface.h")
        (providers_of (analyzed_components (O := elements_order) process_env ".")
           (PyPath.name "kernel/process/process_interface.h"))
      ∈ issues
    ∧ "kernel-architect" +:+ "-component"
      ∈ providers_of (analyzed_components (O := elements_order) process_env ".")
          (PyPath.name "kernel/process/process_interface.h")
    ∧ "process-scheduler" +:+ "-component"
      ∈ providers_of (analyzed_components (O := elements_order) process_env ".")
          (PyPath.name "kernel/process/process_interface.h")
    ∧ ((∃ marker, marker ∈ critical_markers
                  ∧ substring marker (PyPath.name "kernel/process/process_interface.h")) →
       exit_status issues = 1%Z).
Proof.
  apply (header_owned_by_two_agents_is_reported (O := elements_order) process_env "." None
           "kernel-architect" "process-scheduler"
           ["kernel/kernel.c"; "kernel/memory.c"; "kernel/process/"; "kernel/include/"]
           ["kernel/process/"; "kernel/syscall.c"]
           "kernel/process/process_interface.h" "kernel/process/process_interface.h");
    try reflexivity; try discriminate.
  - left.
  - unfold agent_components. do 7 right. left.
  - vm_compute. left.
  - vm_compute. left.
Defined.

(** ** Headers the analyser cannot read *)


Lemma analyze_files_logs (env : Env) (files : list string)
    (provided required : list string) (logs : list log_record) :
  (fold_left (analyze_file env) files (provided, required, logs)).2
  = logs ++ flat_map (file_warnings env) files.
Proof.
  revert provided required logs.
  induction files as [|f files IH]; intros provided required logs; simpl.
  { by rw app_nil_r. }
  unfold file_warnings at 1.
  destruct (Str.endswith f ".h"); simpl; [|apply IH].
  destruct (read_text env f) as [content|e]; rw IH //. by rw -app_assoc.
Qed.

Section analyze_errors.
Context `{O : SetOrder}.

(** A header that cannot be read is still provided. After
    [analyze_component_interfaces] a name is among the provided interfaces
    exactly when it was there before or it is the last path component of an
    owned file whose path ends in .h, whether the file can be read or not.
    The analysis raises nothing: each owned header that cannot be read adds
    one log record at the level WARNING, in the order of the files, and
    nothing else is logged. The name, the agent, the files and the
    dependencies of the component are left as they were. *)
Theorem unreadable_header_is_still_provided (env : Env) (component : Component) :
  (∀ i, i ∈ AgentComponent.interfaces_provided (analyze_component_interfaces env component).1
        ↔ i ∈ AgentComponent.interfaces_provided component
          ∨ ∃ file_path, file_path ∈ AgentComponent.file_paths component
                         ∧ Str.endswith file_path ".h" = true
                         ∧ i = PyPath.name file_path)
  ∧ (analyze_component_interfaces env component).2
    = flat_map (file_warnings env) (AgentComponent.file_paths component)
  ∧ AgentComponent.name (analyze_component_interfaces env component).1
    = AgentComponent.name component
  ∧ AgentComponent.agent_type (analyze_component_interfaces env component).1
    = AgentComponent.agent_type component
  ∧ AgentComponent.file_paths (analyze_component_interfaces env component).1
    = AgentComponent.file_paths component
  ∧ AgentComponent.dependencies (analyze_component_interfaces env component).1
    = AgentComponent.dependencies component.
Proof.
  split_and!.
  - intros i. destruct (analyze_component_interfaces_spec env component) as (-> & _ & _).
    rw elem_of_dedup_list elem_of_app elem_of_flat_map. apply or_iff_compat_l.
    unfold file_provisions. split.
    + intros (f & Hf & Hi). destruct (Str.endswith f ".h") eqn:Hh;
        [|by apply elem_of_nil in Hi].
      apply list_elem_of_singleton in Hi. by exists f.
    + intros (f & Hf & Hh & ->). exists f. split; [done|]. rw Hh. left.
  - pose proof (analyze_files_logs env (AgentComponent.file_paths component)
                  (AgentComponent.interfaces_provided component)
                  (AgentComponent.interfaces_required component) []) as Hlogs.
    unfold analyze_component_interfaces.
    destruct (fold_left (analyze_file env) (AgentComponent.file_paths component) _)
      as [[provided required] logs]. by simpl in *.
  - by destruct (analyze_component_interfaces_spec env component) as (_ & _ & ->).
  - unfold analyze_component_interfaces.
    by destruct (fold_left (analyze_file env) (AgentComponent.file_paths component) _)
      as [[provided required] logs].
  - unfold analyze_component_interfaces.
    by destruct (fold_left (analyze_file env) (AgentComponent.file_paths component) _)
      as [[provided required] logs].
  - unfold analyze_component_interfaces.
    by destruct (fold_left (analyze_file env) (AgentComponent.file_paths component) _)
      as [[provided required] logs].
Qed.

End analyze_errors.

(** ** A dependency chain deeper than the recursion limit *)








Section overflow.
Context `{O : SetOrder}.



Context `{I : Interpreter}.


End overflow.



(* A requirement on an own interface is not without effect: when a second
   component provides the same name, each of the two depends on the other,
   and the run reports a circular dependency. *)
Lemma own_interface_requirement_between_two_owners :
  main_issues (O := elements_order) (I := python_default) loop_env "." None
  = Some [cycle_issue "kernel-architect-component";
          ownership_issue "sched.h"
            ["kernel-architect-component"; "process-scheduler-component"]]
  ∧ exit_status [cycle_issue "kernel-architect-component";
                 ownership_issue "sched.h"
                   ["kernel-architect-component"; "process-scheduler-component"]]
    = 1%Z.
Proof. by vm_compute. Qed.

(* After a positive answer [has_cycle] leaves the nodes of the cycle on the
   stack, so a later root that leads into the cycle is answered positively
   at once: with D after the ring the check names A and D. *)
Lemma cycle_check_names_a_late_root :
  check_circular_dependencies (O := elements_order) (I := python_default)
    [ring_A; ring_B; ring_C; outside_D] []
  = Some [cycle_issue "A"; cycle_issue "D"].
Proof. by vm_compute. Qed.
